(** * Batched Gaussian mixture fitted by truncated EM

    A shallow embedding of [nussl/ml/unfold/gaussian_mixture.py] in exact
    real arithmetic.

    - Tensors are a shape together with an indexing function; every torch
      operation the module uses is written out on that representation, and
      the methods of [GaussianMixture] are transcribed statement by
      statement on top of them, keeping their local names.
    - Numbers are Stdlib's reals.  Division is the total [Rdiv]; no
      statement below depends on the value of a quotient by zero.
    - Three things come from outside the module and are parameters of the
      model: [torch.exp] (only assumed non-negative, so an exponential
      that underflows to zero is covered), the log-density and the
      argument validation of [torch.distributions.MultivariateNormal], and
      the values drawn by [Tensor.random_].
    - A call ends in a value or in an exception ([res]).  The exceptions
      torch raises on tensors of incompatible shapes are not modelled:
      statements about shaped inputs carry their shapes as hypotheses.
    - The methods are given twice.  The first model computes with tensor
      values; the second threads a store of storage cells, in which views
      share the cell of their base and slice assignment writes into it.
      The two are proved to agree ([forward_st_refines]).
    - The definitions end with an embedding of
      [nussl/separation/benchmark/wiener_filter.py], the masks
      [WienerFilter.run] derives from a multichannel Wiener filter; its
      conventions are stated there. *)

From Stdlib Require Import String Ascii.
From Stdlib Require Import Reals Lra Lia List Arith ZArith Bool.
Import ListNotations.

Open Scope R_scope.

(** ** Tensors *)

(** A dense tensor: its sizes and the value stored at each multi-index.
    Only indices within [shape] are meaningful. *)
Record tensor : Type := mkT { shape : list nat; item : list nat -> R }.

Definition numel (s : list nat) : nat := fold_right Nat.mul 1%nat s.

Definition rank (t : tensor) : nat := length (shape t).

(** [in_range idx s]: [idx] addresses an element of a tensor of shape [s]. *)
Fixpoint in_range (idx s : list nat) : Prop :=
  match idx, s with
  | [], [] => True
  | i :: idx', d :: s' => (i < d)%nat /\ in_range idx' s'
  | _, _ => False
  end.

(** Python's negative dimensions count from the end: dimension [d] of a
    rank-[r] tensor, as a position from the front. *)
Fixpoint nat_of_pos (p : positive) : nat :=
  match p with
  | xH => 1
  | xO q => 2 * nat_of_pos q
  | xI q => S (2 * nat_of_pos q)
  end.

Definition norm_dim (r : nat) (d : Z) : nat :=
  match d with
  | Z0 => O
  | Zpos p => nat_of_pos p
  | Zneg p => r - nat_of_pos p
  end.

Fixpoint upd {A} (n : nat) (x : A) (l : list A) : list A :=
  match l, n with
  | [], _ => []
  | _ :: l', O => x :: l'
  | a :: l', S n' => a :: upd n' x l'
  end.

Definition insert_at {A} (n : nat) (x : A) (l : list A) : list A :=
  firstn n l ++ x :: skipn n l.

Definition remove_at {A} (n : nat) (l : list A) : list A :=
  firstn n l ++ skipn (S n) l.

(** [sum_upto n f] is [f 0 + ... + f (n-1)]. *)
Fixpoint sum_upto (n : nat) (f : nat -> R) : R :=
  match n with
  | O => 0
  | S m => sum_upto m f + f m
  end.

(** *** Row-major addressing, used by [view] and [reshape] *)

Fixpoint ravel (s idx : list nat) : nat :=
  match s, idx with
  | _ :: s', i :: idx' => (i * numel s' + ravel s' idx')%nat
  | _, _ => O
  end.

Fixpoint unravel (s : list nat) (n : nat) : list nat :=
  match s with
  | [] => []
  | _ :: s' => (n / numel s')%nat :: unravel s' (n mod numel s')%nat
  end.

(** Sizes passed to [view]/[expand]: [None] stands for Python's [-1]. *)
Definition known_numel (sizes : list (option nat)) : nat :=
  fold_right (fun o acc => match o with Some d => (d * acc)%nat | None => acc end)
             1%nat sizes.

Definition infer_sizes (n : nat) (sizes : list (option nat)) : list nat :=
  map (fun o => match o with Some d => d | None => (n / known_numel sizes)%nat end)
      sizes.

(** [t.view(sizes)] on a contiguous tensor: same elements in row-major
    order under the new sizes. *)
Definition view (sizes : list (option nat)) (t : tensor) : tensor :=
  let s := infer_sizes (numel (shape t)) sizes in
  mkT s (fun idx => item t (unravel (shape t) (ravel s idx))).

Definition reshape (sizes : list (option nat)) (t : tensor) : tensor :=
  view sizes t.

(** *** Broadcasting *)

(** Shapes are aligned on their trailing dimensions; a size-1 dimension
    stretches to the other operand's size. *)
Definition bcast_dim (a b : nat) : nat := if (a =? 1)%nat then b else a.

Fixpoint bshape_rev (s1 s2 : list nat) : list nat :=
  match s1, s2 with
  | [], s => s
  | s, [] => s
  | a :: r1, b :: r2 => bcast_dim a b :: bshape_rev r1 r2
  end.

Definition broadcast_shape (s1 s2 : list nat) : list nat :=
  rev (bshape_rev (rev s1) (rev s2)).

(** The position read along a dimension of size [d] when the result is
    addressed at [i]: a stretched dimension always reads position 0. *)
Definition bcast_pos (d i : nat) : nat := if (d =? 1)%nat then O else i.

Fixpoint bindex_rev (s idx : list nat) : list nat :=
  match s, idx with
  | d :: s', i :: idx' => bcast_pos d i :: bindex_rev s' idx'
  | _, _ => []
  end.

Definition bindex (s idx : list nat) : list nat :=
  rev (bindex_rev (rev s) (rev idx)).

Definition tmap (f : R -> R) (t : tensor) : tensor :=
  mkT (shape t) (fun idx => f (item t idx)).

Definition tmap2 (op : R -> R -> R) (a b : tensor) : tensor :=
  mkT (broadcast_shape (shape a) (shape b))
      (fun idx => op (item a (bindex (shape a) idx))
                     (item b (bindex (shape b) idx))).

Definition tadd := tmap2 Rplus.
Definition tsub := tmap2 Rminus.
Definition tmul := tmap2 Rmult.
Definition tdiv := tmap2 Rdiv.

(** [t.expand(sizes)], [None] keeping the existing size. *)
Definition expand (sizes : list (option nat)) (t : tensor) : tensor :=
  let r := length sizes in
  let old := repeat 1%nat (r - rank t) ++ shape t in
  mkT (map (fun p => match fst p with Some d => d | None => snd p end)
           (combine sizes old))
      (fun idx => item t (bindex (shape t) idx)).

Definition expand_as (t other : tensor) : tensor :=
  mkT (shape other) (fun idx => item t (bindex (shape t) idx)).

(** *** Reductions, all with [keepdims=True] *)

Definition sum_keepdims (d : Z) (t : tensor) : tensor :=
  let k := norm_dim (rank t) d in
  mkT (upd k 1%nat (shape t))
      (fun idx => sum_upto (nth k (shape t) O)
                           (fun i => item t (upd k i idx))).

Definition mean_keepdims (d : Z) (t : tensor) : tensor :=
  let k := norm_dim (rank t) d in
  mkT (upd k 1%nat (shape t))
      (fun idx => sum_upto (nth k (shape t) O)
                           (fun i => item t (upd k i idx))
                  / INR (nth k (shape t) O)).

(** *** Shape manipulation *)

Definition unsqueeze (d : Z) (t : tensor) : tensor :=
  let k := norm_dim (S (rank t)) d in
  mkT (insert_at k 1%nat (shape t)) (fun idx => item t (remove_at k idx)).

Definition squeeze (d : Z) (t : tensor) : tensor :=
  let k := norm_dim (rank t) d in
  if (nth k (shape t) O =? 1)%nat
  then mkT (remove_at k (shape t)) (fun idx => item t (insert_at k O idx))
  else t.

Fixpoint index_of (x : nat) (l : list nat) : nat :=
  match l with
  | [] => O
  | y :: l' => if (x =? y)%nat then O else S (index_of x l')
  end.

(** [t.permute(dims)]: dimension [i] of the result is dimension
    [dims[i]] of [t]. *)
Definition permute (dims : list nat) (t : tensor) : tensor :=
  mkT (map (fun p => nth p (shape t) O) dims)
      (fun idx => item t (map (fun j => nth (index_of j dims) idx O)
                              (seq 0 (length dims)))).

(** [a @ b] for operands with identical leading (batch) dimensions:
    the last two dimensions are multiplied as matrices. *)
Definition matmul (a b : tensor) : tensor :=
  let r := rank a in
  mkT (firstn (r - 1) (shape a) ++ [nth (r - 1) (shape b) O])
      (fun idx => sum_upto (nth (r - 1) (shape a) O)
                           (fun j => item a (upd (r - 1) j idx)
                                     * item b (upd (r - 2) j idx))).

Definition clamp_min (m : R) (t : tensor) : tensor :=
  tmap (fun x => Rmax x m) t.

Definition eye (n : nat) : tensor :=
  mkT [n; n]
      (fun idx => match idx with
                  | [i; j] => if (i =? j)%nat then 1 else 0
                  | _ => 0
                  end).

(** [X.new(sizes).fill_(c)]: a new tensor, every element set to [c]. *)
Definition new_fill (sizes : list nat) (c : R) : tensor :=
  mkT sizes (fun _ => c).

(** [dst[..., :, :] = v]: every element of [dst] is overwritten with the
    broadcast of [v]; the value of [dst] afterwards. *)
Definition setitem_all (dst v : tensor) : tensor :=
  mkT (shape dst) (fun idx => item v (bindex (shape v) idx)).

(** [a += b]: [a] overwritten with the broadcast of [a + b]; the value of
    [a] afterwards. *)
Definition iadd (a b : tensor) : tensor := setitem_all a (tadd a b).

(** [torch.index_select(t, 0, index)] for a 2-d [t] and a 1-d [index]
    holding integral values. *)
Definition to_index (x : R) : nat := Z.to_nat (Int_part x).

Definition index_select0 (t index : tensor) : tensor :=
  mkT (nth 0 (shape index) O :: tl (shape t))
      (fun idx => match idx with
                  | m :: rest => item t (to_index (item index [m]) :: rest)
                  | [] => 0
                  end).

(** [t.long()]: truncation to an integer. *)
Definition long (t : tensor) : tensor :=
  tmap (fun x => IZR (Int_part x)) t.

(** [np.arange(0, n)] as a 1-d tensor. *)
Definition arange (n : nat) : tensor :=
  mkT [n] (fun idx => INR (hd O idx)).

(** [nn.functional.normalize(t, p=1, dim=-1)]:
    [t / max(||t||_1, eps)] with torch's default [eps = 1e-12]. *)
Definition normalize_eps : R := 1e-12.

Definition normalize_L1 (t : tensor) : tensor :=
  let norm := sum_keepdims (-1) (tmap Rabs t) in
  let denom := expand_as (clamp_min normalize_eps norm) t in
  tdiv t denom.

(** ** Strings *)

(** Python's [needle in hay] on strings. *)
Fixpoint contains (needle hay : String.string) : bool :=
  match hay with
  | String.EmptyString => String.prefix needle hay
  | String.String _ rest => String.prefix needle hay || contains needle rest
  end.

(** ** The model object *)

Record GaussianMixture : Type := mkGaussianMixture {
  n_components : nat;
  n_iter : nat;
  covariance_type : String.string;
  covariance_init : R;
  reg_covar : R
}.

(** Exceptions a call can end with. *)
Inductive exn : Type :=
| ValueError          (* raised by torch.distributions on an invalid covariance *)
| UnboundLocalError.  (* a local read before any assignment *)

(** The outcome of a call: a value, or an exception. *)
Inductive res (A : Type) : Type :=
| Return (a : A)
| Raise (e : exn).
Arguments Return {A} a.
Arguments Raise {A} e.

(** [GaussianMixture.__init__]: four assignments from the arguments and
    one, to [n_iter], of the literal 5; no statement of the constructor
    raises. *)
Definition __init__ (n_components n_iter : nat)
    (covariance_type : String.string) (covariance_init reg_covar : R)
    : res GaussianMixture :=
  Return {| n_components := n_components;
            n_iter := 5;
            covariance_type := covariance_type;
            covariance_init := covariance_init;
            reg_covar := reg_covar |}.

Definition res_bind {A B} (m : res A) (k : A -> res B) : res B :=
  match m with
  | Return a => k a
  | Raise e => Raise e
  end.

Notation "x <- m ;; k" := (res_bind m (fun x => k))
  (at level 61, m at next level, right associativity).
Notation "' p <- m ;; k" := (res_bind m (fun x => let p := x in k))
  (at level 61, p pattern, m at next level, right associativity).

(** The dictionary returned by [forward]. *)
Record bundle : Type := mkBundle {
  resp : tensor;
  log_prob : tensor;
  means : tensor;
  covariance : tensor;
  prior : tensor
}.

(** Local variables of [forward] that the loop assigns: [means] and
    [covariance] are bound before the loop, [resp], [log_prob] and
    [prior] only by its body. *)
Record locals : Type := mkLocals {
  l_means : tensor;
  l_covariance : tensor;
  l_body : option (tensor * tensor * tensor)   (* resp, log_prob, prior *)
}.

Definition range (n : nat) : list nat := seq 0 n.

(** The additive constant of [_e_step]. *)
Definition prob_eps : R := 1e-8.

Section Model.

(** What the module takes from outside: [torch.exp], the Gaussian
    log-density and argument validation of
    [torch.distributions.MultivariateNormal], and the values drawn by
    [Tensor.random_]. *)
Variable torch_exp : R -> R.
Variable log_density :
  nat -> (nat -> R) -> (nat -> R) -> (nat -> nat -> R) -> R.
Variable mvn_valid : tensor -> tensor -> bool.
Variable rng : list nat -> R.

(** [MultivariateNormal(loc, covariance_matrix=cov).log_prob(value)]:
    the batch dimensions of the three operands broadcast, the last
    dimension of [loc]/[value] and the last two of [cov] are the event. *)
Definition mvn_log_prob (loc cov value : tensor) : tensor :=
  let sl := removelast (shape loc) in
  let sc := removelast (removelast (shape cov)) in
  let sv := removelast (shape value) in
  mkT (broadcast_shape sv (broadcast_shape sl sc))
      (fun idx =>
         log_density (last (shape loc) O)
           (fun f => item value (bindex sv idx ++ [f]))
           (fun f => item loc (bindex sl idx ++ [f]))
           (fun i j => item cov (bindex sc idx ++ [i; j]))).

Definition _enforce_covariance_type (self : GaussianMixture)
    (covariance : tensor) : tensor :=
  let n_features := last (shape covariance) O in
  let diag_mask := eye n_features in
  let diag_mask :=
    reshape [Some 1%nat; Some 1%nat; Some n_features; Some n_features]
            diag_mask in
  let covariance :=
    if contains "spherical"%string (covariance_type self)
    then
      let covariance :=
        setitem_all covariance
          (mean_keepdims (-1) (mean_keepdims (-2) covariance)) in
      tmul covariance diag_mask
    else covariance in
  let covariance :=
    if contains "diag"%string (covariance_type self)
    then tmul covariance diag_mask
    else covariance in
  let covariance :=
    if contains "tied"%string (covariance_type self)
    then setitem_all covariance (mean_keepdims 1 covariance)
    else covariance in
  covariance.

Definition _m_step (self : GaussianMixture) (X resp : tensor)
    : tensor * tensor * tensor :=
  let n_batch := nth 0 (shape X) O in
  let n_samples := nth 1 (shape X) O in
  let n_features := nth 2 (shape X) O in
  let n_components := nth 2 (shape resp) O in
  let resp :=
    view [Some n_batch; Some n_samples; Some n_components; Some 1%nat] resp in
  let X :=
    view [Some n_batch; Some n_samples; Some 1%nat; Some n_features] X in
  (* update means *)
  let _top := sum_keepdims 1 (tmul resp X) in
  let _bottom := sum_keepdims 1 resp in
  let means := tdiv _top _bottom in
  (* update covariance *)
  let diff := tsub X means in
  let diff := tmul diff resp in
  let covariance :=
    matmul (permute [0; 2; 3; 1]%nat diff) (permute [0; 2; 1; 3]%nat diff) in
  let covariance := tdiv (unsqueeze 1 covariance) (unsqueeze (-1) _bottom) in
  let covariance := clamp_min (reg_covar self) (squeeze 1 covariance) in
  let covariance := _enforce_covariance_type self covariance in
  (* update prior *)
  let prior := _bottom in
  (squeeze 1 means, covariance, prior).

Definition _e_step (self : GaussianMixture) (X means covariance : tensor)
    : res (tensor * tensor) :=
  let n_batch := nth 0 (shape X) O in
  let n_samples := nth 1 (shape X) O in
  let n_features := nth 2 (shape X) O in
  let n_components := nth 1 (shape means) O in
  let X :=
    view [Some n_batch; Some n_samples; Some 1%nat; Some n_features] X in
  let means :=
    view [Some n_batch; Some 1%nat; Some n_components; Some n_features]
         means in
  let covariance :=
    view [Some n_batch; Some 1%nat; Some n_components;
          Some n_features; Some n_features] covariance in
  if mvn_valid means covariance then
    let log_prob := mvn_log_prob means covariance X in
    let prob := tmap (fun x => x + prob_eps) (tmap torch_exp log_prob) in
    let resp := normalize_L1 prob in
    Return (resp, log_prob)
  else Raise ValueError.

Definition init_params (self : GaussianMixture) (X : tensor)
    (means covariance : option tensor) : tensor * tensor :=
  let means :=
    match means with
    | Some means => means
    | None =>
      let sampled :=
        mkT [nth 0 (shape X) O; n_components self] rng in
      let sampled :=
        iadd sampled
             (tmap (fun x => x * INR (nth 1 (shape X) O))
                   (expand [None; Some (nth 1 (shape sampled) O)]
                           (unsqueeze 1 (arange (nth 0 (shape X) O))))) in
      let sampled := long sampled in
      view [Some (nth 0 (shape X) O); Some (last (shape sampled) O); None]
           (index_select0 (view [None; Some (last (shape X) O)] X)
                          (view [None] sampled))
    end in
  let covariance :=
    match covariance with
    | Some covariance => covariance
    | None =>
      new_fill [nth 0 (shape X) O; n_components self; last (shape X) O]
               (covariance_init self)
    end in
  let covariance :=
    if (rank covariance <? 4)%nat
    then expand [None; None; None; Some (last (shape X) O)]
                (unsqueeze (-1) covariance)
    else covariance in
  let n_features := last (shape covariance) O in
  let diag_mask := eye n_features in
  let diag_mask :=
    reshape [Some 1%nat; Some 1%nat; Some n_features; Some n_features]
            diag_mask in
  let covariance := tmul covariance diag_mask in
  let covariance := _enforce_covariance_type self covariance in
  (means, covariance).

(** One pass through the body of the [for] loop of [forward]. *)
Definition em_body (self : GaussianMixture) (data : tensor) (st : locals)
    : res locals :=
  ' (resp, log_prob) <- _e_step self data (l_means st) (l_covariance st) ;;
  let '(means, covariance, prior) := _m_step self data resp in
  Return (mkLocals means covariance (Some (resp, log_prob, prior))).

(** [for i in iters: body]. *)
Fixpoint for_each (self : GaussianMixture) (data : tensor) (iters : list nat)
    (st : locals) : res locals :=
  match iters with
  | [] => Return st
  | _ :: iters' =>
    st' <- em_body self data st ;; for_each self data iters' st'
  end.

Definition forward (self : GaussianMixture) (data : tensor)
    (means covariance : option tensor) : res bundle :=
  let shape_ := shape data in
  let data := view [Some (hd O shape_); None; Some (last shape_ O)] data in
  let '(means, covariance) := init_params self data means covariance in
  st <- for_each self data (range (n_iter self))
                 (mkLocals means covariance None) ;;
  match l_body st with
  | None => Raise UnboundLocalError
  | Some (resp, log_prob, prior) =>
    Return {| resp := view (map Some (removelast shape_) ++ [None]) resp;
              log_prob := view (map Some (removelast shape_) ++ [None]) log_prob;
              means := l_means st;
              covariance := l_covariance st;
              prior := prior |}
  end.

End Model.

(** ** Storage and aliasing

    A torch tensor is a window onto a storage cell.  Arithmetic,
    reductions, [clamp] and [matmul] allocate a new cell; [view],
    [unsqueeze], [squeeze], [expand] and [permute] return another window
    onto the same cell; slice assignment and the underscore methods write
    into the cell of the tensor they are applied to. *)

Definition store : Type := list tensor.

(** A tensor object: the cell it reads, how the cell's contents are seen
    through it, and how a value written through it lands in the cell. *)
Record tref : Type := mkRef {
  loc : nat;
  get : tensor -> tensor;
  put : tensor -> tensor -> tensor
}.

Definition base_ref (l : nat) : tref := mkRef l (fun b => b) (fun v _ => v).

Definition as_view (f : tensor -> tensor) (g : tensor -> tensor -> tensor)
    (h : tref) : tref :=
  mkRef (loc h)
        (fun b => f (get h b))
        (fun v b => put h (g v (get h b)) b).

Definition view_ref (sizes : list (option nat)) : tref -> tref :=
  as_view (view sizes) (fun v old => view (map Some (shape old)) v).

Definition unsqueeze_ref (d : Z) : tref -> tref :=
  as_view (unsqueeze d) (fun v _ => squeeze d v).

Definition squeeze_ref (d : Z) : tref -> tref :=
  as_view (squeeze d)
          (fun v old =>
             if (nth (norm_dim (rank old) d) (shape old) O =? 1)%nat
             then unsqueeze d v else v).

Definition permute_ref (dims : list nat) : tref -> tref :=
  as_view (permute dims)
          (fun v _ => permute (map (fun j => index_of j dims)
                                   (seq 0 (length dims))) v).

(** torch rejects writes through an expanded window; the module never
    performs one.  The write-back reads the positions padded with 0. *)
Definition expand_ref (sizes : list (option nat)) : tref -> tref :=
  as_view (expand sizes)
          (fun v old =>
             mkT (shape old)
                 (fun idx => item v (repeat O (rank v - rank old) ++ idx))).

Definition dummy : tensor := mkT [] (fun _ => 0).

Definition cell (sigma : store) (l : nat) : tensor := nth l sigma dummy.

Definition deref (h : tref) (sigma : store) : tensor :=
  get h (cell sigma (loc h)).

(** Computations over the store that may raise. *)
Definition M (A : Type) : Type := store -> res (A * store).

Definition st_ret {A} (a : A) : M A := fun sigma => Return (a, sigma).

Definition st_bind {A B} (m : M A) (k : A -> M B) : M B :=
  fun sigma =>
    match m sigma with
    | Return (a, sigma') => k a sigma'
    | Raise e => Raise e
    end.

Definition st_raise {A} (e : exn) : M A := fun _ => Raise e.

Notation "x <~ m ;; k" := (st_bind m (fun x => k))
  (at level 61, m at next level, right associativity).

(** A new cell holding [v]. *)
Definition alloc (v : tensor) : M tref :=
  fun sigma => Return (base_ref (length sigma), sigma ++ [v]).

Definition load (h : tref) : M tensor :=
  fun sigma => Return (deref h sigma, sigma).

(** [h[..., :, :] = v], and every other in-place write of a whole tensor:
    the cell of [h] is updated so that [h] reads the broadcast of [v]. *)
Definition store_all (h : tref) (v : tensor) : M unit :=
  fun sigma =>
    Return (tt, upd (loc h)
                    (put h (setitem_all (deref h sigma) v)
                         (cell sigma (loc h)))
                    sigma).

(** Operations whose result is a new tensor. *)
Definition new1 (f : tensor -> tensor) (a : tref) : M tref :=
  va <~ load a ;; alloc (f va).

Definition new2 (f : tensor -> tensor -> tensor) (a b : tref) : M tref :=
  va <~ load a ;; vb <~ load b ;; alloc (f va vb).

(** The dictionary returned by [forward], as tensor objects. *)
Record bundle_ref : Type := mkBundleRef {
  resp_ref : tref;
  log_prob_ref : tref;
  means_ref : tref;
  covariance_ref : tref;
  prior_ref : tref
}.

Record locals_ref : Type := mkLocalsRef {
  lr_means : tref;
  lr_covariance : tref;
  lr_body : option (tref * tref * tref)
}.

Section ModelWithStore.

Variable torch_exp : R -> R.
Variable log_density :
  nat -> (nat -> R) -> (nat -> R) -> (nat -> nat -> R) -> R.
Variable mvn_valid : tensor -> tensor -> bool.
Variable rng : list nat -> R.

Definition _enforce_covariance_type_st (self : GaussianMixture)
    (covariance : tref) : M tref :=
  c <~ load covariance ;;
  let n_features := last (shape c) O in
  diag_mask <~ alloc (eye n_features) ;;
  let diag_mask :=
    view_ref [Some 1%nat; Some 1%nat; Some n_features; Some n_features]
             diag_mask in
  covariance <~
    (if contains "spherical"%string (covariance_type self)
     then
       m <~ new1 (mean_keepdims (-2)) covariance ;;
       m <~ new1 (mean_keepdims (-1)) m ;;
       v <~ load m ;;
       _ <~ store_all covariance v ;;
       new2 tmul covariance diag_mask
     else st_ret covariance) ;;
  covariance <~
    (if contains "diag"%string (covariance_type self)
     then new2 tmul covariance diag_mask
     else st_ret covariance) ;;
  covariance <~
    (if contains "tied"%string (covariance_type self)
     then
       m <~ new1 (mean_keepdims 1) covariance ;;
       v <~ load m ;;
       _ <~ store_all covariance v ;;
       st_ret covariance
     else st_ret covariance) ;;
  st_ret covariance.

Definition _m_step_st (self : GaussianMixture) (X resp : tref)
    : M (tref * tref * tref) :=
  vX <~ load X ;;
  vresp <~ load resp ;;
  let n_batch := nth 0 (shape vX) O in
  let n_samples := nth 1 (shape vX) O in
  let n_features := nth 2 (shape vX) O in
  let n_components := nth 2 (shape vresp) O in
  let resp :=
    view_ref [Some n_batch; Some n_samples; Some n_components; Some 1%nat]
             resp in
  let X :=
    view_ref [Some n_batch; Some n_samples; Some 1%nat; Some n_features] X in
  prod <~ new2 tmul resp X ;;
  _top <~ new1 (sum_keepdims 1) prod ;;
  _bottom <~ new1 (sum_keepdims 1) resp ;;
  means <~ new2 tdiv _top _bottom ;;
  diff <~ new2 tsub X means ;;
  diff <~ new2 tmul diff resp ;;
  covariance <~
    new2 matmul (permute_ref [0; 2; 3; 1]%nat diff)
                (permute_ref [0; 2; 1; 3]%nat diff) ;;
  covariance <~
    new2 tdiv (unsqueeze_ref 1 covariance) (unsqueeze_ref (-1) _bottom) ;;
  covariance <~
    new1 (clamp_min (reg_covar self)) (squeeze_ref 1 covariance) ;;
  covariance <~ _enforce_covariance_type_st self covariance ;;
  let prior := _bottom in
  st_ret (squeeze_ref 1 means, covariance, prior).

Definition _e_step_st (self : GaussianMixture) (X means covariance : tref)
    : M (tref * tref) :=
  vX <~ load X ;;
  vmeans <~ load means ;;
  let n_batch := nth 0 (shape vX) O in
  let n_samples := nth 1 (shape vX) O in
  let n_features := nth 2 (shape vX) O in
  let n_components := nth 1 (shape vmeans) O in
  let X :=
    view_ref [Some n_batch; Some n_samples; Some 1%nat; Some n_features] X in
  let means :=
    view_ref [Some n_batch; Some 1%nat; Some n_components; Some n_features]
             means in
  let covariance :=
    view_ref [Some n_batch; Some 1%nat; Some n_components;
              Some n_features; Some n_features] covariance in
  vmeans <~ load means ;;
  vcov <~ load covariance ;;
  if mvn_valid vmeans vcov then
    vX <~ load X ;;
    log_prob <~ alloc (mvn_log_prob log_density vmeans vcov vX) ;;
    prob <~ new1 (tmap torch_exp) log_prob ;;
    prob <~ new1 (tmap (fun x => x + prob_eps)) prob ;;
    resp <~ new1 normalize_L1 prob ;;
    st_ret (resp, log_prob)
  else st_raise ValueError.

Definition init_params_st (self : GaussianMixture) (X : tref)
    (means covariance : option tref) : M (tref * tref) :=
  vX <~ load X ;;
  means <~
    match means with
    | Some means => st_ret means
    | None =>
      sampled <~ alloc (mkT [nth 0 (shape vX) O; n_components self] rng) ;;
      ar <~ alloc (arange (nth 0 (shape vX) O)) ;;
      vs <~ load sampled ;;
      off <~ new1 (tmap (fun x => x * INR (nth 1 (shape vX) O)))
               (expand_ref [None; Some (nth 1 (shape vs) O)]
                           (unsqueeze_ref 1 ar)) ;;
      voff <~ load off ;;
      _ <~ store_all sampled (tadd vs voff) ;;
      sampled <~ new1 long sampled ;;
      vs <~ load sampled ;;
      sel <~ new2 index_select0
               (view_ref [None; Some (last (shape vX) O)] X)
               (view_ref [None] sampled) ;;
      st_ret (view_ref [Some (nth 0 (shape vX) O);
                        Some (last (shape vs) O); None] sel)
    end ;;
  covariance <~
    match covariance with
    | Some covariance => st_ret covariance
    | None =>
      alloc (new_fill [nth 0 (shape vX) O; n_components self;
                       last (shape vX) O] (covariance_init self))
    end ;;
  vc <~ load covariance ;;
  let covariance :=
    if (rank vc <? 4)%nat
    then expand_ref [None; None; None; Some (last (shape vX) O)]
                    (unsqueeze_ref (-1) covariance)
    else covariance in
  vc <~ load covariance ;;
  let n_features := last (shape vc) O in
  diag_mask <~ alloc (eye n_features) ;;
  let diag_mask :=
    view_ref [Some 1%nat; Some 1%nat; Some n_features; Some n_features]
             diag_mask in
  covariance <~ new2 tmul covariance diag_mask ;;
  covariance <~ _enforce_covariance_type_st self covariance ;;
  st_ret (means, covariance).

Definition em_body_st (self : GaussianMixture) (data : tref)
    (st : locals_ref) : M locals_ref :=
  rl <~ _e_step_st self data (lr_means st) (lr_covariance st) ;;
  mcp <~ _m_step_st self data (fst rl) ;;
  st_ret (mkLocalsRef (fst (fst mcp)) (snd (fst mcp))
                      (Some (fst rl, snd rl, snd mcp))).

Fixpoint for_each_st (self : GaussianMixture) (data : tref)
    (iters : list nat) (st : locals_ref) : M locals_ref :=
  match iters with
  | [] => st_ret st
  | _ :: iters' =>
    st' <~ em_body_st self data st ;; for_each_st self data iters' st'
  end.

Definition forward_st (self : GaussianMixture) (data : tref)
    (means covariance : option tref) : M bundle_ref :=
  vdata <~ load data ;;
  let shape_ := shape vdata in
  let data := view_ref [Some (hd O shape_); None; Some (last shape_ O)] data in
  mc <~ init_params_st self data means covariance ;;
  st <~ for_each_st self data (range (n_iter self))
                    (mkLocalsRef (fst mc) (snd mc) None) ;;
  match lr_body st with
  | None => st_raise UnboundLocalError
  | Some (resp, log_prob, prior) =>
    st_ret {| resp_ref :=
                view_ref (map Some (removelast shape_) ++ [None]) resp;
              log_prob_ref :=
                view_ref (map Some (removelast shape_) ++ [None]) log_prob;
              means_ref := lr_means st;
              covariance_ref := lr_covariance st;
              prior_ref := prior |}
  end.

End ModelWithStore.

(** ** Vocabulary of the statements *)

(** The three substring tests of [_enforce_covariance_type], in source
    order: spherical, diag, tied. *)
Definition dispatch (ct : String.string) : bool * bool * bool :=
  (contains "spherical" ct, contains "diag" ct, contains "tied" ct).

(** The four documented covariance types. *)
Definition documented_type (ct : String.string) : Prop :=
  ct = "full"%string \/ ct = "tied"%string \/
  ct = "diag"%string \/ ct = "spherical"%string.

(** A (batch, samples, components) tensor all of whose entries are at
    least [prob_eps]. *)
Definition floored (B S K : nat) (p : tensor) : Prop :=
  shape p = [B; S; K] /\
  forall b s k, (b < B)%nat -> (s < S)%nat -> (k < K)%nat ->
                prob_eps <= item p [b; s; k].

(** Line 183 of the source: the sample axes of [data] collapsed. *)
Definition flatten_samples (data : tensor) : tensor :=
  view [Some (hd O (shape data)); None; Some (last (shape data) O)] data.

(** Optional initial parameters agree with the data and with each other:
    [K] components over [F] features for [B] batch elements. *)
Definition params_match (self : GaussianMixture) (B K F : nat)
    (means covariance : option tensor) : Prop :=
  match means with
  | Some m => shape m = [B; K; F]
  | None => K = n_components self
  end /\
  match covariance with
  | Some c => shape c = [B; K; F; F] \/ shape c = [B; K; F]
  | None => K = n_components self
  end.

(** Loop invariant of [forward]: the current parameters have the shapes
    the E-step expects. *)
Definition params_shaped (B K F : nat) (st : locals) : Prop :=
  shape (l_means st) = [B; K; F] /\ shape (l_covariance st) = [B; K; F; F].

(** [resp] and [lp] are what the E-step returns from the parameters held
    in [st]: [lp] has one entry per (batch, sample, component) and [resp]
    is the normalisation of probabilities that are at least [prob_eps]. *)
Definition e_step_output (torch_exp : R -> R)
    (log_density : nat -> (nat -> R) -> (nat -> R) -> (nat -> nat -> R) -> R)
    (mvn_valid : tensor -> tensor -> bool)
    (self : GaussianMixture) (X : tensor) (B S K : nat)
    (st : locals) (resp lp : tensor) : Prop :=
  _e_step torch_exp log_density mvn_valid self X
          (l_means st) (l_covariance st) = Return (resp, lp) /\
  shape lp = [B; S; K] /\
  exists prob, floored B S K prob /\ resp = normalize_L1 prob.

(** The last statement of [forward]: the dictionary built from the locals
    the loop left, where [shape_] is the shape of the caller's data. *)
Definition assemble (shape_ : list nat) (st : locals) : res bundle :=
  match l_body st with
  | None => Raise UnboundLocalError
  | Some (resp, log_prob, prior) =>
    Return {| resp := view (map Some (removelast shape_) ++ [None]) resp;
              log_prob := view (map Some (removelast shape_) ++ [None]) log_prob;
              means := l_means st;
              covariance := l_covariance st;
              prior := prior |}
  end.

(** A small instance used to exercise the statements: the model that
    [__init__ 1 n "diag" 1 1e-4] builds, and one batch element holding the
    two one-dimensional samples 0 and 1. *)
Definition example_model : GaussianMixture :=
  mkGaussianMixture 1 5 "diag" 1 1e-4.

Definition example_data : tensor :=
  mkT [1; 2; 1]%nat (fun idx => INR (nth 1 idx O)).

Definition example_forward : res bundle :=
  forward exp (fun _ _ _ _ => 0) (fun _ _ => true) (fun _ => 0)
          example_model example_data None None.

(** ** Vocabulary of the frame statements *)

(** [sigma'] is no shorter than [sigma] and holds the same tensors in the
    cells below [n]. *)
Definition agrees_below (n : nat) (sigma sigma' : store) : Prop :=
  (length sigma <= length sigma')%nat /\
  forall l, (l < n)%nat -> nth_error sigma' l = nth_error sigma l.

(** The tensor object [h] reads a cell at or above [n]. *)
Definition fresh_from (n : nat) (h : tref) : Prop := (n <= loc h)%nat.

(** Started in a store with at least [n] cells, [m] leaves the cells
    below [n] as they were, and its result satisfies [Q]. *)
Definition frame_safe {A} (n : nat) (m : M A) (Q : A -> Prop) : Prop :=
  forall sigma, (n <= length sigma)%nat ->
    match m sigma with
    | Return (a, sigma') => agrees_below n sigma sigma' /\ Q a
    | Raise _ => True
    end.

(** From every store, [m] returns a result satisfying [Q]. *)
Definition st_returns {A} (m : M A) (Q : A -> Prop) : Prop :=
  forall sigma, exists a sigma', m sigma = Return (a, sigma') /\ Q a.

(** The store a caller holds before the example call: its data in cell 0
    and an initial covariance of its own in cell 1. *)
Definition example_store : store :=
  [example_data; mkT [1; 1; 1]%nat (fun _ => 1)].

Definition example_forward_st : res (bundle_ref * store) :=
  forward_st exp (fun _ _ _ _ => 0) (fun _ _ => true) (fun _ => 0)
             example_model (base_ref 0) None (Some (base_ref 1))
             example_store.

(** ** Vocabulary of the agreement between the two models *)

(** The tensor object [h] reads a live cell of [sigma]. *)
Definition valid (sigma : store) (h : tref) : Prop :=
  (loc h < length sigma)%nat.

(** The values a loop state and a returned dictionary denote in a store. *)
Definition valid_locals (sigma : store) (st : locals_ref) : Prop :=
  valid sigma (lr_means st) /\ valid sigma (lr_covariance st) /\
  match lr_body st with
  | Some (r, l, p) => valid sigma r /\ valid sigma l /\ valid sigma p
  | None => True
  end.

Definition read_locals (sigma : store) (st : locals_ref) : locals :=
  mkLocals (deref (lr_means st) sigma) (deref (lr_covariance st) sigma)
           match lr_body st with
           | Some (r, l, p) => Some (deref r sigma, deref l sigma, deref p sigma)
           | None => None
           end.

Definition read_bundle (sigma : store) (r : bundle_ref) : bundle :=
  mkBundle (deref (resp_ref r) sigma) (deref (log_prob_ref r) sigma)
           (deref (means_ref r) sigma) (deref (covariance_ref r) sigma)
           (deref (prior_ref r) sigma).

Definition read_opt (sigma : store) (h : option tref) : option tensor :=
  match h with Some h => Some (deref h sigma) | None => None end.

Definition valid_opt (sigma : store) (h : option tref) : Prop :=
  match h with Some h => valid sigma h | None => True end.
(** ** Vocabulary of the further properties *)

(** The mean of the entries of an [F] by [F] matrix, as [mean(dim=-2)]
    followed by [mean(dim=-1)] computes it. *)
Definition matrix_mean (F : nat) (m : nat -> nat -> R) : R :=
  sum_upto F (fun j => sum_upto F (fun i => m i j) / INR F) / INR F.

(** What the three conditional blocks of [_enforce_covariance_type] make
    of the matrices [c k] of one batch element, when its three tests come
    out as [sph], [dg] and [td]. *)
Definition constrained (sph dg td : bool) (K F : nat)
    (c : nat -> nat -> nat -> R) (k i j : nat) : R :=
  let c1 := fun k i j =>
    if sph then (if (i =? j)%nat then matrix_mean F (c k) else 0)
    else c k i j in
  let c2 := fun k i j =>
    if dg then (if (i =? j)%nat then c1 k i j else 0) else c1 k i j in
  if td then sum_upto K (fun k' => c2 k' i j) / INR K else c2 k i j.

(** Properties of a (batch, components, features, features) covariance
    tensor, read on the entries within its shape. *)
Definition symmetric (B K F : nat) (c : tensor) : Prop :=
  forall b k i j, (b < B)%nat -> (k < K)%nat -> (i < F)%nat -> (j < F)%nat ->
    item c [b; k; i; j] = item c [b; k; j; i].

Definition diagonal (B K F : nat) (c : tensor) : Prop :=
  forall b k i j, (b < B)%nat -> (k < K)%nat -> (i < F)%nat -> (j < F)%nat ->
    i <> j -> item c [b; k; i; j] = 0.

Definition isotropic (B K F : nat) (c : tensor) : Prop :=
  forall b k i i', (b < B)%nat -> (k < K)%nat -> (i < F)%nat -> (i' < F)%nat ->
    item c [b; k; i; i] = item c [b; k; i'; i'].

Definition tied_across (B K F : nat) (c : tensor) : Prop :=
  forall b k k' i j, (b < B)%nat -> (k < K)%nat -> (k' < K)%nat ->
    (i < F)%nat -> (j < F)%nat ->
    item c [b; k; i; j] = item c [b; k'; i; j].

(** The log-density of a normal distribution over [F] features reads
    only the first [F] coordinates of the value and of the mean and the
    leading [F] by [F] block of the covariance. *)
Definition density_local
    (log_density : nat -> (nat -> R) -> (nat -> R) -> (nat -> nat -> R) -> R)
    : Prop :=
  forall F v v' l l' c c',
    (forall f, (f < F)%nat -> v f = v' f) ->
    (forall f, (f < F)%nat -> l f = l' f) ->
    (forall i j, (i < F)%nat -> (j < F)%nat -> c i j = c' i j) ->
    log_density F v l c = log_density F v' l' c'.

(** The variance a caller's initial covariance holds for feature [i] of
    component [k]: a (batch, components, features) tensor holds variances,
    a (batch, components, features, features) one matrices; without an
    initial covariance every variance is [covariance_init]. *)
Definition initial_variance (self : GaussianMixture) (cov : option tensor)
    (b k i : nat) : R :=
  match cov with
  | None => covariance_init self
  | Some c =>
    if (rank c <? 4)%nat then item c [b; k; i] else item c [b; k; i; i]
  end.

(** Every tensor object held in the loop state was allocated at or above
    cell [n]. *)
Definition fresh_locals (n : nat) (st : locals_ref) : Prop :=
  fresh_from n (lr_means st) /\ fresh_from n (lr_covariance st) /\
  match lr_body st with
  | Some (r, l, p) => fresh_from n r /\ fresh_from n l /\ fresh_from n p
  | None => False
  end.

(** Every tensor object of a returned dictionary was allocated at or
    above cell [n]. *)
Definition fresh_bundle (n : nat) (r : bundle_ref) : Prop :=
  fresh_from n (resp_ref r) /\ fresh_from n (log_prob_ref r) /\
  fresh_from n (means_ref r) /\ fresh_from n (covariance_ref r) /\
  fresh_from n (prior_ref r).

(** * Masks from a multichannel Wiener filter

    A shallow embedding of [nussl/separation/benchmark/wiener_filter.py].
    Arrays are the tensors above, with complex entries for spectrograms
    and boolean entries for binary masks.  What the class takes from
    outside is a parameter of the model: [AudioSignal.stft],
    [norbert.wiener], the base class [MaskSeparationBase] (its
    constructor and the attributes [audio_signal], [mask_type] and
    [MASKS] it keeps) and the mask classes; constructors from outside are
    taken to return.  The exceptions numpy raises on arrays of
    incompatible shapes are not modelled: statements carry the shapes as
    hypotheses.  The constructor's further keyword arguments, with which
    it does nothing, are not arguments of the model.  [run] also stores
    the list it returns in [self.result_masks]. *)

(** ** Complex and boolean arrays *)

Record ctensor : Type := mkC { cshape : list nat; citem : list nat -> R * R }.

Record btensor : Type := mkB { bshape : list nat; bitem : list nat -> bool }.

(** The modulus of a complex number. *)
Definition cabs (z : R * R) : R := sqrt (fst z * fst z + snd z * snd z).

(** [np.abs] of a complex array. *)
Definition np_abs (a : ctensor) : tensor :=
  mkT (cshape a) (fun idx => cabs (citem a idx)).

(** [np.transpose(a, axes)] of a complex array: axis [i] of the result is
    axis [axes[i]] of [a]. *)
Definition c_transpose (axes : list nat) (a : ctensor) : ctensor :=
  mkC (map (fun p => nth p (cshape a) O) axes)
      (fun idx => citem a (map (fun j => nth (index_of j axes) idx O)
                               (seq 0 (length axes)))).

(** [np.transpose(a, axes)] of a real array. *)
Definition np_transpose (axes : list nat) (a : tensor) : tensor :=
  permute axes a.

(** [a[..., None]]: a new last axis of length 1. *)
Definition c_newaxis (a : ctensor) : ctensor :=
  mkC (cshape a ++ [1%nat]) (fun idx => citem a (removelast idx)).

(** [np.maximum(a, b)], broadcasting. *)
Definition np_maximum : tensor -> tensor -> tensor := tmap2 Rmax.

(** [a[..., i]]. *)
Definition select_last (i : nat) (a : tensor) : tensor :=
  mkT (removelast (shape a)) (fun idx => item a (idx ++ [i])).

(** The largest of [f 0], ..., [f m]. *)
Fixpoint rmax_upto (m : nat) (f : nat -> R) : R :=
  match m with
  | O => f O
  | S m' => Rmax (rmax_upto m' f) (f m)
  end.

(** [np.max(a, axis=-1)] for a last axis that is not empty. *)
Definition np_max_last (a : tensor) : tensor :=
  mkT (removelast (shape a))
      (fun idx => rmax_upto (last (shape a) O - 1)
                            (fun i => item a (idx ++ [i]))).

(** [a == b], element by element, broadcasting. *)
Definition np_equal (a b : tensor) : btensor :=
  mkB (broadcast_shape (shape a) (shape b))
      (fun idx => if Req_dec_T (item a (bindex (shape a) idx))
                               (item b (bindex (shape b) idx))
                  then true else false).

(** What a mask is built from: a real array, or a boolean one. *)
Inductive ndarray : Type :=
| Floats (a : tensor)
| Bools (a : btensor).

Module WienerFilter.

(** Exceptions a call can end with. *)
Inductive exn : Type :=
| SeparationException   (* raised by the constructor *)
| ValueError.           (* raised by np.stack on an empty list *)

Inductive res (A : Type) : Type :=
| Return (a : A)
| Raise (e : exn).
Arguments Return {A} a.
Arguments Raise {A} e.

(** [np.stack(arrays, axis=-1)] of arrays of one shape: it needs at least
    one array. *)
Definition np_stack (arrays : list tensor) : res tensor :=
  match arrays with
  | [] => Raise ValueError
  | a :: _ =>
    Return (mkT (shape a ++ [length arrays])
                (fun idx => item (nth (last idx O) arrays dummy)
                                 (removelast idx)))
  end.

Section Model.

Variable AudioSignal : Type.
Variable stft : AudioSignal -> ctensor.
Variable wiener : tensor -> ctensor -> nat -> ctensor.
Variable mask_class : Type.
Variable class_eqb : mask_class -> mask_class -> bool.
Variable Mask : Type.
Variable new_mask : mask_class -> ndarray -> Mask.

(** The attributes of the base class that [run] reads. *)
Record MaskSeparationBase : Type := mkBase {
  audio_signal : AudioSignal;
  mask_type : mask_class;
  MASKS : String.string -> mask_class
}.

Variable super_init : AudioSignal -> String.string -> R -> MaskSeparationBase.

Record WienerFilter : Type := mkWienerFilter {
  estimates : list AudioSignal;
  iterations : nat;
  base : MaskSeparationBase
}.

(** The [estimates] argument as the constructor receives it: a list, or
    an object of another type. *)
Inductive pyobject : Type :=
| PyList (l : list AudioSignal)
| PyOther.

Definition __init__ (input_audio_signal : AudioSignal) (estimates : pyobject)
    (iterations : nat) (mask_type : String.string) (mask_threshold : R)
    : res WienerFilter :=
  match estimates with
  | PyOther => Raise SeparationException
  | PyList estimates =>
    Return {| estimates := estimates;
              iterations := iterations;
              base := super_init input_audio_signal mask_type
                                 mask_threshold |}
  end.

(** The body of the loop of [run], for the indices [iters] still to
    come. *)
Fixpoint for_masks (self : WienerFilter) (_masks : tensor)
    (iters : list nat) (result_masks : list Mask) : list Mask :=
  match iters with
  | [] => result_masks
  | i :: iters' =>
    let mask_data := Floats (select_last i _masks) in
    let mask_data :=
      if class_eqb (mask_type (base self)) (MASKS (base self) "binary")
      then Bools (np_equal (select_last i _masks) (np_max_last _masks))
      else mask_data in
    let mask := new_mask (mask_type (base self)) mask_data in
    for_masks self _masks iters' (result_masks ++ [mask])
  end.

Definition run (self : WienerFilter) : res (list Mask) :=
  match np_stack (map (fun e => np_abs (stft e)) (estimates self)) with
  | Raise e => Raise e
  | Return source_magnitudes =>
    let source_magnitudes :=
      np_transpose [1; 0; 2; 3]%nat source_magnitudes in
    let mix_magnitude :=
      c_transpose [1; 0; 2]%nat (stft (audio_signal (base self))) in
    let enhanced :=
      np_abs (wiener source_magnitudes mix_magnitude (iterations self)) in
    let _masks :=
      tdiv enhanced
           (np_maximum enhanced
              (tmap (fun x => x + 1e-7) (np_abs (c_newaxis mix_magnitude)))) in
    let _masks := np_transpose [1; 0; 2; 3]%nat _masks in
    Return (for_masks self _masks (range (last (shape _masks) O)) [])
  end.

End Model.

Arguments audio_signal {AudioSignal mask_class} _.
Arguments mask_type {AudioSignal mask_class} _.
Arguments MASKS {AudioSignal mask_class} _ _.
Arguments estimates {AudioSignal mask_class} _.
Arguments iterations {AudioSignal mask_class} _.
Arguments base {AudioSignal mask_class} _.
Arguments PyList {AudioSignal} l.
Arguments PyOther {AudioSignal}.
Arguments __init__ {AudioSignal mask_class} super_init _ _ _ _ _.
Arguments for_masks {AudioSignal mask_class} class_eqb {Mask} new_mask _ _ _ _.
Arguments run {AudioSignal} stft wiener {mask_class} class_eqb {Mask} new_mask _.

End WienerFilter.

(** ** Vocabulary of the statements about [WienerFilter] *)

Section WienerVocabulary.
Variable AudioSignal : Type.
Variable stft : AudioSignal -> ctensor.
Variable wiener : tensor -> ctensor -> nat -> ctensor.
Variable mask_class : Type.

(** The mixture's spectrogram, indexed (bin, frame, channel). *)
Definition mix_stft (self : WienerFilter.WienerFilter AudioSignal mask_class)
    : ctensor :=
  stft (WienerFilter.audio_signal (WienerFilter.base self)).

(** Lines 35 to 41 of the source: the magnitudes of what
    [norbert.wiener] returns for the estimates and the mixture of
    [self], indexed (frame, bin, channel, source). *)
Definition enhanced_of (self : WienerFilter.WienerFilter AudioSignal mask_class)
    : tensor :=
  match WienerFilter.np_stack
          (map (fun e => np_abs (stft e)) (WienerFilter.estimates self)) with
  | WienerFilter.Raise _ => dummy
  | WienerFilter.Return source_magnitudes =>
    np_abs (wiener (np_transpose [1; 0; 2; 3]%nat source_magnitudes)
                   (c_transpose [1; 0; 2]%nat (mix_stft self))
                   (WienerFilter.iterations self))
  end.

(** The soft mask value of source [i] at bin [f], frame [t] and channel
    [c]: the ratio of the filtered magnitude of the source to the
    magnitude of the mixture (plus [1e-7]), capped at 1. *)
Definition soft_value (self : WienerFilter.WienerFilter AudioSignal mask_class)
    (f t c i : nat) : R :=
  Rmin 1 (item (enhanced_of self) [t; f; c; i]
          / (cabs (citem (mix_stft self) [f; t; c]) + 1e-7)).

(** The contract of [norbert.wiener]: for source magnitudes of shape
    (frames, bins, channels, sources) and a mixture of shape (frames,
    bins, channels) the result has the shape of the source
    magnitudes. *)
Definition wiener_keeps_shape : Prop :=
  forall v x n, cshape (wiener v x n) = cshape x ++ [last (shape v) O].
End WienerVocabulary.

Arguments mix_stft {AudioSignal} stft {mask_class} self.
Arguments enhanced_of {AudioSignal} stft wiener {mask_class} self.
Arguments soft_value {AudioSignal} stft wiener {mask_class} self f t c i.

(** * Properties *)

(** ** Finite sums *)

Lemma sum_upto_ext n f g :
  (forall i, (i < n)%nat -> f i = g i) -> sum_upto n f = sum_upto n g.
Proof.
  induction n as [|n IH]; intros H; cbn; [reflexivity|].
  rewrite IH by (intros; apply H; lia). rewrite H by lia. reflexivity.
Qed.

Lemma sum_upto_const n c : sum_upto n (fun _ => c) = INR n * c.
Proof.
  induction n as [|n IH]; [cbn; lra|].
  rewrite S_INR. cbn [sum_upto]. rewrite IH. lra.
Qed.

Lemma sum_upto_plus n f g :
  sum_upto n (fun i => f i + g i) = sum_upto n f + sum_upto n g.
Proof. induction n as [|n IH]; cbn; [lra | rewrite IH; lra]. Qed.

Lemma sum_upto_scal_r n f c :
  sum_upto n (fun i => f i * c) = sum_upto n f * c.
Proof. induction n as [|n IH]; cbn; [lra | rewrite IH; lra]. Qed.

Lemma sum_upto_div n f c :
  sum_upto n (fun i => f i / c) = sum_upto n f / c.
Proof. unfold Rdiv. apply sum_upto_scal_r. Qed.

Lemma sum_upto_le n f g :
  (forall i, (i < n)%nat -> f i <= g i) -> sum_upto n f <= sum_upto n g.
Proof.
  induction n as [|n IH]; intros H; cbn; [lra|].
  specialize (IH (fun i Hi => H i (Nat.lt_lt_succ_r _ _ Hi))).
  specialize (H n (Nat.lt_succ_diag_r n)). lra.
Qed.

Lemma sum_upto_ge_const n f c :
  (forall i, (i < n)%nat -> c <= f i) -> INR n * c <= sum_upto n f.
Proof.
  intros H. rewrite <- sum_upto_const. now apply sum_upto_le.
Qed.

Lemma sum_upto_exchange n m (f : nat -> nat -> R) :
  sum_upto n (fun i => sum_upto m (fun j => f i j))
  = sum_upto m (fun j => sum_upto n (fun i => f i j)).
Proof.
  induction n as [|n IH]; cbn.
  - induction m as [|m IHm]; cbn; [reflexivity | rewrite <- IHm; lra].
  - rewrite IH, <- sum_upto_plus. reflexivity.
Qed.

Lemma INR_pos n : (0 < n)%nat -> 0 < INR n.
Proof. intros H. apply lt_0_INR. exact H. Qed.

(** ** Broadcasting along one dimension *)

Lemma bcast_pos_lt d i : (i < d)%nat -> bcast_pos d i = i.
Proof.
  unfold bcast_pos. destruct (Nat.eqb_spec d 1); [lia | reflexivity].
Qed.

Lemma bcast_dim_same d : bcast_dim d d = d.
Proof. unfold bcast_dim. now destruct (d =? 1)%nat. Qed.

Lemma bcast_dim_1_r d : bcast_dim d 1 = d.
Proof. unfold bcast_dim. now destruct (Nat.eqb_spec d 1). Qed.

(** ** Row-major addressing *)

Lemma numel_cons d s : numel (d :: s) = (d * numel s)%nat.
Proof. reflexivity. Qed.

Lemma ravel_lt s : forall idx, in_range idx s -> (ravel s idx < numel s)%nat.
Proof.
  induction s as [|d s IH]; intros [|i idx]; cbn [in_range ravel];
    try tauto; [cbn; lia|].
  rewrite numel_cons. intros [Hi H]. specialize (IH _ H).
  pose proof (Nat.mul_le_mono_r (S i) d (numel s) Hi). lia.
Qed.

Lemma unravel_ravel s : forall idx,
  in_range idx s -> unravel s (ravel s idx) = idx.
Proof.
  induction s as [|d s IH]; intros [|i idx]; cbn [in_range ravel unravel];
    try tauto.
  intros [Hi H]. pose proof (ravel_lt _ _ H) as Hlt.
  assert (Hq : ((i * numel s + ravel s idx) / numel s = i)%nat).
  { rewrite Nat.div_add_l by lia. rewrite Nat.div_small by lia. lia. }
  assert (Hm : ((i * numel s + ravel s idx) mod numel s = ravel s idx)%nat).
  { rewrite Nat.add_comm, Nat.Div0.mod_add. now apply Nat.mod_small. }
  rewrite Hq, Hm, IH by assumption. reflexivity.
Qed.

Lemma unravel_in_range s : forall n,
  (n < numel s)%nat -> in_range (unravel s n) s.
Proof.
  induction s as [|d s IH]; intros n Hn; cbn [in_range unravel]; [exact I|].
  rewrite numel_cons in Hn.
  assert (0 < numel s)%nat by (destruct (numel s); lia).
  split.
  - apply Nat.Div0.div_lt_upper_bound. lia.
  - apply IH. apply Nat.mod_upper_bound. lia.
Qed.

(** Reading a view: the element at [idx] is the element of the base
    tensor with the same row-major offset. *)
Lemma unravel_ravel_eq s s' idx idx' :
  ravel s idx = ravel s' idx' -> in_range idx' s' ->
  unravel s' (ravel s idx) = idx'.
Proof. intros -> H. now apply unravel_ravel. Qed.

(** ** Controlled evaluation of tensor expressions *)

#[local] Arguments bcast_pos : simpl never.
#[local] Arguments bcast_dim : simpl never.
#[local] Arguments Rmax : simpl never.
#[local] Arguments Rabs : simpl never.
#[local] Arguments ravel : simpl never.
#[local] Arguments unravel : simpl never.
#[local] Arguments numel : simpl never.

Lemma prob_eps_pos : 0 < prob_eps.
Proof. unfold prob_eps. lra. Qed.

Lemma normalize_eps_lt : normalize_eps < prob_eps.
Proof. unfold prob_eps, normalize_eps. lra. Qed.

Lemma normalize_L1_item B S K p b s k :
  (b < B)%nat -> (s < S)%nat -> (k < K)%nat ->
  item (normalize_L1 (mkT [B; S; K] p)) [b; s; k]
  = p [b; s; k]
    / Rmax (sum_upto K (fun j => Rabs (p [b; s; j]))) normalize_eps.
Proof.
  intros Hb Hs Hk. cbn. rewrite !bcast_pos_lt by assumption. reflexivity.
Qed.

Lemma normalize_L1_shape B S K p :
  shape (normalize_L1 (mkT [B; S; K] p)) = [B; S; K].
Proof. cbn. now rewrite !bcast_dim_same. Qed.

Lemma bcast_dim_1_l d : bcast_dim 1 d = d.
Proof. reflexivity. Qed.

Lemma bcast_pos_1 i : bcast_pos 1 i = O.
Proof. reflexivity. Qed.

Create Rewrite HintDb bcast.
#[local] Hint Rewrite bcast_dim_same bcast_dim_1_l bcast_dim_1_r bcast_pos_1 : bcast.

Ltac bsimpl :=
  autorewrite with bcast;
  repeat match goal with
         | |- context [bcast_pos ?d ?i] =>
           rewrite (bcast_pos_lt d i) by (assumption || lia)
         end.

Section EStep.
Variable torch_exp : R -> R.
Variable log_density :
  nat -> (nat -> R) -> (nat -> R) -> (nat -> nat -> R) -> R.
Variable mvn_valid : tensor -> tensor -> bool.
Hypothesis torch_exp_nonneg : forall x, 0 <= torch_exp x.

Lemma e_step_cases self X means cov B S F K :
  shape X = [B; S; F] -> shape means = [B; K; F] ->
  shape cov = [B; K; F; F] ->
  exists lp prob,
    shape lp = [B; S; K] /\ floored B S K prob /\
    _e_step torch_exp log_density mvn_valid self X means cov
    = if mvn_valid
           (view [Some B; Some 1%nat; Some K; Some F] means)
           (view [Some B; Some 1%nat; Some K; Some F; Some F] cov)
      then Return (normalize_L1 prob, lp)
      else Raise ValueError.
Proof.
  intros HX Hm Hc. unfold _e_step.
  rewrite HX, Hm. cbn [nth]. cbv zeta.
  eexists; eexists; split; [|split; [|reflexivity]].
  - destruct X as [sx x], means as [sm m], cov as [sc c];
      cbn in HX, Hm, Hc; subst. cbn. now bsimpl.
  - destruct X as [sx x], means as [sm m], cov as [sc c];
      cbn in HX, Hm, Hc; subst. split.
    + cbn. now bsimpl.
    + intros b s k Hb Hs Hk. cbn [item tmap].
      match goal with
      | |- _ <= torch_exp ?a + _ => pose proof (torch_exp_nonneg a)
      end.
      lra.
Qed.

Lemma normalize_floored_den K (p : list nat -> R) (b s : nat) :
  (0 < K)%nat ->
  (forall k, (k < K)%nat -> prob_eps <= p [b; s; k]) ->
  Rmax (sum_upto K (fun j => Rabs (p [b; s; j]))) normalize_eps
  = sum_upto K (fun j => p [b; s; j])
  /\ prob_eps <= sum_upto K (fun j => p [b; s; j]).
Proof.
  intros HK Hp. pose proof prob_eps_pos as He.
  rewrite (sum_upto_ext K (fun j => Rabs (p [b; s; j])) (fun j => p [b; s; j])).
  2:{ intros j Hj. apply Rabs_pos_eq. specialize (Hp j Hj). lra. }
  assert (Hsum : prob_eps <= sum_upto K (fun j => p [b; s; j])).
  { pose proof (sum_upto_ge_const K _ prob_eps Hp) as H.
    assert (1 <= INR K) by (apply (le_INR 1); lia). nra. }
  split; [|exact Hsum].
  apply Rmax_left. pose proof normalize_eps_lt. lra.
Qed.

Lemma normalize_L1_sums_to_one B S K prob b s :
  floored B S K prob -> (0 < K)%nat -> (b < B)%nat -> (s < S)%nat ->
  sum_upto K (fun k => item (normalize_L1 prob) [b; s; k]) = 1.
Proof.
  intros [Hsh Hp] HK Hb Hs. destruct prob as [sh p]; cbn in Hsh, Hp; subst sh.
  destruct (normalize_floored_den K p b s HK) as [Hden Hge];
    [intros; now apply Hp|].
  rewrite (sum_upto_ext K _ (fun k => p [b; s; k] / sum_upto K (fun j => p [b; s; j]))).
  2:{ intros k Hk. rewrite normalize_L1_item by assumption. now rewrite Hden. }
  rewrite sum_upto_div. apply Rdiv_diag. pose proof prob_eps_pos. lra.
Qed.
End EStep.

Ltac view_tac :=
  cbn [view item shape infer_sizes map]; f_equal;
  apply unravel_ravel_eq;
  [ unfold ravel, numel; cbn [fold_right]; ring
  | cbn [in_range]; repeat split; (assumption || lia) ].

Lemma view_BSK1 B S K r b s k :
  (b < B)%nat -> (s < S)%nat -> (k < K)%nat ->
  item (view [Some B; Some S; Some K; Some 1%nat] (mkT [B; S; K] r)) [b; s; k; 0%nat]
  = r [b; s; k].
Proof. intros. view_tac. Qed.

Lemma view_BS1F B S F x b s f :
  (b < B)%nat -> (s < S)%nat -> (f < F)%nat ->
  item (view [Some B; Some S; Some 1%nat; Some F] (mkT [B; S; F] x)) [b; s; 0%nat; f]
  = x [b; s; f].
Proof. intros. view_tac. Qed.

Section MStep.
Variable self : GaussianMixture.

Lemma m_step_spec X resp B S F K :
  shape X = [B; S; F] -> shape resp = [B; S; K] ->
  exists means clamped prior,
    _m_step self X resp
    = (means, _enforce_covariance_type self clamped, prior) /\
    shape means = [B; K; F] /\
    (forall b k f, (b < B)%nat -> (k < K)%nat -> (f < F)%nat ->
       item means [b; k; f]
       = sum_upto S (fun s => item resp [b; s; k] * item X [b; s; f])
         / sum_upto S (fun s => item resp [b; s; k])) /\
    shape prior = [B; 1%nat; K; 1%nat] /\
    (forall b k, (b < B)%nat -> (k < K)%nat ->
       item prior [b; 0%nat; k; 0%nat]
       = sum_upto S (fun s => item resp [b; s; k])) /\
    shape clamped = [B; K; F; F] /\
    (forall b k i j, (b < B)%nat -> (k < K)%nat -> (i < F)%nat -> (j < F)%nat ->
       reg_covar self <= item clamped [b; k; i; j]).
Proof.
  intros HX Hr. destruct X as [sx x], resp as [sr r]; cbn in HX, Hr; subst.
  unfold _m_step. cbn [shape nth]. cbv zeta.
  set (r4 := view [Some B; Some S; Some K; Some 1%nat] (mkT [B; S; K] r)).
  set (x4 := view [Some B; Some S; Some 1%nat; Some F] (mkT [B; S; F] x)).
  assert (Hr4 : shape r4 = [B; S; K; 1%nat] /\
                forall b s k, (b < B)%nat -> (s < S)%nat -> (k < K)%nat ->
                              item r4 [b; s; k; 0%nat] = r [b; s; k]).
  { split; [reflexivity|]. intros. now apply view_BSK1. }
  assert (Hx4 : shape x4 = [B; S; 1%nat; F] /\
                forall b s f, (b < B)%nat -> (s < S)%nat -> (f < F)%nat ->
                              item x4 [b; s; 0%nat; f] = x [b; s; f]).
  { split; [reflexivity|]. intros. now apply view_BS1F. }
  clearbody r4 x4. destruct r4 as [s4 r4], x4 as [sx4 x4].
  cbn [shape item] in Hr4, Hx4. destruct Hr4 as [-> Hr4], Hx4 as [-> Hx4].
  set (bottom := sum_keepdims 1 (mkT [B; S; K; 1%nat] r4)).
  set (top := sum_keepdims 1 (tmul _ _)).
  assert (Hbot : shape bottom = [B; 1%nat; K; 1%nat] /\
                 forall b k, (b < B)%nat -> (k < K)%nat ->
                   item bottom [b; 0%nat; k; 0%nat]
                   = sum_upto S (fun s => r [b; s; k])).
  { split; [reflexivity|]. intros b k Hb Hk. cbn.
    apply sum_upto_ext. intros s Hs. now apply Hr4. }
  assert (Htop : shape top = [B; 1%nat; K; F] /\
                 forall b k f, (b < B)%nat -> (k < K)%nat -> (f < F)%nat ->
                   item top [b; 0%nat; k; f]
                   = sum_upto S (fun s => r [b; s; k] * x [b; s; f])).
  { split; [cbn; now bsimpl|]. intros b k f Hb Hk Hf. cbn.
    autorewrite with bcast.
    apply sum_upto_ext. intros s Hs. bsimpl.
    now rewrite Hr4, Hx4. }
  clearbody bottom top.
  destruct bottom as [sb bottom], top as [st top].
  cbn [shape item] in Hbot, Htop.
  destruct Hbot as [-> Hbot], Htop as [-> Htop].
  set (mu := tdiv _ _).
  assert (Hmu : shape mu = [B; 1%nat; K; F] /\
                forall b k f, (b < B)%nat -> (k < K)%nat -> (f < F)%nat ->
                  item mu [b; 0%nat; k; f]
                  = sum_upto S (fun s => r [b; s; k] * x [b; s; f])
                    / sum_upto S (fun s => r [b; s; k])).
  { split; [cbn; now bsimpl|]. intros b k f Hb Hk Hf. cbn. bsimpl.
    now rewrite Htop, Hbot. }
  clearbody mu. destruct mu as [smu mu]. cbn [shape item] in Hmu.
  destruct Hmu as [-> Hmu].
  set (diff := tmul (tsub _ _) _).
  assert (Hdiff : shape diff = [B; S; K; F]). { cbn. now bsimpl. }
  clearbody diff. destruct diff as [sd diff]. cbn [shape] in Hdiff. subst sd.
  set (cv := tdiv (unsqueeze 1 _) _).
  assert (Hcv : shape cv = [B; 1%nat; K; F; F]). { cbn. now bsimpl. }
  clearbody cv. destruct cv as [scv cv]. cbn [shape] in Hcv. subst scv.
  do 3 eexists. split; [reflexivity|].
  cbn [shape item squeeze clamp_min tmap norm_dim nat_of_pos nth Nat.eqb
       remove_at insert_at firstn skipn app rank length].
  repeat split.
  - intros b k f Hb Hk Hf. now apply Hmu.
  - intros b k Hb Hk. now apply Hbot.
  - intros b k i j _ _ _ _. apply Rmax_r.
Qed.
End MStep.

Lemma diag_mask_item F i j :
  (i < F)%nat -> (j < F)%nat ->
  item (reshape [Some 1%nat; Some 1%nat; Some F; Some F] (eye F))
       [0%nat; 0%nat; i; j]
  = if (i =? j)%nat then 1 else 0.
Proof.
  intros Hi Hj. unfold reshape.
  cbn [view item shape infer_sizes map eye].
  rewrite (unravel_ravel_eq _ _ _ [i; j]); [reflexivity | |].
  - unfold ravel, numel; cbn [fold_right]; ring.
  - cbn [in_range]. auto.
Qed.

Lemma diag_mask_spec F :
  exists m,
    reshape [Some 1%nat; Some 1%nat; Some F; Some F] (eye F)
    = mkT [1%nat; 1%nat; F; F] m /\
    forall i j, (i < F)%nat -> (j < F)%nat ->
      m [0%nat; 0%nat; i; j] = if (i =? j)%nat then 1 else 0.
Proof.
  eexists. split; [reflexivity|]. intros i j Hi Hj.
  now apply diag_mask_item.
Qed.

Ltac abstract_mask F m Hm :=
  let E := fresh "E" in
  destruct (diag_mask_spec F) as (m & E & Hm); rewrite E in *; clear E.

Section Enforce.
Variable self : GaussianMixture.
Variables B K F : nat.
Variable cov : tensor.
Hypothesis Hshape : shape cov = [B; K; F; F].

Lemma enforce_full :
  dispatch (covariance_type self) = (false, false, false) ->
  _enforce_covariance_type self cov = cov.
Proof.
  unfold dispatch, _enforce_covariance_type. intros H.
  injection H as -> -> ->. reflexivity.
Qed.

Lemma enforce_diag :
  dispatch (covariance_type self) = (false, true, false) ->
  shape (_enforce_covariance_type self cov) = [B; K; F; F] /\
  forall b k i j, (b < B)%nat -> (k < K)%nat -> (i < F)%nat -> (j < F)%nat ->
    item (_enforce_covariance_type self cov) [b; k; i; j]
    = if (i =? j)%nat then item cov [b; k; i; j] else 0.
Proof.
  unfold dispatch, _enforce_covariance_type. intros H.
  injection H as -> -> ->. cbv zeta.
  destruct cov as [sc c]. cbn [shape] in Hshape. subst sc.
  cbn [shape last]. abstract_mask F m Hm.
  split; [cbn; now bsimpl|].
  intros b k i j Hb Hk Hi Hj.
  cbn. bsimpl. rewrite Hm by assumption.
  destruct (i =? j)%nat; lra.
Qed.

Lemma enforce_spherical :
  dispatch (covariance_type self) = (true, false, false) ->
  shape (_enforce_covariance_type self cov) = [B; K; F; F] /\
  forall b k i j, (b < B)%nat -> (k < K)%nat -> (i < F)%nat -> (j < F)%nat ->
    item (_enforce_covariance_type self cov) [b; k; i; j]
    = if (i =? j)%nat
      then sum_upto F (fun j' =>
             sum_upto F (fun i' => item cov [b; k; i'; j']) / INR F)
           / INR F
      else 0.
Proof.
  unfold dispatch, _enforce_covariance_type. intros H.
  injection H as -> -> ->. cbv zeta.
  destruct cov as [sc c]. cbn [shape] in Hshape. subst sc.
  cbn [shape last]. abstract_mask F m Hm.
  split; [cbn; now bsimpl|].
  intros b k i j Hb Hk Hi Hj.
  cbn. bsimpl. rewrite Hm by assumption.
  destruct (i =? j)%nat; lra.
Qed.

Lemma enforce_tied :
  dispatch (covariance_type self) = (false, false, true) ->
  shape (_enforce_covariance_type self cov) = [B; K; F; F] /\
  forall b k i j, (b < B)%nat -> (k < K)%nat -> (i < F)%nat -> (j < F)%nat ->
    item (_enforce_covariance_type self cov) [b; k; i; j]
    = sum_upto K (fun k' => item cov [b; k'; i; j]) / INR K.
Proof.
  unfold dispatch, _enforce_covariance_type. intros H.
  injection H as -> -> ->. cbv zeta.
  destruct cov as [sc c]. cbn [shape] in Hshape. subst sc.
  split; [reflexivity|].
  intros b k i j Hb Hk Hi Hj.
  cbn. bsimpl. reflexivity.
Qed.
End Enforce.

(** ** Shapes through initialisation *)

Lemma numel_app s1 s2 : numel (s1 ++ s2) = (numel s1 * numel s2)%nat.
Proof.
  induction s1 as [|d s1 IH]; [unfold numel; cbn; lia|].
  rewrite <- app_comm_cons, !numel_cons, IH. ring.
Qed.

Lemma numel_1 d : numel [d] = d.
Proof. unfold numel; cbn. lia. Qed.

Lemma last_app_1 (s : list nat) d : last (s ++ [d]) O = d.
Proof. apply last_last. Qed.

Lemma flatten_samples_shape data B mid F :
  shape data = B :: mid ++ [F] -> (0 < B)%nat -> (0 < F)%nat ->
  shape (flatten_samples data) = [B; numel mid; F].
Proof.
  intros H HB HF. unfold flatten_samples. rewrite H.
  change (last (B :: mid ++ [F]) O) with (last ((B :: mid) ++ [F]) O).
  rewrite last_app_1.
  cbn [view shape infer_sizes map hd known_numel fold_right].
  rewrite H, numel_cons, numel_app, numel_1.
  replace (B * (numel mid * F))%nat with (numel mid * (B * (F * 1)))%nat by ring.
  rewrite Nat.div_mul by lia. reflexivity.
Qed.

Section Shapes.
Variable torch_exp : R -> R.
Variable log_density :
  nat -> (nat -> R) -> (nat -> R) -> (nat -> nat -> R) -> R.
Variable mvn_valid : tensor -> tensor -> bool.
Variable rng : list nat -> R.
Variable self : GaussianMixture.

Lemma enforce_shape cov B K F :
  shape cov = [B; K; F; F] ->
  shape (_enforce_covariance_type self cov) = [B; K; F; F].
Proof.
  intros H. destruct cov as [sc c]; cbn [shape] in H; subst sc.
  unfold _enforce_covariance_type. cbv zeta. cbn [shape last].
  abstract_mask F m Hm.
  destruct (contains "spherical" _), (contains "diag" _),
    (contains "tied" _); cbn; now bsimpl.
Qed.

Lemma init_params_shapes X means cov B S K F :
  shape X = [B; S; F] -> (0 < B)%nat -> (0 < K)%nat ->
  params_match self B K F means cov ->
  shape (fst (init_params rng self X means cov)) = [B; K; F] /\
  shape (snd (init_params rng self X means cov)) = [B; K; F; F].
Proof.
  intros HX HB HK [Hm Hc]. destruct X as [sx x]; cbn [shape] in HX; subst sx.
  unfold init_params. cbv zeta. cbn [fst snd shape nth last]. split.
  - destruct means as [m|]; [exact Hm|]. subst K.
    cbn [view shape infer_sizes map long tmap iadd setitem_all last
         index_select0 nth tl known_numel fold_right].
    unfold numel; cbn [fold_right].
    rewrite !Nat.mul_1_r, !Nat.div_1_r.
    rewrite Nat.mul_comm, Nat.div_mul by lia. reflexivity.
  - apply enforce_shape.
    destruct cov as [c|].
    + destruct Hc as [Hc|Hc].
      * unfold rank. rewrite Hc. cbn [length Nat.ltb Nat.leb].
        destruct c as [sc c]; cbn [shape] in Hc; subst sc.
        cbn [shape last].
        abstract_mask F m Hmask. cbn. now bsimpl.
      * unfold rank. rewrite Hc. cbn [length Nat.ltb Nat.leb].
        destruct c as [sc c]; cbn [shape] in Hc; subst sc.
        cbn [expand unsqueeze shape rank length norm_dim nat_of_pos
             Nat.sub insert_at firstn skipn app repeat combine map fst snd
             last].
        abstract_mask F m Hmask. cbn. now bsimpl.
    + subst K. unfold rank, new_fill. cbn [shape length Nat.ltb Nat.leb].
      cbn [expand unsqueeze shape rank length norm_dim nat_of_pos
           Nat.sub insert_at firstn skipn app repeat combine map fst snd
           last].
      abstract_mask F m Hmask. cbn. now bsimpl.
Qed.
End Shapes.

(** ** The loop of [forward] *)

Section Loop.
Variable torch_exp : R -> R.
Variable log_density :
  nat -> (nat -> R) -> (nat -> R) -> (nat -> nat -> R) -> R.
Variable mvn_valid : tensor -> tensor -> bool.
Variable rng : list nat -> R.
Hypothesis torch_exp_nonneg : forall x, 0 <= torch_exp x.

Variable self : GaussianMixture.
Variable X : tensor.
Variables B S K F : nat.
Hypothesis HX : shape X = [B; S; F].

Local Abbreviation e_step := (_e_step torch_exp log_density mvn_valid self).
Local Abbreviation body := (em_body torch_exp log_density mvn_valid self X).
Local Abbreviation loop := (for_each torch_exp log_density mvn_valid self X).

Local Abbreviation params_shaped := (params_shaped B K F).
Local Abbreviation e_step_output :=
  (e_step_output torch_exp log_density mvn_valid self X B S K).

Lemma m_step_shapes resp :
  shape resp = [B; S; K] ->
  shape (fst (fst (_m_step self X resp))) = [B; K; F] /\
  shape (snd (fst (_m_step self X resp))) = [B; K; F; F].
Proof.
  intros Hr.
  destruct (m_step_spec self X resp B S F K HX Hr)
    as (m & c & p & E & Hm & _ & _ & _ & Hc & _).
  rewrite E. cbn [fst snd]. split; [exact Hm|].
  now apply enforce_shape.
Qed.

Lemma normalize_floored_shape prob :
  floored B S K prob -> shape (normalize_L1 prob) = [B; S; K].
Proof.
  intros [Hs _]. destruct prob as [sp p]; cbn [shape] in Hs; subst sp.
  apply normalize_L1_shape.
Qed.

Lemma em_body_inv st st' :
  params_shaped st -> body st = Return st' ->
  params_shaped st' /\
  exists resp lp,
    e_step_output st resp lp /\
    st' = mkLocals (fst (fst (_m_step self X resp)))
                   (snd (fst (_m_step self X resp)))
                   (Some (resp, lp, snd (_m_step self X resp))).
Proof.
  intros [Hm Hc] Hb. unfold em_body in Hb.
  destruct (e_step_cases torch_exp log_density mvn_valid torch_exp_nonneg
              self X _ _ B S F K HX Hm Hc) as (lp & prob & Hlp & Hfl & E).
  rewrite E in Hb.
  destruct (mvn_valid _ _) eqn:Hv; [|discriminate].
  cbn [res_bind] in Hb.
  destruct (_m_step self X (normalize_L1 prob)) as [[m c] p] eqn:Em.
  injection Hb as <-.
  pose proof (m_step_shapes _ (normalize_floored_shape _ Hfl)) as Hsh.
  rewrite Em in Hsh. cbn [fst snd] in Hsh.
  split; [exact Hsh|].
  exists (normalize_L1 prob), lp. rewrite Em. cbn [fst snd].
  split; [|reflexivity].
  split; [exact E|]. split; [exact Hlp|]. now exists prob.
Qed.

Lemma em_body_returns st :
  (forall l c, mvn_valid l c = true) -> params_shaped st ->
  exists st', body st = Return st'.
Proof.
  intros Hv [Hm Hc]. unfold em_body.
  destruct (e_step_cases torch_exp log_density mvn_valid torch_exp_nonneg
              self X _ _ B S F K HX Hm Hc) as (lp & prob & _ & _ & E).
  rewrite E, Hv. cbn [res_bind].
  destruct (_m_step self X (normalize_L1 prob)) as [[m c] p].
  eexists. reflexivity.
Qed.

Lemma for_each_app l1 l2 st :
  loop (l1 ++ l2) st = res_bind (loop l1 st) (loop l2).
Proof.
  revert st. induction l1 as [|i l1 IH]; intros st; [reflexivity|].
  cbn [app for_each]. destruct (body st) as [st1|e]; cbn [res_bind];
    [apply IH | reflexivity].
Qed.

(** [range (n+1)] runs [range n] and then the body once more. *)
Lemma for_each_range_S n st :
  loop (range (Datatypes.S n)) st = res_bind (loop (range n) st) body.
Proof.
  unfold range. rewrite seq_S, for_each_app. cbn [Nat.add].
  destruct (for_each _ _ _ _ _ (seq 0 n) st) as [st1|e];
    cbn [res_bind for_each]; [|reflexivity].
  now destruct (body st1).
Qed.

Lemma for_each_inv n : forall st st',
  params_shaped st -> loop (range n) st = Return st' -> params_shaped st'.
Proof.
  induction n as [|n IH]; intros st st' Hst Hl.
  - cbn in Hl. now injection Hl as <-.
  - rewrite for_each_range_S in Hl.
    destruct (for_each _ _ _ _ _ (range n) st) as [st1|e] eqn:E;
      [|discriminate].
    cbn [res_bind] in Hl.
    now apply (em_body_inv st1 st' (IH _ _ Hst E)).
Qed.

Lemma for_each_returns n : forall st,
  (forall l c, mvn_valid l c = true) -> params_shaped st ->
  exists st', loop (range n) st = Return st'.
Proof.
  induction n as [|n IH]; intros st Hv Hst.
  - exists st. reflexivity.
  - destruct (IH st Hv Hst) as [st1 E].
    rewrite for_each_range_S, E. cbn [res_bind].
    apply em_body_returns; [exact Hv|].
    now apply (for_each_inv n st).
Qed.

End Loop.

(** ** [forward] as a whole *)

Section Forward.
Variable torch_exp : R -> R.
Variable log_density :
  nat -> (nat -> R) -> (nat -> R) -> (nat -> nat -> R) -> R.
Variable mvn_valid : tensor -> tensor -> bool.
Variable rng : list nat -> R.
Hypothesis torch_exp_nonneg : forall x, 0 <= torch_exp x.

Variable self : GaussianMixture.
Variable data : tensor.
Variables (B : nat) (mid : list nat) (K F : nat).
Variables means cov : option tensor.
Hypothesis Hdata : shape data = B :: mid ++ [F].
Hypothesis HB : (0 < B)%nat.
Hypothesis HF : (0 < F)%nat.
Hypothesis HK : (0 < K)%nat.
Hypothesis Hparams : params_match self B K F means cov.

Local Abbreviation X := (flatten_samples data).
Local Abbreviation N := (numel mid).
Local Abbreviation loop := (for_each torch_exp log_density mvn_valid self X).
Local Abbreviation sizes := (map Some (removelast (shape data)) ++ [None]).
Local Abbreviation start :=
  (mkLocals (fst (init_params rng self X means cov))
            (snd (init_params rng self X means cov)) None).

Lemma start_shaped : params_shaped B K F start.
Proof.
  pose proof (flatten_samples_shape data B mid F Hdata HB HF) as HX.
  exact (init_params_shapes rng self X means cov B N K F HX HB HK Hparams).
Qed.

Lemma forward_unfold :
  forward torch_exp log_density mvn_valid rng self data means cov
  = res_bind (loop (range (n_iter self)) start) (assemble (shape data)).
Proof.
  unfold forward. cbv zeta.
  change (view _ data) with X.
  now destruct (init_params rng self X means cov) as [m0 c0].
Qed.

(** Whenever [forward] returns, its loop ran at least once, and the
    bundle is assembled from the last E-step and the M-step that
    followed it. *)
Lemma forward_inv r :
  forward torch_exp log_density mvn_valid rng self data means cov = Return r ->
  exists n st resp_ lp_,
    n_iter self = Datatypes.S n /\
    loop (range n) start = Return st /\
    params_shaped B K F st /\
    e_step_output torch_exp log_density mvn_valid self X B N K st resp_ lp_ /\
    r = mkBundle (view sizes resp_) (view sizes lp_)
                 (fst (fst (_m_step self X resp_)))
                 (snd (fst (_m_step self X resp_)))
                 (snd (_m_step self X resp_)).
Proof.
  pose proof (flatten_samples_shape data B mid F Hdata HB HF) as HX.
  rewrite forward_unfold. intros H.
  destruct (n_iter self) as [|n] eqn:En; [discriminate|].
  exists n. rewrite for_each_range_S in H.
  destruct (loop (range n) start) as [st|e] eqn:El; [|discriminate].
  cbn [res_bind] in H.
  pose proof (for_each_inv torch_exp log_density mvn_valid torch_exp_nonneg
                self X B N K F HX n _ _ start_shaped El) as Hst.
  destruct (em_body _ _ _ self X st) as [st'|e] eqn:Eb; [|discriminate].
  cbn [res_bind] in H.
  destruct (em_body_inv torch_exp log_density mvn_valid torch_exp_nonneg
              self X B N K F HX st st' Hst Eb)
    as (_ & resp_ & lp_ & Hout & ->).
  unfold assemble in H.
  cbn [l_body l_means l_covariance] in H. injection H as <-.
  exists st, resp_, lp_.
  split; [reflexivity|]. split; [reflexivity|]. split; [exact Hst|].
  split; [exact Hout|reflexivity].
Qed.

Lemma forward_returns :
  (1 <= n_iter self)%nat -> (forall l c, mvn_valid l c = true) ->
  exists r,
    forward torch_exp log_density mvn_valid rng self data means cov = Return r.
Proof.
  pose proof (flatten_samples_shape data B mid F Hdata HB HF) as HX.
  intros Hn Hv. rewrite forward_unfold.
  destruct (n_iter self) as [|n]; [lia|].
  destruct (for_each_returns torch_exp log_density mvn_valid torch_exp_nonneg
              self X B N K F HX n start Hv start_shaped) as [st El].
  rewrite for_each_range_S, El. cbn [res_bind].
  pose proof (for_each_inv torch_exp log_density mvn_valid torch_exp_nonneg
                self X B N K F HX n _ _ start_shaped El) as Hst.
  destruct (em_body_returns torch_exp log_density mvn_valid torch_exp_nonneg
              self X B N K F HX st Hv Hst) as [st' Eb].
  rewrite Eb. cbn [res_bind].
  destruct (em_body_inv torch_exp log_density mvn_valid torch_exp_nonneg
              self X B N K F HX st st' Hst Eb)
    as (_ & resp_ & lp_ & _ & ->).
  unfold assemble. cbn [l_body]. eexists. reflexivity.
Qed.
End Forward.

(** ** The E-step *)

Section EStepClaims.
Variable torch_exp : R -> R.
Variable log_density :
  nat -> (nat -> R) -> (nat -> R) -> (nat -> nat -> R) -> R.
Variable mvn_valid : tensor -> tensor -> bool.
Hypothesis torch_exp_nonneg : forall x, 0 <= torch_exp x.

(** C4.  For data, means and covariance of matching shapes and at least
    one component, the E-step raises only when torch's validation of the
    covariance fails, and otherwise returns responsibilities of shape
    (batch, samples, components) that sum to exactly 1 over the component
    axis for every (batch, sample) pair.  [torch_exp] is any function with
    non-negative values, so the statement covers an exponential that
    underflows to zero on every component: the added [prob_eps] keeps the
    L1 norm above the floor of [normalize]. *)
Theorem e_step_resp_sums_to_one self X means cov B S F K :
  shape X = [B; S; F] -> shape means = [B; K; F] ->
  shape cov = [B; K; F; F] -> (0 < K)%nat ->
  (mvn_valid (view [Some B; Some 1%nat; Some K; Some F] means)
             (view [Some B; Some 1%nat; Some K; Some F; Some F] cov) = true ->
   exists resp lp,
     _e_step torch_exp log_density mvn_valid self X means cov
     = Return (resp, lp)) /\
  (forall resp lp,
     _e_step torch_exp log_density mvn_valid self X means cov
     = Return (resp, lp) ->
     shape resp = [B; S; K] /\
     forall b s, (b < B)%nat -> (s < S)%nat ->
       sum_upto K (fun k => item resp [b; s; k]) = 1).
Proof.
  intros HX Hm Hc HK.
  destruct (e_step_cases torch_exp log_density mvn_valid torch_exp_nonneg
              self X means cov B S F K HX Hm Hc)
    as (lp0 & prob & Hlp & Hfl & E).
  rewrite E. split.
  - intros ->. now exists (normalize_L1 prob), lp0.
  - intros resp lp H. destruct (mvn_valid _ _); [|discriminate].
    injection H as <- <-. split.
    + destruct Hfl as [Hs _]. destruct prob as [sp p]; cbn [shape] in Hs.
      subst sp. apply normalize_L1_shape.
    + intros b s Hb Hs. now apply (normalize_L1_sums_to_one B S K).
Qed.
End EStepClaims.

(** All densities underflow: [torch_exp] constantly zero, two components. *)
Lemma e_step_resp_sums_to_one_witness :
  exists resp lp,
    _e_step (fun _ => 0) (fun _ _ _ _ => 0) (fun _ _ => true)
            (mkGaussianMixture 2 5 "diag" 1 1e-4)
            (mkT [1; 1; 1]%nat (fun _ => 0))
            (mkT [1; 2; 1]%nat (fun _ => 0))
            (mkT [1; 2; 1; 1]%nat (fun _ => 1))
    = Return (resp, lp) /\
    sum_upto 2 (fun k => item resp [0; 0; k]%nat) = 1.
Proof.
  destruct (e_step_resp_sums_to_one (fun _ => 0) (fun _ _ _ _ => 0)
              (fun _ _ => true) (fun _ => Rle_refl 0)
              (mkGaussianMixture 2 5 "diag" 1 1e-4)
              (mkT [1; 1; 1]%nat (fun _ => 0))
              (mkT [1; 2; 1]%nat (fun _ => 0))
              (mkT [1; 2; 1; 1]%nat (fun _ => 1))
              1%nat 1%nat 1%nat 2%nat
              eq_refl eq_refl eq_refl (Nat.lt_0_succ 1))
    as [Hret Hsum].
  destruct (Hret eq_refl) as (resp & lp & E).
  exists resp, lp. split; [exact E|].
  apply (proj2 (Hsum resp lp E) 0%nat 0%nat); apply Nat.lt_0_1.
Defined.

(** ** The covariance constraint *)

Lemma dispatch_documented ct :
  documented_type ct ->
  (ct = "full"%string /\ dispatch ct = (false, false, false)) \/
  (ct = "tied"%string /\ dispatch ct = (false, false, true)) \/
  (ct = "diag"%string /\ dispatch ct = (false, true, false)) \/
  (ct = "spherical"%string /\ dispatch ct = (true, false, false)).
Proof.
  intros [ -> | [ -> | [ -> | -> ] ] ];
    [left | right; left | do 2 right; left | do 3 right];
    split; reflexivity.
Qed.

(** Outside the documented types the tests are not exclusive: a string
    naming two types passes two of them, and both branches run. *)
Example dispatch_cascades :
  dispatch "spherical_tied" = (true, false, true).
Proof. reflexivity. Qed.

(** Averaging over rows and then over columns is the mean of all entries. *)
Lemma mean_of_means F (c : nat -> nat -> R) :
  (0 < F)%nat ->
  sum_upto F (fun j => sum_upto F (fun i => c i j) / INR F) / INR F
  = sum_upto F (fun i => sum_upto F (fun j => c i j)) / (INR F * INR F).
Proof.
  intros HF. pose proof (INR_pos F HF) as Hpos.
  rewrite sum_upto_div, (sum_upto_exchange F F c). field. lra.
Qed.

(** C3.  For each of the four documented covariance types exactly one
    behaviour is applied to a (batch, components, features, features)
    covariance: the three substring tests select at most one branch, and
    the result is, for full, the input itself; for diag, the input with
    every off-diagonal entry zero and the diagonal kept; for spherical,
    the mean of the matrix's entries on the diagonal and zero elsewhere;
    for tied, the mean over the component axis, hence the same matrix for
    every component of a batch element. *)
Theorem enforce_one_behaviour_per_type self cov B K F :
  shape cov = [B; K; F; F] ->
  documented_type (covariance_type self) ->
  let ct := covariance_type self in
  let out := _enforce_covariance_type self cov in
  shape out = [B; K; F; F] /\
  (ct = "full"%string ->
     dispatch ct = (false, false, false) /\ out = cov) /\
  (ct = "diag"%string ->
     dispatch ct = (false, true, false) /\
     forall b k i j, (b < B)%nat -> (k < K)%nat -> (i < F)%nat -> (j < F)%nat ->
       item out [b; k; i; j]
       = if (i =? j)%nat then item cov [b; k; i; j] else 0) /\
  (ct = "spherical"%string ->
     dispatch ct = (true, false, false) /\
     forall b k i j, (b < B)%nat -> (k < K)%nat -> (i < F)%nat -> (j < F)%nat ->
       item out [b; k; i; j]
       = if (i =? j)%nat
         then sum_upto F (fun i' =>
                sum_upto F (fun j' => item cov [b; k; i'; j']))
              / (INR F * INR F)
         else 0) /\
  (ct = "tied"%string ->
     dispatch ct = (false, false, true) /\
     forall b k i j, (b < B)%nat -> (k < K)%nat -> (i < F)%nat -> (j < F)%nat ->
       item out [b; k; i; j]
       = sum_upto K (fun k' => item cov [b; k'; i; j]) / INR K /\
       forall k', (k' < K)%nat ->
         item out [b; k'; i; j] = item out [b; k; i; j]).
Proof.
  intros Hs Hdoc ct out. subst ct out.
  split; [now apply enforce_shape|].
  split.
  { intros H. assert (Hd : dispatch (covariance_type self) = (false, false, false))
      by now rewrite H.
    split; [exact Hd | now apply enforce_full]. }
  split.
  { intros H. assert (Hd : dispatch (covariance_type self) = (false, true, false))
      by now rewrite H.
    split; [exact Hd | now apply (enforce_diag self B K F cov Hs)]. }
  split.
  { intros H. assert (Hd : dispatch (covariance_type self) = (true, false, false))
      by now rewrite H.
    split; [exact Hd|]. intros b k i j Hb Hk Hi Hj.
    destruct (enforce_spherical self B K F cov Hs Hd) as [_ E].
    rewrite E by assumption. destruct (i =? j)%nat; [|reflexivity].
    apply (mean_of_means F (fun i' j' => item cov [b; k; i'; j'])). lia. }
  intros H. assert (Hd : dispatch (covariance_type self) = (false, false, true))
    by now rewrite H.
  split; [exact Hd|]. intros b k i j Hb Hk Hi Hj.
  destruct (enforce_tied self B K F cov Hs Hd) as [_ E].
  split; [now apply E|]. intros k' Hk'. now rewrite !E.
Qed.

Lemma enforce_one_behaviour_per_type_witness :
  let self := mkGaussianMixture 2 5 "tied" 1 1e-4 in
  let cov := mkT [1; 2; 1; 1]%nat (fun idx => INR (nth 1 idx O)) in
  item (_enforce_covariance_type self cov) [0; 0; 0; 0]%nat
  = item (_enforce_covariance_type self cov) [0; 1; 0; 0]%nat.
Proof.
  intros self cov.
  destruct (enforce_one_behaviour_per_type self cov 1 2 1 eq_refl
              (or_intror (or_introl eq_refl)))
    as (_ & _ & _ & _ & Htied).
  destruct (Htied eq_refl) as [_ H].
  symmetry.
  apply (proj2 (H 0%nat 0%nat 0%nat 0%nat Nat.lt_0_1 Nat.lt_0_2
                  Nat.lt_0_1 Nat.lt_0_1) 1%nat).
  apply Nat.lt_1_2.
Defined.

(** ** The M-step *)

Lemma mean_ge_floor n (f : nat -> R) c :
  (0 < n)%nat -> (forall i, (i < n)%nat -> c <= f i) ->
  c <= sum_upto n f / INR n.
Proof.
  intros Hn Hf. pose proof (INR_pos n Hn) as Hpos.
  pose proof (sum_upto_ge_const n f c Hf) as Hsum.
  apply (Rmult_le_reg_r (INR n)); [exact Hpos|].
  unfold Rdiv. rewrite Rmult_assoc, Rinv_l by lra. lra.
Qed.

(** C2, as the code has it.  The M-step clamps every covariance entry to
    at least [reg_covar] and only then enforces the covariance type.  For
    full and tied every entry of the returned covariance is at least
    [reg_covar]; for diag and spherical the diagonal entries are at least
    [reg_covar] and the off-diagonal entries are exactly 0. *)
Theorem m_step_covariance_floor self X resp B S F K :
  shape X = [B; S; F] -> shape resp = [B; S; K] ->
  documented_type (covariance_type self) ->
  let ct := covariance_type self in
  let cov := snd (fst (_m_step self X resp)) in
  (exists clamped,
     cov = _enforce_covariance_type self clamped /\
     shape clamped = [B; K; F; F] /\
     forall b k i j, (b < B)%nat -> (k < K)%nat -> (i < F)%nat -> (j < F)%nat ->
       reg_covar self <= item clamped [b; k; i; j]) /\
  shape cov = [B; K; F; F] /\
  forall b k i j, (b < B)%nat -> (k < K)%nat -> (i < F)%nat -> (j < F)%nat ->
    (ct = "full"%string \/ ct = "tied"%string ->
       reg_covar self <= item cov [b; k; i; j]) /\
    (ct = "diag"%string \/ ct = "spherical"%string ->
       (i = j -> reg_covar self <= item cov [b; k; i; j]) /\
       (i <> j -> item cov [b; k; i; j] = 0)).
Proof.
  intros HX Hr Hdoc ct cov. subst ct cov.
  destruct (m_step_spec self X resp B S F K HX Hr)
    as (m & c & p & E & _ & _ & _ & _ & Hc & Hfloor).
  rewrite E. cbn [fst snd].
  split; [exists c; auto|].
  split; [now apply enforce_shape|].
  intros b k i j Hb Hk Hi Hj.
  destruct (dispatch_documented _ Hdoc)
    as [[Hct Hd]|[[Hct Hd]|[[Hct Hd]|[Hct Hd]]]]; rewrite Hct; split;
    try (intros [H0|H0]; discriminate H0); intros _.
  - rewrite (enforce_full self c Hd). now apply Hfloor.
  - destruct (enforce_tied self B K F c Hc Hd) as [_ Et].
    rewrite Et by assumption. apply mean_ge_floor; [lia|].
    intros k' Hk'. now apply Hfloor.
  - destruct (enforce_diag self B K F c Hc Hd) as [_ Ed].
    rewrite Ed by assumption. split; intros Hij.
    + subst j. rewrite Nat.eqb_refl. now apply Hfloor.
    + now rewrite (proj2 (Nat.eqb_neq i j) Hij).
  - destruct (enforce_spherical self B K F c Hc Hd) as [_ Es].
    rewrite Es by assumption. split; intros Hij.
    + subst j. rewrite Nat.eqb_refl.
      apply mean_ge_floor; [lia|]. intros j' Hj'.
      apply mean_ge_floor; [lia|]. intros i' Hi'. now apply Hfloor.
    + now rewrite (proj2 (Nat.eqb_neq i j) Hij).
Qed.

(** One batch element, one sample [(0, 0)], one component, diagonal
    covariance: the diagonal is floored, the off-diagonal entry is 0. *)
Lemma m_step_covariance_floor_witness :
  let self := mkGaussianMixture 1 5 "diag" 1 1e-4 in
  let cov :=
    snd (fst (_m_step self (mkT [1; 1; 2]%nat (fun _ => 0))
                      (mkT [1; 1; 1]%nat (fun _ => 1)))) in
  1e-4 <= item cov [0; 0; 1; 1]%nat /\ item cov [0; 0; 0; 1]%nat = 0.
Proof.
  intros self cov.
  destruct (m_step_covariance_floor self (mkT [1; 1; 2]%nat (fun _ => 0))
              (mkT [1; 1; 1]%nat (fun _ => 1)) 1 1 2 1 eq_refl eq_refl
              (or_intror (or_intror (or_introl eq_refl))))
    as (_ & _ & H).
  split.
  - destruct (H 0%nat 0%nat 1%nat 1%nat Nat.lt_0_1 Nat.lt_0_1 Nat.lt_1_2
                Nat.lt_1_2) as [_ Hd].
    exact (proj1 (Hd (or_introl eq_refl)) eq_refl).
  - destruct (H 0%nat 0%nat 0%nat 1%nat Nat.lt_0_1 Nat.lt_0_1 Nat.lt_0_2
                Nat.lt_1_2) as [_ Hd].
    apply (proj2 (Hd (or_introl eq_refl))). discriminate.
Defined.

(** C2 as stated fails: with the default diagonal type and the default
    [reg_covar = 1e-4], an off-diagonal entry of the covariance returned
    by the M-step is below [reg_covar]. *)
Lemma m_step_covariance_below_floor :
  let self := mkGaussianMixture 1 5 "diag" 1 1e-4 in
  let cov :=
    snd (fst (_m_step self (mkT [1; 1; 2]%nat (fun _ => 0))
                      (mkT [1; 1; 1]%nat (fun _ => 1)))) in
  in_range [0; 0; 0; 1]%nat (shape cov) /\
  item cov [0; 0; 0; 1]%nat < reg_covar self.
Proof.
  intros self cov.
  destruct (m_step_spec self (mkT [1; 1; 2]%nat (fun _ => 0))
              (mkT [1; 1; 1]%nat (fun _ => 1)) 1 1 2 1 eq_refl eq_refl)
    as (m & c & p & E & _ & _ & _ & _ & Hc & _).
  destruct (enforce_diag self 1 1 2 c Hc eq_refl) as [Hs Ed].
  subst cov. rewrite E. cbn [fst snd]. rewrite Hs. split.
  - cbn. lia.
  - rewrite Ed by lia. cbn. lra.
Qed.

(** The prior of the M-step: the sum of the responsibilities over the
    sample axis, kept as a (batch, 1, components, 1) tensor. *)
Lemma m_step_prior_spec self X resp B S F K :
  shape X = [B; S; F] -> shape resp = [B; S; K] ->
  let prior := snd (_m_step self X resp) in
  shape prior = [B; 1; K; 1]%nat /\
  forall b k, (b < B)%nat -> (k < K)%nat ->
    item prior [b; 0; k; 0]%nat = sum_upto S (fun s => item resp [b; s; k]).
Proof.
  intros HX Hr prior. subst prior.
  destruct (m_step_spec self X resp B S F K HX Hr)
    as (m & c & p & E & _ & _ & Hp & Hpi & _).
  rewrite E. cbn [snd]. split; assumption.
Qed.

(** C5 as stated fails on the shape: for 2 batch elements, 3 samples, 4
    components and 5 features the prior has shape (2, 1, 4, 1), not
    (2, 4, 1). *)
Lemma m_step_prior_shape_is_4d :
  let self := mkGaussianMixture 4 5 "diag" 1 1e-4 in
  let prior :=
    snd (_m_step self (mkT [2; 3; 5]%nat (fun _ => 0))
                 (mkT [2; 3; 4]%nat (fun _ => 1))) in
  shape prior = [2; 1; 4; 1]%nat /\ shape prior <> [2; 4; 1]%nat.
Proof.
  intros self prior.
  assert (H : shape prior = [2; 1; 4; 1]%nat) by reflexivity.
  split; [exact H|]. rewrite H. discriminate.
Qed.

(** ** Construction *)

(** C6, as the code has it.  The constructor never raises and stores the
    covariance type unexamined, whatever the string; a string containing
    none of "spherical", "diag" and "tied" makes the constraint step
    return its input unchanged, as "full" does. *)
Theorem init_accepts_any_covariance_type
    (K n : nat) (ct : string) (ci rc : R) :
  exists self,
    __init__ K n ct ci rc = Return self /\
    covariance_type self = ct /\
    (dispatch ct = (false, false, false) ->
     forall cov, _enforce_covariance_type self cov = cov).
Proof.
  eexists. split; [reflexivity|]. split; [reflexivity|].
  intros Hd cov. now apply enforce_full.
Qed.

(** C6 as stated fails: constructing with the type "unknown" returns a
    model, and that model leaves a covariance unconstrained. *)
Lemma init_unknown_type_is_full :
  exists self,
    __init__ 2 5 "unknown" 1 1e-4 = Return self /\
    ~ documented_type (covariance_type self) /\
    forall cov, _enforce_covariance_type self cov = cov.
Proof.
  eexists. split; [reflexivity|]. split.
  - cbn. unfold documented_type. intros [H|[H|[H|H]]]; discriminate H.
  - intros cov. now apply enforce_full.
Qed.

(** ** Claims about the result of [forward] *)

Lemma numel_nil : numel [] = 1%nat.
Proof. reflexivity. Qed.

Lemma removelast_snoc (l : list nat) d : removelast (l ++ [d]) = l.
Proof. apply removelast_last. Qed.

Lemma known_numel_all_some l :
  known_numel (map Some l ++ [None]) = numel l.
Proof.
  induction l as [|d l IH]; [reflexivity|].
  cbn [map app known_numel fold_right]. fold (known_numel (map Some l ++ [None])).
  now rewrite IH.
Qed.

Lemma infer_sizes_all_some n l :
  infer_sizes n (map Some l ++ [None]) = l ++ [(n / numel l)%nat].
Proof.
  unfold infer_sizes. rewrite known_numel_all_some, map_app, map_map, map_id.
  reflexivity.
Qed.

(** Restoring the caller's sample axes: the result has the caller's
    leading dimensions and every element of it is an element of the
    flattened tensor. *)
Lemma unflatten_spec t B mid K F :
  shape t = [B; numel mid; K] ->
  (0 < B)%nat -> (0 < numel mid)%nat ->
  let out := view (map Some (removelast (B :: mid ++ [F])) ++ [None]) t in
  shape out = B :: mid ++ [K] /\
  forall idx, in_range idx (shape out) ->
    exists b s k, (b < B)%nat /\ (s < numel mid)%nat /\ (k < K)%nat /\
                  item out idx = item t [b; s; k].
Proof.
  intros Ht HB HN out.
  assert (Hs : shape out = B :: mid ++ [K]).
  { subst out. change (B :: mid ++ [F]) with ((B :: mid) ++ [F]).
    rewrite removelast_snoc. cbn [view shape].
    rewrite infer_sizes_all_some, Ht, !numel_cons, numel_nil.
    replace (B * (numel mid * (K * 1)))%nat with (K * (B * numel mid))%nat
      by ring.
    rewrite Nat.div_mul by lia. reflexivity. }
  split; [exact Hs|]. intros idx Hidx.
  pose proof (ravel_lt _ _ Hidx) as Hlt.
  assert (Hn : numel (shape out) = numel (shape t)).
  { rewrite Hs, Ht, app_comm_cons, numel_app, !numel_cons, numel_nil. ring. }
  rewrite Hn in Hlt. pose proof (unravel_in_range _ _ Hlt) as Hin.
  subst out. cbn [view item shape] in *.
  destruct (unravel (shape t) _) as [|b [|s [|k [|? ?]]]] eqn:E;
    rewrite Ht in Hin; cbn [in_range] in Hin; try tauto.
  exists b, s, k. tauto.
Qed.

Section ForwardClaims.
Variable torch_exp : R -> R.
Variable log_density :
  nat -> (nat -> R) -> (nat -> R) -> (nat -> nat -> R) -> R.
Variable mvn_valid : tensor -> tensor -> bool.
Variable rng : list nat -> R.
Hypothesis torch_exp_nonneg : forall x, 0 <= torch_exp x.

Variable self : GaussianMixture.
Variable data : tensor.
Variables (B : nat) (mid : list nat) (K F : nat).
Variables means0 cov0 : option tensor.
Hypothesis Hdata : shape data = B :: mid ++ [F].
Hypothesis HB : (0 < B)%nat.
Hypothesis HF : (0 < F)%nat.
Hypothesis HK : (0 < K)%nat.
Hypothesis Hparams : params_match self B K F means0 cov0.

Local Abbreviation X := (flatten_samples data).
Local Abbreviation N := (numel mid).
Local Abbreviation run :=
  (forward torch_exp log_density mvn_valid rng self data means0 cov0).

(** What every claim below reads off a returned bundle. *)
Lemma forward_bundle r :
  run = Return r ->
  exists resp_ lp_,
    shape resp_ = [B; N; K] /\
    (forall b s, (b < B)%nat -> (s < N)%nat ->
       sum_upto K (fun k => item resp_ [b; s; k]) = 1) /\
    resp r = view (map Some (removelast (shape data)) ++ [None]) resp_ /\
    log_prob r = view (map Some (removelast (shape data)) ++ [None]) lp_ /\
    (means r, covariance r, prior r) = _m_step self X resp_.
Proof.
  intros H.
  destruct (forward_inv torch_exp log_density mvn_valid rng torch_exp_nonneg
              self data B mid K F means0 cov0 Hdata HB HF HK Hparams r H)
    as (n & st & resp_ & lp_ & _ & _ & _ & (_ & _ & prob & Hfl & ->) & ->).
  exists (normalize_L1 prob), lp_. cbn [resp log_prob means covariance prior].
  split; [destruct Hfl as [Hs _]; destruct prob as [sp p]; cbn [shape] in Hs;
          subst sp; apply normalize_L1_shape|].
  split; [intros b s Hb Hs; now apply (normalize_L1_sums_to_one B N K)|].
  split; [reflexivity|]. split; [reflexivity|].
  now destruct (_m_step self X (normalize_L1 prob)) as [[m c] p].
Qed.

(** C9.  Whenever [forward] returns (and it does return when torch's
    covariance validation passes and at least one iteration is
    configured), the prior sums over the component axis to the number of
    flattened samples, for every batch element. *)
Theorem prior_mass_is_sample_count :
  ((1 <= n_iter self)%nat -> (forall l c, mvn_valid l c = true) ->
   exists r, run = Return r) /\
  forall r, run = Return r ->
    shape (prior r) = [B; 1; K; 1]%nat /\
    forall b, (b < B)%nat ->
      sum_upto K (fun k => item (prior r) [b; 0; k; 0]%nat) = INR N.
Proof.
  pose proof (flatten_samples_shape data B mid F Hdata HB HF) as HX.
  split.
  { now apply (forward_returns torch_exp log_density mvn_valid rng
                 torch_exp_nonneg self data B mid K F). }
  intros r H.
  destruct (forward_bundle r H) as (resp_ & lp_ & Hs & Hsum & _ & _ & Em).
  destruct (m_step_spec self X resp_ B N F K HX Hs)
    as (m & c & p & E & _ & _ & Hp & Hpi & _).
  rewrite E in Em. injection Em as _ _ ->.
  split; [exact Hp|]. intros b Hb.
  rewrite (sum_upto_ext K _ (fun k => sum_upto N (fun s => item resp_ [b; s; k])))
    by (intros k Hk; now apply Hpi).
  rewrite sum_upto_exchange.
  rewrite (sum_upto_ext N _ (fun _ => 1)) by (intros s Hs'; now apply Hsum).
  rewrite sum_upto_const. lra.
Qed.

(** C5, as the code has it.  The prior returned by the M-step is, for
    every batch element and component, the sum of the responsibilities
    over the sample axis, with no division by the sample count; it keeps
    the reduced sample axis, so its shape is (batch, 1, components, 1).
    The prior in the bundle returned by [forward] is that of the last
    M-step, computed from the responsibilities returned in the same
    bundle. *)
Theorem prior_is_unnormalized_sum :
  (forall X' resp' B' S' F' K',
     shape X' = [B'; S'; F'] -> shape resp' = [B'; S'; K'] ->
     shape (snd (_m_step self X' resp')) = [B'; 1; K'; 1]%nat /\
     forall b k, (b < B')%nat -> (k < K')%nat ->
       item (snd (_m_step self X' resp')) [b; 0; k; 0]%nat
       = sum_upto S' (fun s => item resp' [b; s; k])) /\
  ((1 <= n_iter self)%nat -> (forall l c, mvn_valid l c = true) ->
   exists r, run = Return r) /\
  forall r, run = Return r ->
    exists resp_,
      shape resp_ = [B; N; K] /\
      resp r = view (map Some (removelast (shape data)) ++ [None]) resp_ /\
      prior r = snd (_m_step self X resp_) /\
      shape (prior r) = [B; 1; K; 1]%nat /\
      forall b k, (b < B)%nat -> (k < K)%nat ->
        item (prior r) [b; 0; k; 0]%nat
        = sum_upto N (fun s => item resp_ [b; s; k]).
Proof.
  pose proof (flatten_samples_shape data B mid F Hdata HB HF) as HX.
  split.
  { intros X' resp' B' S' F' K' HX' Hr'.
    exact (m_step_prior_spec self X' resp' B' S' F' K' HX' Hr'). }
  split.
  { now apply (forward_returns torch_exp log_density mvn_valid rng
                 torch_exp_nonneg self data B mid K F). }
  intros r H.
  destruct (forward_bundle r H) as (resp_ & lp_ & Hs & _ & Hr & _ & Em).
  exists resp_. split; [exact Hs|]. split; [exact Hr|].
  assert (Ep : prior r = snd (_m_step self X resp_)) by now rewrite <- Em.
  split; [exact Ep|]. rewrite Ep.
  exact (m_step_prior_spec self X resp_ B N F K HX Hs).
Qed.

(** C7.  The bundle returned by [forward] is one update out of phase.
    With [st] the locals after all but the last iteration (the initial
    parameters when a single iteration is configured), [resp] and
    [log_prob] are the last E-step's outputs, computed from the means and
    covariance held in [st], while [means], [covariance] and [prior] are
    what the final M-step made of those responsibilities. *)
Theorem forward_out_of_phase :
  ((1 <= n_iter self)%nat -> (forall l c, mvn_valid l c = true) ->
   exists r, run = Return r) /\
  forall r, run = Return r ->
    exists n st resp_ lp_,
      n_iter self = Datatypes.S n /\
      for_each torch_exp log_density mvn_valid self X (range n)
        (mkLocals (fst (init_params rng self X means0 cov0))
                  (snd (init_params rng self X means0 cov0)) None)
      = Return st /\
      _e_step torch_exp log_density mvn_valid self X
              (l_means st) (l_covariance st) = Return (resp_, lp_) /\
      resp r = view (map Some (removelast (shape data)) ++ [None]) resp_ /\
      log_prob r = view (map Some (removelast (shape data)) ++ [None]) lp_ /\
      (means r, covariance r, prior r) = _m_step self X resp_.
Proof.
  split.
  { now apply (forward_returns torch_exp log_density mvn_valid rng
                 torch_exp_nonneg self data B mid K F). }
  intros r H.
  destruct (forward_inv torch_exp log_density mvn_valid rng torch_exp_nonneg
              self data B mid K F means0 cov0 Hdata HB HF HK Hparams r H)
    as (n & st & resp_ & lp_ & En & El & _ & (Ee & _) & ->).
  exists n, st, resp_, lp_. cbn [resp log_prob means covariance prior].
  repeat (split; [assumption || reflexivity|]).
  now destruct (_m_step self X resp_) as [[m c] p].
Qed.

End ForwardClaims.

(** C8.  With a single component, every entry of the returned
    responsibilities is exactly 1 and the returned mean of each batch
    element is the mean of its flattened samples, whatever the number of
    iterations. *)
Theorem single_component_fit
    (torch_exp : R -> R)
    (log_density : nat -> (nat -> R) -> (nat -> R) -> (nat -> nat -> R) -> R)
    (mvn_valid : tensor -> tensor -> bool) (rng : list nat -> R)
    (self : GaussianMixture) (data : tensor) (B : nat) (mid : list nat)
    (F : nat) (means0 cov0 : option tensor) :
  let X := flatten_samples data in
  let N := numel mid in
  let run :=
    forward torch_exp log_density mvn_valid rng self data means0 cov0 in
  (forall x, 0 <= torch_exp x) ->
  shape data = B :: mid ++ [F] ->
  (0 < B)%nat -> (0 < N)%nat -> (0 < F)%nat ->
  n_components self = 1%nat ->
  params_match self B 1 F means0 cov0 ->
  ((1 <= n_iter self)%nat -> (forall l c, mvn_valid l c = true) ->
   exists r, run = Return r) /\
  forall r, run = Return r ->
    shape (resp r) = B :: mid ++ [1%nat] /\
    (forall idx, in_range idx (shape (resp r)) -> item (resp r) idx = 1) /\
    shape (means r) = [B; 1; F]%nat /\
    forall b f, (b < B)%nat -> (f < F)%nat ->
      item (means r) [b; 0; f]%nat
      = sum_upto N (fun s => item X [b; s; f]) / INR N.
Proof.
  intros X N run torch_exp_nonneg Hdata HB HN HF _ Hparams. subst X N run.
  pose proof (flatten_samples_shape data B mid F Hdata HB HF) as HX.
  split.
  { exact (forward_returns torch_exp log_density mvn_valid rng
             torch_exp_nonneg self data B mid 1 F means0 cov0
             Hdata HB HF Nat.lt_0_1 Hparams). }
  intros r H.
  destruct (forward_bundle torch_exp log_density mvn_valid rng
              torch_exp_nonneg self data B mid 1 F means0 cov0
              Hdata HB HF Nat.lt_0_1 Hparams r H)
    as (resp_ & lp_ & Hs & Hsum & Hr & _ & Em).
  assert (Hone : forall b s, (b < B)%nat -> (s < numel mid)%nat ->
                   item resp_ [b; s; 0%nat] = 1).
  { intros b s Hb Hs'. specialize (Hsum b s Hb Hs'). cbn in Hsum. lra. }
  destruct (unflatten_spec resp_ B mid 1 F Hs HB HN) as [Hsh Hit].
  rewrite Hdata in Hr. rewrite Hr. split; [exact Hsh|]. split.
  - intros idx Hidx. destruct (Hit idx Hidx) as (b & s & k & Hb & Hs' & Hk & ->).
    replace k with 0%nat by lia. now apply Hone.
  - destruct (m_step_spec self (flatten_samples data) resp_ B (numel mid) F 1 HX Hs)
      as (m & c & p & E & Hm & Hmi & _).
    rewrite E in Em. injection Em as -> _ _.
    split; [exact Hm|]. intros b f Hb Hf.
    rewrite Hmi by (assumption || lia).
    rewrite (sum_upto_ext (numel mid) (fun s => item resp_ [b; s; 0%nat] * _)
                          (fun s => item (flatten_samples data) [b; s; f]))
      by (intros s Hs'; rewrite Hone by assumption; lra).
    rewrite (sum_upto_ext (numel mid) (fun s => item resp_ [b; s; 0%nat]) (fun _ => 1))
      by (intros s Hs'; now apply Hone).
    rewrite sum_upto_const. f_equal. lra.
Qed.

Lemma exp_nonneg x : 0 <= exp x.
Proof. left. apply exp_pos. Qed.

Lemma example_params : params_match example_model 1 1 1 None None.
Proof. split; reflexivity. Qed.

Lemma prior_mass_is_sample_count_witness :
  exists r,
    example_forward = Return r /\
    sum_upto 1 (fun k => item (prior r) [0; 0; k; 0]%nat) = 2.
Proof.
  destruct (prior_mass_is_sample_count exp (fun _ _ _ _ => 0)
              (fun _ _ => true) (fun _ => 0) exp_nonneg example_model
              example_data 1 [2%nat] 1 1 None None eq_refl Nat.lt_0_1
              Nat.lt_0_1 Nat.lt_0_1 example_params) as [Hret Hinv].
  destruct (Hret (le_S _ _ (le_S _ _ (le_S _ _ (le_S _ _ (le_n 1)))))
                 (fun _ _ => eq_refl)) as [r Hr].
  exists r. split; [exact Hr|].
  rewrite (proj2 (Hinv r Hr) 0%nat Nat.lt_0_1).
  unfold numel. cbn. lra.
Defined.

Lemma prior_is_unnormalized_sum_witness :
  exists r resp_,
    example_forward = Return r /\
    prior r = snd (_m_step example_model (flatten_samples example_data) resp_) /\
    shape (prior r) = [1; 1; 1; 1]%nat /\
    item (snd (_m_step example_model (mkT [1; 3; 1]%nat (fun _ => 0))
                       (mkT [1; 3; 1]%nat
                            (fun idx => INR (S (nth 1 idx O))))))
         [0; 0; 0; 0]%nat = 6.
Proof.
  destruct (prior_is_unnormalized_sum exp (fun _ _ _ _ => 0)
              (fun _ _ => true) (fun _ => 0) exp_nonneg example_model
              example_data 1 [2%nat] 1 1 None None eq_refl Nat.lt_0_1
              Nat.lt_0_1 Nat.lt_0_1 example_params) as (Hm & Hret & Hinv).
  destruct (Hret (le_S _ _ (le_S _ _ (le_S _ _ (le_S _ _ (le_n 1)))))
                 (fun _ _ => eq_refl)) as [r Hr].
  destruct (Hinv r Hr) as (resp_ & _ & _ & Hp & Hs & _).
  exists r, resp_. split; [exact Hr|]. split; [exact Hp|].
  split; [exact Hs|].
  rewrite (proj2 (Hm (mkT [1; 3; 1]%nat (fun _ => 0))
                     (mkT [1; 3; 1]%nat (fun idx => INR (S (nth 1 idx O))))
                     1%nat 3%nat 1%nat 1%nat eq_refl eq_refl)
                 0%nat 0%nat Nat.lt_0_1 Nat.lt_0_1).
  cbn. lra.
Defined.

Lemma forward_out_of_phase_witness :
  exists r st resp_ lp_,
    example_forward = Return r /\
    for_each exp (fun _ _ _ _ => 0) (fun _ _ => true) example_model
      (flatten_samples example_data) (range 4)
      (mkLocals
         (fst (init_params (fun _ => 0) example_model
                           (flatten_samples example_data) None None))
         (snd (init_params (fun _ => 0) example_model
                           (flatten_samples example_data) None None))
         None)
    = Return st /\
    _e_step exp (fun _ _ _ _ => 0) (fun _ _ => true) example_model
            (flatten_samples example_data) (l_means st) (l_covariance st)
    = Return (resp_, lp_) /\
    (means r, covariance r, prior r)
    = _m_step example_model (flatten_samples example_data) resp_.
Proof.
  destruct (forward_out_of_phase exp (fun _ _ _ _ => 0)
              (fun _ _ => true) (fun _ => 0) exp_nonneg example_model
              example_data 1 [2%nat] 1 1 None None eq_refl Nat.lt_0_1
              Nat.lt_0_1 Nat.lt_0_1 example_params) as [Hret Hinv].
  destruct (Hret (le_S _ _ (le_S _ _ (le_S _ _ (le_S _ _ (le_n 1)))))
                 (fun _ _ => eq_refl)) as [r Hr].
  destruct (Hinv r Hr) as (n & st & resp_ & lp_ & En & El & Ee & _ & _ & Em).
  injection En as <-.
  exists r, st, resp_, lp_. split; [exact Hr|]. split; [exact El|].
  split; assumption.
Defined.

Lemma single_component_fit_witness :
  exists r,
    example_forward = Return r /\
    item (resp r) [0; 1; 0]%nat = 1 /\
    item (means r) [0; 0; 0]%nat
    = sum_upto 2 (fun s => item (flatten_samples example_data) [0; s; 0]%nat)
      / 2.
Proof.
  destruct (single_component_fit exp (fun _ _ _ _ => 0)
              (fun _ _ => true) (fun _ => 0) example_model
              example_data 1 [2%nat] 1 None None exp_nonneg eq_refl
              Nat.lt_0_1 Nat.lt_0_2 Nat.lt_0_1 eq_refl example_params)
    as [Hret Hinv].
  destruct (Hret (le_S _ _ (le_S _ _ (le_S _ _ (le_S _ _ (le_n 1)))))
                 (fun _ _ => eq_refl)) as [r Hr].
  destruct (Hinv r Hr) as (Hs & Hone & _ & Hmean).
  exists r. split; [exact Hr|]. split.
  - apply Hone. rewrite Hs. cbn. lia.
  - rewrite (Hmean 0%nat 0%nat Nat.lt_0_1 Nat.lt_0_1).
    reflexivity.
Defined.

(** ** The iteration count *)

(** C1 fails on the code: whatever [n_iter] is passed to the constructor,
    the model holds the literal 5, so [forward] runs the body of its loop,
    an E-step followed by an M-step, five times before assembling the
    result; in particular a model configured with [n_iter = 3] does not
    stop after three. *)
Theorem init_ignores_n_iter
    (torch_exp : R -> R)
    (log_density : nat -> (nat -> R) -> (nat -> R) -> (nat -> nat -> R) -> R)
    (mvn_valid : tensor -> tensor -> bool) (rng : list nat -> R)
    (K n : nat) (ct : string) (ci rc : R)
    (data : tensor) (means0 cov0 : option tensor) :
  exists self,
    __init__ K n ct ci rc = Return self /\
    n_iter self = 5%nat /\
    range (n_iter self) = [0; 1; 2; 3; 4]%nat /\
    (let X := flatten_samples data in
     let body := em_body torch_exp log_density mvn_valid self X in
     forward torch_exp log_density mvn_valid rng self data means0 cov0
     = (s1 <- body (mkLocals (fst (init_params rng self X means0 cov0))
                             (snd (init_params rng self X means0 cov0))
                             None) ;;
        s2 <- body s1 ;;
        s3 <- body s2 ;;
        s4 <- body s3 ;;
        s5 <- body s4 ;;
        assemble (shape data) s5)) /\
    (exists self3,
       __init__ K 3 ct ci rc = Return self3 /\
       length (range (n_iter self3)) <> 3%nat).
Proof.
  eexists. split; [reflexivity|]. split; [reflexivity|].
  split; [reflexivity|]. split.
  - cbv zeta. rewrite forward_unfold. cbn [n_iter range seq for_each].
    unfold res_bind.
    repeat match goal with
           | |- context [em_body ?a ?b ?c ?d ?e ?f] =>
             destruct (em_body a b c d e f); try reflexivity
           end.
  - eexists. split; [reflexivity|]. cbn. discriminate.
Qed.

(** ** Frame: what [forward] leaves untouched *)

Lemma agrees_below_refl n sigma : agrees_below n sigma sigma.
Proof. split; [lia | reflexivity]. Qed.

Lemma agrees_below_trans n s1 s2 s3 :
  agrees_below n s1 s2 -> agrees_below n s2 s3 -> agrees_below n s1 s3.
Proof.
  intros [L1 H1] [L2 H2]. split; [lia|].
  intros l Hl. now rewrite H2, H1.
Qed.

Lemma length_upd {A} n (x : A) l : length (upd n x l) = length l.
Proof.
  revert n; induction l as [|a l IH]; intros [|n]; cbn; auto.
Qed.

Lemma nth_error_upd_other {A} n (x : A) l k :
  k <> n -> nth_error (upd n x l) k = nth_error l k.
Proof.
  revert n k; induction l as [|a l IH]; intros [|n] [|k] H; cbn;
    try reflexivity; try congruence.
  apply IH. congruence.
Qed.

Lemma safe_ret {A} n (a : A) (Q : A -> Prop) :
  Q a -> frame_safe n (st_ret a) Q.
Proof. intros H sigma _. cbn. split; [apply agrees_below_refl | exact H]. Qed.

Lemma safe_bind {A B} n (m : M A) (k : A -> M B) Q Q' :
  frame_safe n m Q -> (forall a, Q a -> frame_safe n (k a) Q') ->
  frame_safe n (st_bind m k) Q'.
Proof.
  intros Hm Hk sigma Hn. unfold st_bind. specialize (Hm sigma Hn).
  destruct (m sigma) as [[a s1]|e]; [|exact I].
  destruct Hm as [Ha HQ]. specialize (Hk a HQ s1).
  assert (Hn1 : (n <= length s1)%nat) by (destruct Ha; lia).
  specialize (Hk Hn1). destruct (k a s1) as [[b s2]|e]; [|exact I].
  destruct Hk as [Hb HQ']. split; [|exact HQ'].
  now apply (agrees_below_trans n sigma s1 s2).
Qed.

Lemma safe_weaken {A} n (m : M A) (Q Q' : A -> Prop) :
  (forall a, Q a -> Q' a) -> frame_safe n m Q -> frame_safe n m Q'.
Proof.
  intros HQ Hm sigma Hn. specialize (Hm sigma Hn).
  destruct (m sigma) as [[a s1]|e]; [|exact I].
  destruct Hm. split; auto.
Qed.

Lemma safe_raise {A} n e (Q : A -> Prop) : frame_safe n (st_raise e) Q.
Proof. intros sigma _. exact I. Qed.

Lemma safe_alloc n v : frame_safe n (alloc v) (fresh_from n).
Proof.
  intros sigma Hn. cbn. split; [|exact Hn]. split.
  - rewrite length_app. lia.
  - intros l Hl. apply nth_error_app1. lia.
Qed.

Lemma safe_load n h : frame_safe n (load h) (fun _ => True).
Proof. intros sigma _. cbn. split; [apply agrees_below_refl | exact I]. Qed.

(** The only primitive that writes: safe when its target is fresh. *)
Lemma safe_store_all n h v :
  fresh_from n h -> frame_safe n (store_all h v) (fun _ => True).
Proof.
  intros Hh sigma Hn. cbn. split; [|exact I]. split.
  - rewrite length_upd. lia.
  - intros l Hl. apply nth_error_upd_other. unfold fresh_from in Hh. lia.
Qed.

Lemma safe_new1 n f a : frame_safe n (new1 f a) (fresh_from n).
Proof.
  unfold new1. eapply safe_bind; [apply safe_load|].
  intros va _. apply safe_alloc.
Qed.

Lemma safe_new2 n f a b : frame_safe n (new2 f a b) (fresh_from n).
Proof.
  unfold new2. eapply safe_bind; [apply safe_load|]. intros va _.
  eapply safe_bind; [apply safe_load|]. intros vb _. apply safe_alloc.
Qed.

Lemma fresh_as_view n f g h : fresh_from n h -> fresh_from n (as_view f g h).
Proof. exact (fun H => H). Qed.

Create HintDb frame.
#[local] Hint Resolve safe_alloc safe_load safe_new1 safe_new2 safe_raise
  fresh_as_view : frame.

(** One step of a sequence: the first computation by a known rule, the
    continuation with the fact it established. *)
Ltac safe_step :=
  lazymatch goal with
  | |- frame_safe _ (st_bind (load _) _) _ =>
    eapply safe_bind; [apply safe_load | intros ? _]
  | |- frame_safe _ (st_bind (alloc _) _) _ =>
    eapply safe_bind; [apply safe_alloc | intros ? ?]
  | |- frame_safe _ (st_bind (new1 _ _) _) _ =>
    eapply safe_bind; [apply safe_new1 | intros ? ?]
  | |- frame_safe _ (st_bind (new2 _ _ _) _) _ =>
    eapply safe_bind; [apply safe_new2 | intros ? ?]
  | |- frame_safe _ (st_bind (store_all _ _) _) _ =>
    eapply safe_bind;
    [apply safe_store_all; auto with frame | intros ? _]
  end.

Section Frame.
Variable torch_exp : R -> R.
Variable log_density :
  nat -> (nat -> R) -> (nat -> R) -> (nat -> nat -> R) -> R.
Variable mvn_valid : tensor -> tensor -> bool.
Variable rng : list nat -> R.
Variable self : GaussianMixture.
Variable n : nat.

(** The constraint step writes into its argument: it is safe on a fresh
    tensor, and what it returns is fresh again. *)
Lemma enforce_st_safe h :
  fresh_from n h ->
  frame_safe n (_enforce_covariance_type_st self h) (fresh_from n).
Proof.
  intros Hh. unfold _enforce_covariance_type_st.
  safe_step. safe_step.
  eapply safe_bind with (Q := fresh_from n).
  { destruct (contains "spherical" _); [|now apply safe_ret].
    repeat safe_step. apply safe_new2. }
  intros h1 H1.
  eapply safe_bind with (Q := fresh_from n).
  { destruct (contains "diag" _); [apply safe_new2 | now apply safe_ret]. }
  intros h2 H2.
  eapply safe_bind with (Q := fresh_from n).
  { destruct (contains "tied" _); [|now apply safe_ret].
    repeat safe_step. now apply safe_ret. }
  intros h3 H3. now apply safe_ret.
Qed.

Lemma m_step_st_safe X resp :
  frame_safe n (_m_step_st self X resp) (fun _ => True).
Proof.
  unfold _m_step_st. repeat safe_step.
  eapply safe_bind; [apply enforce_st_safe; assumption|].
  intros c Hc. now apply safe_ret.
Qed.

Lemma e_step_st_safe X means cov :
  frame_safe n (_e_step_st torch_exp log_density mvn_valid self X means cov)
             (fun _ => True).
Proof.
  unfold _e_step_st. repeat safe_step.
  destruct (mvn_valid _ _); [|apply safe_raise].
  repeat safe_step. now apply safe_ret.
Qed.

(** Initialisation multiplies the covariance by the diagonal mask before
    the constraint step, so the constraint step writes into the product
    and not into a covariance the caller supplied. *)
Lemma init_params_st_safe X means cov :
  frame_safe n (init_params_st rng self X means cov) (fun _ => True).
Proof.
  unfold init_params_st. safe_step.
  eapply safe_bind with (Q := fun _ => True).
  { destruct means as [m|]; [now apply safe_ret|].
    repeat safe_step. now apply safe_ret. }
  intros m _.
  eapply safe_bind with (Q := fun _ => True).
  { destruct cov as [c|]; [now apply safe_ret|].
    eapply safe_weaken; [|apply safe_alloc]. auto. }
  intros c _. repeat safe_step.
  eapply safe_bind; [apply enforce_st_safe; assumption|].
  intros c' _. now apply safe_ret.
Qed.

Lemma em_body_st_safe data st :
  frame_safe n (em_body_st torch_exp log_density mvn_valid self data st)
             (fun _ => True).
Proof.
  unfold em_body_st.
  eapply safe_bind; [apply e_step_st_safe|]. intros rl _.
  eapply safe_bind; [apply m_step_st_safe|]. intros mcp _.
  now apply safe_ret.
Qed.

Lemma for_each_st_safe data iters : forall st,
  frame_safe n (for_each_st torch_exp log_density mvn_valid self data iters st)
             (fun _ => True).
Proof.
  induction iters as [|i iters IH]; intros st; cbn [for_each_st].
  - now apply safe_ret.
  - eapply safe_bind; [apply em_body_st_safe|]. intros st' _. apply IH.
Qed.

Lemma forward_st_safe data means cov :
  frame_safe n (forward_st torch_exp log_density mvn_valid rng self
                           data means cov)
             (fun _ => True).
Proof.
  unfold forward_st. safe_step.
  eapply safe_bind; [apply init_params_st_safe|]. intros mc _.
  eapply safe_bind; [apply for_each_st_safe|]. intros st _.
  destruct (lr_body st) as [[[r l] p]|]; [now apply safe_ret|].
  apply safe_raise.
Qed.
End Frame.

(** *** The store model returns whenever validation passes *)

Lemma returns_ret {A} (a : A) (Q : A -> Prop) : Q a -> st_returns (st_ret a) Q.
Proof. intros H sigma. now exists a, sigma. Qed.

Lemma returns_bind {A B} (m : M A) (k : A -> M B) Q Q' :
  st_returns m Q -> (forall a, Q a -> st_returns (k a) Q') ->
  st_returns (st_bind m k) Q'.
Proof.
  intros Hm Hk sigma. unfold st_bind.
  destruct (Hm sigma) as (a & s1 & -> & HQ). exact (Hk a HQ s1).
Qed.

Lemma returns_alloc v : st_returns (alloc v) (fun _ => True).
Proof. intros sigma. cbn. do 2 eexists. split; [reflexivity | exact I]. Qed.

Lemma returns_load h : st_returns (load h) (fun _ => True).
Proof. intros sigma. cbn. do 2 eexists. split; [reflexivity | exact I]. Qed.

Lemma returns_store_all h v : st_returns (store_all h v) (fun _ => True).
Proof. intros sigma. cbn. do 2 eexists. split; [reflexivity | exact I]. Qed.

Lemma returns_new1 f a : st_returns (new1 f a) (fun _ => True).
Proof.
  unfold new1. eapply returns_bind; [apply returns_load|].
  intros va _. apply returns_alloc.
Qed.

Lemma returns_new2 f a b : st_returns (new2 f a b) (fun _ => True).
Proof.
  unfold new2. eapply returns_bind; [apply returns_load|]. intros va _.
  eapply returns_bind; [apply returns_load|]. intros vb _. apply returns_alloc.
Qed.

Ltac returns_step :=
  lazymatch goal with
  | |- st_returns (st_bind (load _) _) _ =>
    eapply returns_bind; [apply returns_load | intros ? _]
  | |- st_returns (st_bind (alloc _) _) _ =>
    eapply returns_bind; [apply returns_alloc | intros ? _]
  | |- st_returns (st_bind (new1 _ _) _) _ =>
    eapply returns_bind; [apply returns_new1 | intros ? _]
  | |- st_returns (st_bind (new2 _ _ _) _) _ =>
    eapply returns_bind; [apply returns_new2 | intros ? _]
  | |- st_returns (st_bind (store_all _ _) _) _ =>
    eapply returns_bind; [apply returns_store_all | intros ? _]
  end.

Section Returns.
Variable torch_exp : R -> R.
Variable log_density :
  nat -> (nat -> R) -> (nat -> R) -> (nat -> nat -> R) -> R.
Variable mvn_valid : tensor -> tensor -> bool.
Variable rng : list nat -> R.
Variable self : GaussianMixture.
Hypothesis mvn_always_valid : forall l c, mvn_valid l c = true.

Lemma enforce_st_returns h :
  st_returns (_enforce_covariance_type_st self h) (fun _ => True).
Proof.
  unfold _enforce_covariance_type_st. returns_step. returns_step.
  eapply returns_bind with (Q := fun _ => True).
  { destruct (contains "spherical" _); [|now apply returns_ret].
    repeat returns_step. apply returns_new2. }
  intros h1 _.
  eapply returns_bind with (Q := fun _ => True).
  { destruct (contains "diag" _); [apply returns_new2 | now apply returns_ret]. }
  intros h2 _.
  eapply returns_bind with (Q := fun _ => True).
  { destruct (contains "tied" _); [|now apply returns_ret].
    repeat returns_step. now apply returns_ret. }
  intros h3 _. now apply returns_ret.
Qed.

Lemma m_step_st_returns X resp :
  st_returns (_m_step_st self X resp) (fun _ => True).
Proof.
  unfold _m_step_st. repeat returns_step.
  eapply returns_bind; [apply enforce_st_returns|].
  intros c _. now apply returns_ret.
Qed.

Lemma e_step_st_returns X means cov :
  st_returns (_e_step_st torch_exp log_density mvn_valid self X means cov)
             (fun _ => True).
Proof.
  unfold _e_step_st. repeat returns_step.
  rewrite mvn_always_valid. repeat returns_step. now apply returns_ret.
Qed.

Lemma init_params_st_returns X means cov :
  st_returns (init_params_st rng self X means cov) (fun _ => True).
Proof.
  unfold init_params_st. returns_step.
  eapply returns_bind with (Q := fun _ => True).
  { destruct means as [m|]; [now apply returns_ret|].
    repeat returns_step. now apply returns_ret. }
  intros m _.
  eapply returns_bind with (Q := fun _ => True).
  { destruct cov as [c|]; [now apply returns_ret | apply returns_alloc]. }
  intros c _. repeat returns_step.
  eapply returns_bind; [apply enforce_st_returns|].
  intros c' _. now apply returns_ret.
Qed.

Lemma em_body_st_returns data st :
  st_returns (em_body_st torch_exp log_density mvn_valid self data st)
             (fun st' => lr_body st' <> None).
Proof.
  unfold em_body_st.
  eapply returns_bind; [apply e_step_st_returns|]. intros rl _.
  eapply returns_bind; [apply m_step_st_returns|]. intros mcp _.
  apply returns_ret. discriminate.
Qed.

Lemma for_each_st_returns data iters : forall st,
  iters <> [] \/ lr_body st <> None ->
  st_returns (for_each_st torch_exp log_density mvn_valid self data iters st)
             (fun st' => lr_body st' <> None).
Proof.
  induction iters as [|i iters IH]; intros st H; cbn [for_each_st].
  - apply returns_ret. destruct H as [H|H]; [congruence | exact H].
  - eapply returns_bind; [apply em_body_st_returns|].
    intros st' Hst'. apply IH. now right.
Qed.

Lemma forward_st_returns data means cov :
  (1 <= n_iter self)%nat ->
  st_returns (forward_st torch_exp log_density mvn_valid rng self
                         data means cov)
             (fun _ => True).
Proof.
  intros Hn. unfold forward_st. returns_step.
  eapply returns_bind; [apply init_params_st_returns|]. intros mc _.
  eapply returns_bind.
  { apply for_each_st_returns. left. unfold range.
    destruct (n_iter self); [lia | discriminate]. }
  intros st Hst. cbv beta in Hst. revert Hst.
  destruct (lr_body st) as [[[r l] p]|]; intros Hst;
    [now apply returns_ret | congruence].
Qed.
End Returns.

Lemma nth_of_nth_error {A} (l l' : list A) k d :
  nth_error l' k = nth_error l k -> nth k l' d = nth k l d.
Proof.
  intros H. rewrite <- !nth_default_eq. unfold nth_default. now rewrite H.
Qed.

(** C10.  Whenever [forward] returns, every storage cell that existed
    before the call holds the tensor it held before: the caller's data and
    any means or covariance it supplied read the same afterwards, although
    the constraint step assigns into its argument for the spherical and
    tied types. *)
Theorem forward_preserves_inputs
    (torch_exp : R -> R)
    (log_density : nat -> (nat -> R) -> (nat -> R) -> (nat -> nat -> R) -> R)
    (mvn_valid : tensor -> tensor -> bool) (rng : list nat -> R)
    (self : GaussianMixture) (data : tref) (means cov : option tref)
    (sigma sigma' : store) (r : bundle_ref) :
  forward_st torch_exp log_density mvn_valid rng self data means cov sigma
  = Return (r, sigma') ->
  (forall l, (l < length sigma)%nat -> nth_error sigma' l = nth_error sigma l) /\
  (forall h, (loc h < length sigma)%nat -> deref h sigma' = deref h sigma) /\
  ((loc data < length sigma)%nat -> deref data sigma' = deref data sigma) /\
  (forall m, means = Some m -> (loc m < length sigma)%nat ->
     deref m sigma' = deref m sigma) /\
  (forall c, cov = Some c -> (loc c < length sigma)%nat ->
     deref c sigma' = deref c sigma).
Proof.
  intros E.
  pose proof (forward_st_safe torch_exp log_density mvn_valid rng self
                (length sigma) data means cov sigma (le_n _)) as H.
  rewrite E in H. destruct H as [[_ H] _].
  assert (Hd : forall h, (loc h < length sigma)%nat ->
                 deref h sigma' = deref h sigma).
  { intros h Hh. unfold deref, cell. f_equal.
    apply nth_of_nth_error. now apply H. }
  split; [exact H|]. split; [exact Hd|]. split; [apply Hd|].
  split; intros h _; apply Hd.
Qed.

Lemma forward_preserves_inputs_witness :
  exists r sigma',
    example_forward_st = Return (r, sigma') /\
    deref (base_ref 0) sigma' = example_data /\
    deref (base_ref 1) sigma' = mkT [1; 1; 1]%nat (fun _ => 1).
Proof.
  destruct (forward_st_returns exp (fun _ _ _ _ => 0) (fun _ _ => true)
              (fun _ => 0) example_model (fun _ _ => eq_refl)
              (base_ref 0) None (Some (base_ref 1))
              (le_S _ _ (le_S _ _ (le_S _ _ (le_S _ _ (le_n 1)))))
              example_store)
    as (r & sigma' & E & _).
  exists r, sigma'. split; [exact E|].
  destruct (forward_preserves_inputs _ _ _ _ _ _ _ _ _ _ _ E)
    as (_ & Hd & _).
  split; [exact (Hd (base_ref 0) Nat.lt_0_2)
         | exact (Hd (base_ref 1) Nat.lt_1_2)].
Defined.

(** ** The store model computes what the value model computes *)

(** *** Running the store model on a symbolic store *)

Lemma bind_ret {A B} (a : A) (k : A -> M B) sigma :
  st_bind (st_ret a) k sigma = k a sigma.
Proof. reflexivity. Qed.

Lemma bind_load {B} h (k : tensor -> M B) sigma :
  st_bind (load h) k sigma = k (deref h sigma) sigma.
Proof. reflexivity. Qed.

Lemma bind_alloc {B} v (k : tref -> M B) sigma :
  st_bind (alloc v) k sigma = k (base_ref (length sigma)) (sigma ++ [v]).
Proof. reflexivity. Qed.

Lemma bind_new1 {B} f a (k : tref -> M B) sigma :
  st_bind (new1 f a) k sigma
  = k (base_ref (length sigma)) (sigma ++ [f (deref a sigma)]).
Proof. reflexivity. Qed.

Lemma bind_new2 {B} f a b (k : tref -> M B) sigma :
  st_bind (new2 f a b) k sigma
  = k (base_ref (length sigma))
      (sigma ++ [f (deref a sigma) (deref b sigma)]).
Proof. reflexivity. Qed.

Lemma bind_store_all {B} h v (k : unit -> M B) sigma :
  st_bind (store_all h v) k sigma
  = k tt (upd (loc h)
              (put h (setitem_all (deref h sigma) v) (cell sigma (loc h)))
              sigma).
Proof. reflexivity. Qed.

Lemma bind_bind {A B C} (m : M A) (k1 : A -> M B) (k2 : B -> M C) sigma :
  st_bind (st_bind m k1) k2 sigma
  = st_bind m (fun a => st_bind (k1 a) k2) sigma.
Proof. unfold st_bind. destruct (m sigma) as [[a s]|e]; reflexivity. Qed.

Lemma deref_base_new sigma tau k :
  deref (base_ref (length sigma + k)) (sigma ++ tau) = nth k tau dummy.
Proof.
  unfold deref, cell. cbn [loc get base_ref].
  rewrite app_nth2 by lia. f_equal. lia.
Qed.

Lemma deref_view f g h sigma :
  deref (as_view f g h) sigma = f (deref h sigma).
Proof. reflexivity. Qed.

Lemma deref_old h sigma tau :
  (loc h < length sigma)%nat -> deref h (sigma ++ tau) = deref h sigma.
Proof. intros H. unfold deref, cell. now rewrite app_nth1. Qed.

Lemma cell_new sigma tau k :
  cell (sigma ++ tau) (length sigma + k) = nth k tau dummy.
Proof. unfold cell. rewrite app_nth2 by lia. f_equal. lia. Qed.

Lemma upd_new {A} (sigma tau : list A) k x :
  upd (length sigma + k) x (sigma ++ tau) = sigma ++ upd k x tau.
Proof.
  induction sigma as [|a sigma IH]; [reflexivity|]. cbn. now rewrite IH.
Qed.

Lemma app_snoc {A} (sigma tau : list A) v :
  (sigma ++ tau) ++ [v] = sigma ++ (tau ++ [v]).
Proof. now rewrite app_assoc. Qed.

Lemma upd_old {A} (sigma tau : list A) l x :
  (l < length sigma)%nat -> upd l x (sigma ++ tau) = upd l x sigma ++ tau.
Proof.
  revert l; induction sigma as [|a sigma IH]; intros [|l] H; cbn in *;
    try lia; [reflexivity|].
  rewrite IH by lia. reflexivity.
Qed.

Lemma nth_upd_same {A} (sigma : list A) l x d :
  (l < length sigma)%nat -> nth l (upd l x sigma) d = x.
Proof.
  revert l; induction sigma as [|a sigma IH]; intros [|l] H; cbn in *;
    try lia; [reflexivity|].
  apply IH. lia.
Qed.

Lemma deref_base_upd sigma tau l x :
  (l < length sigma)%nat ->
  deref (base_ref l) (upd l x sigma ++ tau) = x.
Proof.
  intros H. unfold deref, cell. cbn [loc get base_ref].
  rewrite app_nth1 by (rewrite length_upd; lia). now apply nth_upd_same.
Qed.

Lemma deref_base_new_upd sigma tau l x k :
  deref (base_ref (length sigma + k)) (upd l x sigma ++ tau) = nth k tau dummy.
Proof.
  rewrite <- (length_upd l x sigma). apply deref_base_new.
Qed.

Lemma upd_new_upd (sigma tau : store) l x k y :
  upd (length sigma + k) y (upd l x sigma ++ tau)
  = upd l x sigma ++ upd k y tau.
Proof.
  rewrite <- (length_upd l x sigma) at 1. apply upd_new.
Qed.

Ltac norm_store :=
  cbv beta iota;
  unfold view_ref, unsqueeze_ref, squeeze_ref, permute_ref, expand_ref;
  rewrite ?app_snoc, ?length_app, ?length_upd;
  cbn [app length];
  repeat rewrite deref_view;
  rewrite ?deref_base_new, ?deref_base_new_upd, ?cell_new, ?upd_new,
    ?upd_new_upd;
  cbn [nth upd loc base_ref put get].

Ltac run1 :=
  first
    [ rewrite bind_bind | rewrite bind_load | rewrite bind_alloc
    | rewrite bind_new1 | rewrite bind_new2 | rewrite bind_store_all
    | rewrite bind_ret ];
  norm_store.

Lemma cell_of_nth_error (sigma sigma' : store) k :
  nth_error sigma' k = nth_error sigma k -> cell sigma' k = cell sigma k.
Proof. apply nth_of_nth_error. Qed.

Lemma deref_frame (sigma sigma' : store) n l h :
  (forall k, (k < n)%nat -> k <> l -> nth_error sigma' k = nth_error sigma k) ->
  (loc h < n)%nat -> loc h <> l -> deref h sigma' = deref h sigma.
Proof.
  intros H Hn Hl. unfold deref. f_equal. apply cell_of_nth_error. now apply H.
Qed.

Lemma deref_agrees n sigma sigma' h :
  agrees_below n sigma sigma' -> (loc h < n)%nat ->
  deref h sigma' = deref h sigma.
Proof.
  intros [_ H] Hh. unfold deref. f_equal.
  apply cell_of_nth_error. now apply H.
Qed.

Lemma valid_agrees n sigma sigma' h :
  agrees_below n sigma sigma' -> valid sigma h -> valid sigma' h.
Proof. intros [H _] Hh. unfold valid in *. lia. Qed.

Section Refine.
Variable torch_exp : R -> R.
Variable log_density :
  nat -> (nat -> R) -> (nat -> R) -> (nat -> nat -> R) -> R.
Variable mvn_valid : tensor -> tensor -> bool.
Variable rng : list nat -> R.
Variable self : GaussianMixture.

Lemma enforce_st_refines l sigma :
  (l < length sigma)%nat ->
  exists h' sigma',
    _enforce_covariance_type_st self (base_ref l) sigma = Return (h', sigma') /\
    (length sigma <= length sigma')%nat /\
    (forall k, (k < length sigma)%nat -> k <> l ->
       nth_error sigma' k = nth_error sigma k) /\
    valid sigma' h' /\
    deref h' sigma' = _enforce_covariance_type self (cell sigma l).
Proof.
  intros Hl. unfold _enforce_covariance_type.
  set (c := cell sigma l).
  enough (H : forall s0, s0 = sigma ++ [] ->
            exists h' sigma',
              _enforce_covariance_type_st self (base_ref l) s0
              = Return (h', sigma') /\
              (length sigma <= length sigma')%nat /\
              (forall k, (k < length sigma)%nat -> k <> l ->
                 nth_error sigma' k = nth_error sigma k) /\
              valid sigma' h' /\
              deref h' sigma' = _enforce_covariance_type self c)
    by (apply H; now rewrite app_nil_r).
  intros s0 ->. unfold _enforce_covariance_type_st, _enforce_covariance_type.
  assert (Hc : deref (base_ref l) sigma = c) by reflexivity.
  assert (Hold : forall tau, deref (base_ref l) (sigma ++ tau) = c)
    by (intros tau; now rewrite deref_old).
  assert (Hcell : forall tau, cell (sigma ++ tau) l = c)
    by (intros tau; apply (Hold tau)).
  cbv zeta. unfold reshape.
  destruct (contains "spherical" (covariance_type self)),
    (contains "diag" (covariance_type self)),
    (contains "tied" (covariance_type self));
    repeat (run1; rewrite ?Hold, ?Hcell, ?upd_old, ?deref_base_upd by exact Hl;
            norm_store);
    (do 2 eexists; split; [reflexivity|];
     rewrite ?length_app, ?length_upd; cbn [length];
     split; [lia|]; split;
     [ intros k Hk Hkl;
       rewrite ?nth_error_app1 by (rewrite ?length_upd; lia);
       rewrite ?nth_error_upd_other by lia; reflexivity
     | split;
       [ unfold valid; cbn [loc base_ref];
         rewrite ?length_app, ?length_upd; cbn [length]; lia
       | norm_store; rewrite ?Hold, ?deref_base_upd by exact Hl;
         reflexivity ] ]).
Qed.

Lemma bind_eq {A B} (m : M A) (k : A -> M B) sigma a sigma' :
  m sigma = Return (a, sigma') -> st_bind m k sigma = k a sigma'.
Proof. intros E. unfold st_bind. now rewrite E. Qed.

Lemma m_step_st_refines X resp sigma :
  valid sigma X -> valid sigma resp ->
  exists hm hc hp sigma',
    _m_step_st self X resp sigma = Return ((hm, hc, hp), sigma') /\
    agrees_below (length sigma) sigma sigma' /\
    valid sigma' hm /\ valid sigma' hc /\ valid sigma' hp /\
    (deref hm sigma', deref hc sigma', deref hp sigma')
    = _m_step self (deref X sigma) (deref resp sigma).
Proof.
  intros HX Hr.
  set (vX := deref X sigma). set (vr := deref resp sigma).
  assert (HoX : forall tau, deref X (sigma ++ tau) = vX)
    by (intros tau; now apply deref_old).
  assert (Hor : forall tau, deref resp (sigma ++ tau) = vr)
    by (intros tau; now apply deref_old).
  enough (H : forall s0, s0 = sigma ++ [] ->
            exists hm hc hp sigma',
              _m_step_st self X resp s0 = Return ((hm, hc, hp), sigma') /\
              agrees_below (length sigma) sigma sigma' /\
              valid sigma' hm /\ valid sigma' hc /\ valid sigma' hp /\
              (deref hm sigma', deref hc sigma', deref hp sigma')
              = _m_step self vX vr)
    by (apply H; now rewrite app_nil_r).
  intros s0 ->. unfold _m_step_st, _m_step. cbv zeta.
  do 11 (run1; rewrite ?HoX, ?Hor).
  match goal with
  | |- context [st_bind (_enforce_covariance_type_st _ (base_ref ?l)) _ ?s] =>
    destruct (enforce_st_refines l s) as (hc & s' & E & Hlen & Hfr & Hv & Hd);
      [rewrite length_app; cbn [length]; lia|];
      rewrite (bind_eq _ _ _ _ _ E)
  end.
  rewrite length_app in Hlen, Hfr. cbn [length] in Hlen, Hfr.
  rewrite cell_new in Hd. cbn [nth] in Hd.
  do 4 eexists. split; [reflexivity|].
  assert (Hcell : forall k, (k < length sigma + 9)%nat ->
            k <> (length sigma + 8)%nat ->
            cell s' k = cell (sigma ++ _) k)
    by (intros k H1 H2; apply cell_of_nth_error, Hfr; lia).
  split.
  { split; [lia|]. intros k Hk. rewrite Hfr by lia.
    apply nth_error_app1. exact Hk. }
  split; [unfold valid; cbn [loc as_view base_ref]; lia|].
  split; [exact Hv|].
  split; [unfold valid; cbn [loc as_view base_ref]; lia|].
  rewrite Hd. rewrite deref_view. unfold deref. cbn [loc get base_ref].
  rewrite !Hcell by lia. rewrite !cell_new. cbn [nth]. reflexivity.
Qed.

Lemma e_step_st_refines X means cov sigma :
  valid sigma X -> valid sigma means -> valid sigma cov ->
  match _e_step_st torch_exp log_density mvn_valid self X means cov sigma with
  | Return ((hr, hl), sigma') =>
    agrees_below (length sigma) sigma sigma' /\
    valid sigma' hr /\ valid sigma' hl /\
    _e_step torch_exp log_density mvn_valid self
            (deref X sigma) (deref means sigma) (deref cov sigma)
    = Return (deref hr sigma', deref hl sigma')
  | Raise e =>
    _e_step torch_exp log_density mvn_valid self
            (deref X sigma) (deref means sigma) (deref cov sigma)
    = Raise e
  end.
Proof.
  intros HX Hm Hc.
  set (vX := deref X sigma). set (vm := deref means sigma).
  set (vc := deref cov sigma).
  assert (HoX : forall tau, deref X (sigma ++ tau) = vX)
    by (intros tau; now apply deref_old).
  assert (Hom : forall tau, deref means (sigma ++ tau) = vm)
    by (intros tau; now apply deref_old).
  assert (Hoc : forall tau, deref cov (sigma ++ tau) = vc)
    by (intros tau; now apply deref_old).
  enough (H : forall s0, s0 = sigma ++ [] ->
    match _e_step_st torch_exp log_density mvn_valid self X means cov s0 with
    | Return ((hr, hl), sigma') =>
      agrees_below (length sigma) sigma sigma' /\
      valid sigma' hr /\ valid sigma' hl /\
      _e_step torch_exp log_density mvn_valid self vX vm vc
      = Return (deref hr sigma', deref hl sigma')
    | Raise e =>
      _e_step torch_exp log_density mvn_valid self vX vm vc = Raise e
    end)
    by (apply H; now rewrite app_nil_r).
  intros s0 ->. unfold _e_step_st, _e_step. cbv zeta.
  do 4 (run1; rewrite ?HoX, ?Hom, ?Hoc).
  destruct (mvn_valid _ _); [|reflexivity].
  do 5 (run1; rewrite ?HoX, ?Hom, ?Hoc).
  unfold st_ret. split.
  { split; [rewrite length_app; lia|]. intros k Hk.
    apply nth_error_app1. exact Hk. }
  split; [unfold valid; cbn [loc base_ref]; rewrite length_app; cbn; lia|].
  split; [unfold valid; cbn [loc base_ref]; rewrite length_app; cbn; lia|].
  norm_store. reflexivity.
Qed.

Lemma init_params_st_refines X means cov sigma :
  valid sigma X -> valid_opt sigma means -> valid_opt sigma cov ->
  exists hm hc sigma',
    init_params_st rng self X means cov sigma = Return ((hm, hc), sigma') /\
    agrees_below (length sigma) sigma sigma' /\
    valid sigma' hm /\ valid sigma' hc /\
    (deref hm sigma', deref hc sigma')
    = init_params rng self (deref X sigma)
                  (read_opt sigma means) (read_opt sigma cov).
Proof.
  intros HX Hm Hc.
  set (vX := deref X sigma).
  assert (HoX : forall tau, deref X (sigma ++ tau) = vX)
    by (intros tau; now apply deref_old).
  enough (H : forall s0, s0 = sigma ++ [] ->
    exists hm hc sigma',
      init_params_st rng self X means cov s0 = Return ((hm, hc), sigma') /\
      agrees_below (length sigma) sigma sigma' /\
      valid sigma' hm /\ valid sigma' hc /\
      (deref hm sigma', deref hc sigma')
      = init_params rng self vX (read_opt sigma means) (read_opt sigma cov))
    by (apply H; now rewrite app_nil_r).
  intros s0 ->. unfold init_params_st, init_params. cbv zeta.
  unfold reshape, iadd.
  run1; rewrite ?HoX.
  destruct means as [m|], cov as [c|]; cbn [read_opt valid_opt] in *;
    repeat (run1; rewrite ?HoX, ?(deref_old m), ?(deref_old c) by assumption);
    unfold rank;
    match goal with
    | |- context [(length (shape ?t) <? 4)%nat] =>
      destruct (length (shape t) <? 4)%nat
    end;
    repeat (run1; rewrite ?HoX, ?(deref_old m), ?(deref_old c) by assumption);
    match goal with
    | |- context [st_bind (_enforce_covariance_type_st _ (base_ref ?l)) _ ?s] =>
      destruct (enforce_st_refines l s) as (hc & s' & E & Hlen & Hfr & Hv & Hd);
        [rewrite length_app; cbn [length]; lia|];
        rewrite (bind_eq _ _ _ _ _ E)
    end;
    rewrite length_app in Hlen, Hfr; cbn [length] in Hlen, Hfr;
    rewrite cell_new in Hd; cbn [nth] in Hd;
    (do 3 eexists; split; [reflexivity|]);
    (split;
     [ split; [lia|]; intros k Hk; rewrite Hfr by lia;
       apply nth_error_app1; exact Hk |]);
    (split; [unfold valid in *; cbn [loc as_view base_ref]; lia|]);
    (split; [exact Hv|]);
    rewrite Hd; f_equal;
    rewrite ?(deref_frame _ _ _ _ _ Hfr)
      by (unfold valid in *; cbn [loc as_view base_ref]; lia);
    norm_store;
    rewrite ?HoX, ?(deref_old m), ?(deref_old c) by assumption;
    reflexivity.
Qed.

Lemma em_body_st_refines data st sigma :
  valid sigma data -> valid_locals sigma st ->
  match em_body_st torch_exp log_density mvn_valid self data st sigma with
  | Return (st', sigma') =>
    agrees_below (length sigma) sigma sigma' /\
    valid_locals sigma' st' /\
    em_body torch_exp log_density mvn_valid self
            (deref data sigma) (read_locals sigma st)
    = Return (read_locals sigma' st')
  | Raise e =>
    em_body torch_exp log_density mvn_valid self
            (deref data sigma) (read_locals sigma st)
    = Raise e
  end.
Proof.
  intros Hd (Hm & Hc & _). unfold em_body_st, em_body.
  cbn [read_locals l_means l_covariance].
  pose proof (e_step_st_refines data (lr_means st) (lr_covariance st) sigma
                Hd Hm Hc) as He.
  unfold st_bind at 1.
  destruct (_e_step_st _ _ _ _ _ _ _ sigma) as [[[hr hl] s1]|e];
    [|rewrite He; reflexivity].
  destruct He as (Ha1 & Hvr & Hvl & ->). cbn [res_bind fst snd].
  destruct (m_step_st_refines data hr s1) as
    (hm & hc & hp & s2 & E & Ha2 & Hvm & Hvc & Hvp & Ev);
    [now apply (valid_agrees _ _ _ _ Ha1) | exact Hvr|].
  rewrite (bind_eq _ _ _ _ _ E). cbn [st_ret fst snd].
  rewrite (deref_agrees _ _ _ data Ha1) in Ev by exact Hd.
  rewrite <- Ev.
  split; [now apply (agrees_below_trans _ sigma s1 s2);
          [|destruct Ha1, Ha2; split; [lia|]; intros; apply H2; lia]|].
  split.
  { repeat split; try assumption; now apply (valid_agrees _ _ _ _ Ha2). }
  unfold read_locals. cbn [lr_means lr_covariance lr_body].
  now rewrite (deref_agrees _ _ _ hr Ha2), (deref_agrees _ _ _ hl Ha2).
Qed.

Lemma for_each_st_refines data iters : forall st sigma,
  valid sigma data -> valid_locals sigma st ->
  match for_each_st torch_exp log_density mvn_valid self data iters st sigma with
  | Return (st', sigma') =>
    agrees_below (length sigma) sigma sigma' /\
    valid_locals sigma' st' /\
    for_each torch_exp log_density mvn_valid self
             (deref data sigma) iters (read_locals sigma st)
    = Return (read_locals sigma' st')
  | Raise e =>
    for_each torch_exp log_density mvn_valid self
             (deref data sigma) iters (read_locals sigma st)
    = Raise e
  end.
Proof.
  induction iters as [|i iters IH]; intros st sigma Hd Hst;
    cbn [for_each_st for_each].
  - cbn [st_ret]. split; [apply agrees_below_refl|]. now split.
  - pose proof (em_body_st_refines data st sigma Hd Hst) as Hb.
    unfold st_bind.
    destruct (em_body_st _ _ _ _ _ _ sigma) as [[st1 s1]|e];
      [|rewrite Hb; reflexivity].
    destruct Hb as (Ha1 & Hv1 & ->). cbn [res_bind].
    specialize (IH st1 s1 (valid_agrees _ _ _ _ Ha1 Hd) Hv1).
    rewrite (deref_agrees _ _ _ data Ha1) in IH by exact Hd.
    destruct (for_each_st _ _ _ _ _ _ _ s1) as [[st2 s2]|e]; [|exact IH].
    destruct IH as (Ha2 & Hv2 & ->).
    split; [|now split].
    apply (agrees_below_trans _ sigma s1 s2); [exact Ha1|].
    destruct Ha1, Ha2. split; [lia|]. intros; apply H2; lia.
Qed.

(** X1.  The store model and the value model agree: run from a store in
    which the caller's tensors are live, [forward] on tensor objects
    returns objects that read, in the final store, exactly the bundle
    [forward] computes from the values the inputs read initially, and it
    raises exactly when that does.  The in-place assignments of the
    constraint step are therefore invisible in the values. *)
Theorem forward_st_refines data means cov sigma :
  valid sigma data -> valid_opt sigma means -> valid_opt sigma cov ->
  match forward_st torch_exp log_density mvn_valid rng self
                   data means cov sigma with
  | Return (r, sigma') =>
    forward torch_exp log_density mvn_valid rng self (deref data sigma)
            (read_opt sigma means) (read_opt sigma cov)
    = Return (read_bundle sigma' r)
  | Raise e =>
    forward torch_exp log_density mvn_valid rng self (deref data sigma)
            (read_opt sigma means) (read_opt sigma cov)
    = Raise e
  end.
Proof.
  intros Hd Hm Hc. unfold forward_st, forward. cbv zeta.
  rewrite bind_load.
  set (sizes := [Some (hd O (shape (deref data sigma))); None;
                 Some (last (shape (deref data sigma)) O)]).
  set (X := view_ref sizes data).
  assert (HX : valid sigma X) by exact Hd.
  assert (EX : deref X sigma = view sizes (deref data sigma)) by reflexivity.
  destruct (init_params_st_refines X means cov sigma HX Hm Hc)
    as (hm & hc & s1 & E & Ha1 & Hvm & Hvc & Ev).
  rewrite (bind_eq _ _ _ _ _ E). cbn [fst snd].
  rewrite EX in Ev. rewrite <- Ev. cbv beta iota.
  pose proof (for_each_st_refines X (range (n_iter self))
                (mkLocalsRef hm hc None) s1
                (valid_agrees _ _ _ _ Ha1 HX)
                (conj Hvm (conj Hvc I))) as Hl.
  rewrite (deref_agrees _ _ _ X Ha1), EX in Hl by exact HX.
  unfold st_bind.
  destruct (for_each_st _ _ _ _ _ _ _ s1) as [[st s2]|e].
  - destruct Hl as (Ha2 & Hv2 & Hl).
    unfold read_locals in Hl. cbn [lr_means lr_covariance lr_body] in Hl.
    rewrite Hl. cbn [res_bind l_body l_means l_covariance].
    destruct (lr_body st) as [[[r l] p]|]; reflexivity.
  - unfold read_locals in Hl. cbn [lr_means lr_covariance lr_body] in Hl.
    rewrite Hl. reflexivity.
Qed.
End Refine.

Lemma forward_st_refines_witness :
  exists r sigma',
    example_forward_st = Return (r, sigma') /\
    forward exp (fun _ _ _ _ => 0) (fun _ _ => true) (fun _ => 0)
            example_model example_data None
            (Some (mkT [1; 1; 1]%nat (fun _ => 1)))
    = Return (read_bundle sigma' r).
Proof.
  destruct (forward_st_returns exp (fun _ _ _ _ => 0) (fun _ _ => true)
              (fun _ => 0) example_model (fun _ _ => eq_refl)
              (base_ref 0) None (Some (base_ref 1))
              (le_S _ _ (le_S _ _ (le_S _ _ (le_S _ _ (le_n 1)))))
              example_store)
    as (r & sigma' & E & _).
  exists r, sigma'. split; [exact E|].
  pose proof (forward_st_refines exp (fun _ _ _ _ => 0) (fun _ _ => true)
                (fun _ => 0) example_model (base_ref 0) None
                (Some (base_ref 1)) example_store
                Nat.lt_0_2 I Nat.lt_1_2) as H.
  unfold example_forward_st in E. rewrite E in H. exact H.
Defined.

(** ** The covariance constraint, for every type string *)
Lemma enforce_spec self cov B K F :
  shape cov = [B; K; F; F] ->
  shape (_enforce_covariance_type self cov) = [B; K; F; F] /\
  forall b k i j, (b < B)%nat -> (k < K)%nat -> (i < F)%nat -> (j < F)%nat ->
    item (_enforce_covariance_type self cov) [b; k; i; j]
    = constrained (contains "spherical" (covariance_type self))
                  (contains "diag" (covariance_type self))
                  (contains "tied" (covariance_type self)) K F
                  (fun k i j => item cov [b; k; i; j]) k i j.
Proof.
  intros Hshape. split; [now apply enforce_shape|].
  unfold _enforce_covariance_type, constrained, matrix_mean. cbv zeta.
  destruct cov as [sc c]. cbn [shape] in Hshape. subst sc.
  cbn [shape last]. abstract_mask F m Hm.
  intros b k i j Hb Hk Hi Hj.
  destruct (contains "spherical" _), (contains "diag" _),
    (contains "tied" _); cbn; bsimpl;
    try (apply (f_equal (fun x => x / INR K)); apply sum_upto_ext;
         intros k' Hk'; bsimpl);
    rewrite ?Hm by assumption; destruct (i =? j)%nat; lra.
Qed.

(** *** Algebra of the three blocks *)

Lemma sum_upto_delta n j v :
  (j < n)%nat -> sum_upto n (fun i => if (i =? j)%nat then v else 0) = v.
Proof.
  induction n as [|n IH]; intros Hj; [lia|]. cbn [sum_upto].
  destruct (Nat.eqb_spec n j) as [->|Hne].
  - rewrite (sum_upto_ext j _ (fun _ => 0)).
    + rewrite sum_upto_const. lra.
    + intros i Hi. destruct (Nat.eqb_spec i j); [lia | reflexivity].
  - rewrite IH by lia. lra.
Qed.

Lemma matrix_mean_ext F m m' :
  (forall i j, (i < F)%nat -> (j < F)%nat -> m i j = m' i j) ->
  matrix_mean F m = matrix_mean F m'.
Proof.
  intros H. unfold matrix_mean. f_equal. apply sum_upto_ext. intros j Hj.
  f_equal. apply sum_upto_ext. intros i Hi. now apply H.
Qed.

Lemma matrix_mean_scalar F v :
  (0 < F)%nat ->
  matrix_mean F (fun i j => if (i =? j)%nat then v else 0) = v / INR F.
Proof.
  intros HF. unfold matrix_mean.
  rewrite (sum_upto_ext F _ (fun _ => v / INR F)).
  - rewrite sum_upto_const. field. pose proof (INR_pos F HF). lra.
  - intros j Hj. now rewrite sum_upto_delta.
Qed.

Lemma matrix_mean_ge F m r :
  (0 < F)%nat ->
  (forall i j, (i < F)%nat -> (j < F)%nat -> r <= m i j) ->
  r <= matrix_mean F m.
Proof.
  intros HF H. unfold matrix_mean.
  apply mean_ge_floor; [exact HF|]. intros j Hj.
  apply mean_ge_floor; [exact HF|]. intros i Hi. now apply H.
Qed.

Lemma mean_const n v : (0 < n)%nat -> sum_upto n (fun _ => v) / INR n = v.
Proof.
  intros Hn. rewrite sum_upto_const. field. pose proof (INR_pos n Hn). lra.
Qed.

Lemma constrained_ext sph dg td K F c c' k i j :
  (forall k i j, (k < K)%nat -> (i < F)%nat -> (j < F)%nat ->
     c k i j = c' k i j) ->
  (k < K)%nat -> (i < F)%nat -> (j < F)%nat ->
  constrained sph dg td K F c k i j = constrained sph dg td K F c' k i j.
Proof.
  intros H Hk Hi Hj. unfold constrained. cbv zeta.
  assert (Hm : forall k, (k < K)%nat ->
                 matrix_mean F (c k) = matrix_mean F (c' k)).
  { intros k0 Hk0. apply matrix_mean_ext. intros. now apply H. }
  destruct sph, dg, td;
    try (apply (f_equal (fun x => x / INR K)); apply sum_upto_ext;
         intros k' Hk');
    rewrite ?Hm, ?H by assumption; reflexivity.
Qed.

(** The result of the three blocks, whatever the tests: a diagonal scaling
    when one of the first two ran, the component mean when the third ran. *)
Lemma constrained_offdiag sph dg td K F c k i j :
  sph || dg = true -> i <> j -> constrained sph dg td K F c k i j = 0.
Proof.
  intros H Hij. unfold constrained. cbv zeta.
  apply Nat.eqb_neq in Hij.
  destruct sph, dg; try discriminate H; destruct td; rewrite ?Hij;
    cbv beta iota; try reflexivity; rewrite sum_upto_const; lra.
Qed.

Lemma constrained_isotropic dg td K F c k i i' :
  constrained true dg td K F c k i i = constrained true dg td K F c k i' i'.
Proof.
  unfold constrained. cbv zeta. rewrite !Nat.eqb_refl.
  destruct dg, td; reflexivity.
Qed.

Lemma constrained_tied sph dg K F c k k' i j :
  constrained sph dg true K F c k i j = constrained sph dg true K F c k' i j.
Proof. reflexivity. Qed.

Lemma constrained_symmetric sph dg td K F c k i j :
  (forall k i j, (k < K)%nat -> (i < F)%nat -> (j < F)%nat ->
     c k i j = c k j i) ->
  (k < K)%nat -> (i < F)%nat -> (j < F)%nat ->
  constrained sph dg td K F c k i j = constrained sph dg td K F c k j i.
Proof.
  intros H Hk Hi Hj. unfold constrained. cbv zeta.
  rewrite (Nat.eqb_sym j i).
  destruct sph, dg, td;
    try (apply (f_equal (fun x => x / INR K)); apply sum_upto_ext;
         intros k' Hk');
    rewrite ?(H _ i j) by assumption; reflexivity.
Qed.

Lemma constrained_diag_ge sph dg td K F c r k i :
  (forall k i j, (k < K)%nat -> (i < F)%nat -> (j < F)%nat -> r <= c k i j) ->
  (k < K)%nat -> (i < F)%nat ->
  r <= constrained sph dg td K F c k i i.
Proof.
  intros H Hk Hi. unfold constrained. cbv zeta. rewrite Nat.eqb_refl.
  assert (HF : (0 < F)%nat) by lia. assert (HK : (0 < K)%nat) by lia.
  assert (Hm : forall k, (k < K)%nat -> r <= matrix_mean F (c k)).
  { intros k0 Hk0. apply matrix_mean_ge; [exact HF|]. intros. now apply H. }
  destruct sph, dg, td;
    try (apply mean_ge_floor; [exact HK|]; intros k' Hk');
    auto.
Qed.

Lemma constrained_nonneg sph dg td K F c k i j :
  (forall k i j, (k < K)%nat -> (i < F)%nat -> (j < F)%nat -> 0 <= c k i j) ->
  (k < K)%nat -> (i < F)%nat -> (j < F)%nat ->
  0 <= constrained sph dg td K F c k i j.
Proof.
  intros H Hk Hi Hj. unfold constrained. cbv zeta.
  assert (HF : (0 < F)%nat) by lia. assert (HK : (0 < K)%nat) by lia.
  assert (Hm : forall k, (k < K)%nat -> 0 <= matrix_mean F (c k)).
  { intros k0 Hk0. apply matrix_mean_ge; [exact HF|]. intros. now apply H. }
  destruct sph, dg, td;
    try (apply mean_ge_floor; [exact HK|]; intros k' Hk');
    destruct (i =? j)%nat; auto; lra.
Qed.

Lemma constrained_idem dg td K F c k i j :
  (k < K)%nat ->
  constrained false dg td K F (constrained false dg td K F c) k i j
  = constrained false dg td K F c k i j.
Proof.
  intros Hk. assert (HK : (0 < K)%nat) by lia.
  unfold constrained. cbv zeta.
  destruct dg, td, (i =? j)%nat; cbv beta iota; try reflexivity;
    apply mean_const; exact HK.
Qed.

Lemma constrained_spherical_twice dg td K F c k i j :
  (k < K)%nat -> (i < F)%nat -> (j < F)%nat ->
  constrained true dg td K F (constrained true dg td K F c) k i j
  = constrained true dg td K F c k i j / INR F.
Proof.
  intros Hk Hi Hj.
  assert (HK : (0 < K)%nat) by lia. assert (HF : (0 < F)%nat) by lia.
  pose proof (INR_pos F HF) as HFp. pose proof (INR_pos K HK) as HKp.
  assert (Em : forall k0, matrix_mean F (constrained true dg td K F c k0)
                 = constrained true dg td K F c k0 0%nat 0%nat / INR F).
  { intros k0.
    rewrite (matrix_mean_ext F _
               (fun i j => if (i =? j)%nat
                           then constrained true dg td K F c k0 0%nat 0%nat
                           else 0)).
    - now apply matrix_mean_scalar.
    - intros i0 j0 _ _. destruct (Nat.eqb_spec i0 j0) as [->|Hne].
      + apply constrained_isotropic.
      + apply constrained_offdiag; [reflexivity | exact Hne]. }
  unfold constrained at 1. cbv zeta.
  destruct (Nat.eqb_spec i j) as [->|Hne].
  - rewrite (constrained_isotropic dg td K F c k j 0%nat).
    destruct td.
    + rewrite (sum_upto_ext K _
                 (fun _ => constrained true dg true K F c k 0%nat 0%nat
                           / INR F)).
      * now apply mean_const.
      * intros k' _. rewrite Em.
        rewrite (constrained_tied true dg K F c k' k). now destruct dg.
    + rewrite Em. now destruct dg.
  - rewrite (constrained_offdiag true dg td K F c k i j eq_refl Hne).
    destruct dg, td; cbv beta iota; rewrite ?sum_upto_const; lra.
Qed.

(** ** Further properties of the covariance constraint *)

(** X2.  The three conditional blocks of [_enforce_covariance_type]
    compose consistently for every [covariance_type] string, documented
    or not: whenever the string contains "spherical" or "diag" every
    off-diagonal entry of the result is 0; whenever it contains
    "spherical" the diagonal entries of each matrix are equal; whenever
    it contains "tied" the matrices of all components of a batch element
    are equal. *)
Theorem enforce_constraints_compose self cov B K F :
  shape cov = [B; K; F; F] ->
  let ct := covariance_type self in
  let out := _enforce_covariance_type self cov in
  (contains "spherical" ct = true \/ contains "diag" ct = true ->
     diagonal B K F out) /\
  (contains "spherical" ct = true -> isotropic B K F out) /\
  (contains "tied" ct = true -> tied_across B K F out).
Proof.
  intros Hs ct out. subst ct out.
  destruct (enforce_spec self cov B K F Hs) as [_ E].
  split; [|split].
  - intros H b k i j Hb Hk Hi Hj Hij. rewrite E by assumption.
    apply constrained_offdiag; [|exact Hij].
    destruct H as [-> | ->]; [reflexivity | apply orb_true_r].
  - intros H b k i i' Hb Hk Hi Hi'. rewrite !E by assumption.
    rewrite H. apply constrained_isotropic.
  - intros H b k k' i j Hb Hk Hk' Hi Hj. rewrite !E by assumption.
    rewrite H. apply constrained_tied.
Qed.

(** A type string naming two types: the result is both diagonal and
    tied. *)
Lemma enforce_constraints_compose_witness :
  let self := mkGaussianMixture 2 5 "tied_diag" 1 1e-4 in
  let cov := mkT [1; 2; 2; 2]%nat (fun idx => INR (nth 1 idx O) + 1) in
  let out := _enforce_covariance_type self cov in
  item out [0; 0; 0; 1]%nat = 0 /\
  item out [0; 0; 1; 1]%nat = item out [0; 1; 1; 1]%nat.
Proof.
  intros self cov out.
  destruct (enforce_constraints_compose self cov 1 2 2 eq_refl)
    as (Hd & _ & Ht).
  split.
  - apply (Hd (or_intror eq_refl)); try lia.
  - apply (Ht eq_refl); lia.
Defined.

(** X3.  [_enforce_covariance_type] keeps symmetry: if every matrix of
    the covariance is symmetric, so is every matrix of the result, for
    every [covariance_type] string. *)
Theorem enforce_preserves_symmetry self cov B K F :
  shape cov = [B; K; F; F] ->
  symmetric B K F cov ->
  symmetric B K F (_enforce_covariance_type self cov).
Proof.
  intros Hs Hsym b k i j Hb Hk Hi Hj.
  destruct (enforce_spec self cov B K F Hs) as [_ E].
  rewrite !E by assumption.
  apply constrained_symmetric; try assumption.
  intros k0 i0 j0 Hk0 Hi0 Hj0. now apply Hsym.
Qed.

Lemma enforce_preserves_symmetry_witness :
  let self := mkGaussianMixture 1 5 "spherical" 1 1e-4 in
  let cov := mkT [1; 1; 2; 2]%nat (fun idx => INR (nth 2 idx O + nth 3 idx O)) in
  let out := _enforce_covariance_type self cov in
  item out [0; 0; 0; 1]%nat = item out [0; 0; 1; 0]%nat.
Proof.
  intros self cov out.
  apply (enforce_preserves_symmetry self cov 1 1 2 eq_refl); try lia.
  intros b k i j _ _ _ _. cbn [cov item nth]. now rewrite Nat.add_comm.
Defined.

(** X4.  For every [covariance_type] string that does not contain
    "spherical" the constraint is idempotent: enforcing it on its own
    result changes no entry. *)
Theorem enforce_idempotent self cov B K F :
  shape cov = [B; K; F; F] ->
  contains "spherical" (covariance_type self) = false ->
  let once := _enforce_covariance_type self cov in
  let twice := _enforce_covariance_type self once in
  shape twice = shape once /\
  forall b k i j, (b < B)%nat -> (k < K)%nat -> (i < F)%nat -> (j < F)%nat ->
    item twice [b; k; i; j] = item once [b; k; i; j].
Proof.
  intros Hs Hsph once twice. subst once twice.
  destruct (enforce_spec self cov B K F Hs) as [Hs1 E1].
  destruct (enforce_spec self _ B K F Hs1) as [Hs2 E2].
  split; [now rewrite Hs1, Hs2|].
  intros b k i j Hb Hk Hi Hj. rewrite E2 by assumption.
  rewrite (constrained_ext _ _ _ K F _
             (constrained (contains "spherical" (covariance_type self))
                          (contains "diag" (covariance_type self))
                          (contains "tied" (covariance_type self)) K F
                          (fun k i j => item cov [b; k; i; j])));
    try assumption.
  - rewrite E1 by assumption. rewrite Hsph. now apply constrained_idem.
  - intros k0 i0 j0 Hk0 Hi0 Hj0. now apply E1.
Qed.

Lemma enforce_idempotent_witness :
  let self := mkGaussianMixture 2 5 "tied" 1 1e-4 in
  let cov := mkT [1; 2; 1; 1]%nat (fun idx => INR (nth 1 idx O)) in
  item (_enforce_covariance_type self (_enforce_covariance_type self cov))
       [0; 1; 0; 0]%nat
  = item (_enforce_covariance_type self cov) [0; 1; 0; 0]%nat.
Proof.
  intros self cov.
  apply (proj2 (enforce_idempotent self cov 1 2 1 eq_refl eq_refl)); lia.
Defined.

(** X5.  With "spherical" in the [covariance_type] the constraint is not
    idempotent: the common variance is the mean of all [F * F] entries of
    the matrix, so enforcing the constraint on its own result divides
    every entry by the number of features [F]. *)
Theorem enforce_spherical_shrinks self cov B K F :
  shape cov = [B; K; F; F] ->
  contains "spherical" (covariance_type self) = true ->
  let once := _enforce_covariance_type self cov in
  let twice := _enforce_covariance_type self once in
  forall b k i j, (b < B)%nat -> (k < K)%nat -> (i < F)%nat -> (j < F)%nat ->
    item twice [b; k; i; j] = item once [b; k; i; j] / INR F.
Proof.
  intros Hs Hsph once twice. subst once twice.
  destruct (enforce_spec self cov B K F Hs) as [Hs1 E1].
  destruct (enforce_spec self _ B K F Hs1) as [Hs2 E2].
  intros b k i j Hb Hk Hi Hj. rewrite E2 by assumption.
  rewrite (constrained_ext _ _ _ K F _
             (constrained (contains "spherical" (covariance_type self))
                          (contains "diag" (covariance_type self))
                          (contains "tied" (covariance_type self)) K F
                          (fun k i j => item cov [b; k; i; j])));
    try assumption.
  - rewrite E1 by assumption. rewrite Hsph.
    now apply constrained_spherical_twice.
  - intros k0 i0 j0 Hk0 Hi0 Hj0. now apply E1.
Qed.

(** On the 2 by 2 identity the second pass halves the variance left by
    the first. *)
Lemma enforce_spherical_shrinks_witness :
  let self := mkGaussianMixture 1 5 "spherical" 1 1e-4 in
  let cov :=
    mkT [1; 1; 2; 2]%nat
        (fun idx => if (nth 2 idx O =? nth 3 idx O)%nat then 1 else 0) in
  item (_enforce_covariance_type self (_enforce_covariance_type self cov))
       [0; 0; 1; 1]%nat
  = item (_enforce_covariance_type self cov) [0; 0; 1; 1]%nat / INR 2.
Proof.
  intros self cov.
  apply (enforce_spherical_shrinks self cov 1 1 2 eq_refl eq_refl); lia.
Defined.

(** ** The M-step in full *)

Section MStepFull.
Variable self : GaussianMixture.

(** Every output of the M-step, entry by entry: [clamped] is the
    covariance before the type is enforced. *)
Lemma m_step_full_spec X resp B S F K :
  shape X = [B; S; F] -> shape resp = [B; S; K] ->
  exists means clamped prior,
    _m_step self X resp
    = (means, _enforce_covariance_type self clamped, prior) /\
    shape means = [B; K; F] /\
    (forall b k f, (b < B)%nat -> (k < K)%nat -> (f < F)%nat ->
       item means [b; k; f]
       = sum_upto S (fun s => item resp [b; s; k] * item X [b; s; f])
         / sum_upto S (fun s => item resp [b; s; k])) /\
    shape prior = [B; 1%nat; K; 1%nat] /\
    (forall b k, (b < B)%nat -> (k < K)%nat ->
       item prior [b; 0%nat; k; 0%nat]
       = sum_upto S (fun s => item resp [b; s; k])) /\
    shape clamped = [B; K; F; F] /\
    (forall b k i j, (b < B)%nat -> (k < K)%nat -> (i < F)%nat -> (j < F)%nat ->
       item clamped [b; k; i; j]
       = Rmax (sum_upto S (fun s =>
                 (item X [b; s; i] - item means [b; k; i])
                 * item resp [b; s; k]
                 * ((item X [b; s; j] - item means [b; k; j])
                    * item resp [b; s; k]))
               / sum_upto S (fun s => item resp [b; s; k]))
              (reg_covar self)).
Proof.
  intros HX Hr. destruct X as [sx x], resp as [sr r]; cbn in HX, Hr; subst.
  unfold _m_step. cbn [shape nth]. cbv zeta.
  set (r4 := view [Some B; Some S; Some K; Some 1%nat] (mkT [B; S; K] r)).
  set (x4 := view [Some B; Some S; Some 1%nat; Some F] (mkT [B; S; F] x)).
  assert (Hr4 : shape r4 = [B; S; K; 1%nat] /\
                forall b s k, (b < B)%nat -> (s < S)%nat -> (k < K)%nat ->
                              item r4 [b; s; k; 0%nat] = r [b; s; k]).
  { split; [reflexivity|]. intros. now apply view_BSK1. }
  assert (Hx4 : shape x4 = [B; S; 1%nat; F] /\
                forall b s f, (b < B)%nat -> (s < S)%nat -> (f < F)%nat ->
                              item x4 [b; s; 0%nat; f] = x [b; s; f]).
  { split; [reflexivity|]. intros. now apply view_BS1F. }
  clearbody r4 x4. destruct r4 as [s4 r4], x4 as [sx4 x4].
  cbn [shape item] in Hr4, Hx4. destruct Hr4 as [-> Hr4], Hx4 as [-> Hx4].
  set (bottom := sum_keepdims 1 (mkT [B; S; K; 1%nat] r4)).
  set (top := sum_keepdims 1 (tmul _ _)).
  assert (Hbot : shape bottom = [B; 1%nat; K; 1%nat] /\
                 forall b k, (b < B)%nat -> (k < K)%nat ->
                   item bottom [b; 0%nat; k; 0%nat]
                   = sum_upto S (fun s => r [b; s; k])).
  { split; [reflexivity|]. intros b k Hb Hk. cbn.
    apply sum_upto_ext. intros s Hs. now apply Hr4. }
  assert (Htop : shape top = [B; 1%nat; K; F] /\
                 forall b k f, (b < B)%nat -> (k < K)%nat -> (f < F)%nat ->
                   item top [b; 0%nat; k; f]
                   = sum_upto S (fun s => r [b; s; k] * x [b; s; f])).
  { split; [cbn; now bsimpl|]. intros b k f Hb Hk Hf. cbn.
    autorewrite with bcast.
    apply sum_upto_ext. intros s Hs. bsimpl.
    now rewrite Hr4, Hx4. }
  clearbody bottom top.
  destruct bottom as [sb bottom], top as [st top].
  cbn [shape item] in Hbot, Htop.
  destruct Hbot as [-> Hbot], Htop as [-> Htop].
  set (mu := tdiv _ _).
  assert (Hmu : shape mu = [B; 1%nat; K; F] /\
                forall b k f, (b < B)%nat -> (k < K)%nat -> (f < F)%nat ->
                  item mu [b; 0%nat; k; f]
                  = sum_upto S (fun s => r [b; s; k] * x [b; s; f])
                    / sum_upto S (fun s => r [b; s; k])).
  { split; [cbn; now bsimpl|]. intros b k f Hb Hk Hf. cbn. bsimpl.
    now rewrite Htop, Hbot. }
  clearbody mu. destruct mu as [smu mu]. cbn [shape item] in Hmu.
  destruct Hmu as [-> Hmu].
  set (diff := tmul (tsub _ _) _).
  assert (Hdiff : shape diff = [B; S; K; F] /\
                  forall b s k f, (b < B)%nat -> (s < S)%nat ->
                    (k < K)%nat -> (f < F)%nat ->
                    item diff [b; s; k; f]
                    = (x [b; s; f] - mu [b; 0%nat; k; f]) * r [b; s; k]).
  { split; [cbn; now bsimpl|]. intros b s k f Hb Hs Hk Hf. cbn. bsimpl.
    now rewrite Hx4, Hr4. }
  clearbody diff. destruct diff as [sd diff]. cbn [shape item] in Hdiff.
  destruct Hdiff as [-> Hdiff].
  set (cv := tdiv (unsqueeze 1 _) _).
  assert (Hcv : shape cv = [B; 1%nat; K; F; F] /\
                forall b k i j, (b < B)%nat -> (k < K)%nat ->
                  (i < F)%nat -> (j < F)%nat ->
                  item cv [b; 0%nat; k; i; j]
                  = sum_upto S (fun s =>
                      (x [b; s; i] - mu [b; 0%nat; k; i]) * r [b; s; k]
                      * ((x [b; s; j] - mu [b; 0%nat; k; j]) * r [b; s; k]))
                    / sum_upto S (fun s => r [b; s; k])).
  { split; [cbn; now bsimpl|]. intros b k i j Hb Hk Hi Hj. cbn. bsimpl.
    rewrite Hbot by assumption. f_equal.
    apply sum_upto_ext. intros s Hs. now rewrite !Hdiff. }
  clearbody cv. destruct cv as [scv cv]. cbn [shape item] in Hcv.
  destruct Hcv as [-> Hcv].
  do 3 eexists. split; [reflexivity|].
  cbn [shape item squeeze clamp_min tmap norm_dim nat_of_pos nth Nat.eqb
       remove_at insert_at firstn skipn app rank length].
  repeat split.
  - intros b k f Hb Hk Hf. now apply Hmu.
  - intros b k Hb Hk. now apply Hbot.
  - intros b k i j Hb Hk Hi Hj. now rewrite Hcv.
Qed.
End MStepFull.

Lemma constrained_const sph dg td K F r k i j :
  (k < K)%nat -> (i < F)%nat -> (j < F)%nat ->
  constrained sph dg td K F (fun _ _ _ => r) k i j
  = if (sph || dg) && negb (i =? j)%nat then 0 else r.
Proof.
  intros Hk Hi Hj.
  assert (HK : (0 < K)%nat) by lia. assert (HF : (0 < F)%nat) by lia.
  assert (Hm : matrix_mean F (fun _ _ => r) = r).
  { unfold matrix_mean. rewrite (mean_const F r HF). now apply mean_const. }
  unfold constrained. cbv zeta. rewrite Hm.
  destruct sph, dg, td, (i =? j)%nat; cbn [orb andb negb]; cbv beta iota;
    try reflexivity; now apply mean_const.
Qed.

(** A convex combination lies between the bounds of its terms. *)
Lemma weighted_mean_bounds n (w x : nat -> R) lo hi :
  (forall s, (s < n)%nat -> 0 <= w s) ->
  0 < sum_upto n w ->
  (forall s, (s < n)%nat -> lo <= x s <= hi) ->
  lo <= sum_upto n (fun s => w s * x s) / sum_upto n w <= hi.
Proof.
  intros Hw Hpos Hx.
  assert (Hlo : sum_upto n (fun s => w s * lo) <= sum_upto n (fun s => w s * x s)).
  { apply sum_upto_le. intros s Hs. specialize (Hw s Hs).
    specialize (Hx s Hs). nra. }
  assert (Hhi : sum_upto n (fun s => w s * x s) <= sum_upto n (fun s => w s * hi)).
  { apply sum_upto_le. intros s Hs. specialize (Hw s Hs).
    specialize (Hx s Hs). nra. }
  rewrite sum_upto_scal_r in Hlo, Hhi.
  split.
  - apply (Rmult_le_reg_r (sum_upto n w)); [exact Hpos|].
    unfold Rdiv. rewrite Rmult_assoc, Rinv_l by lra. lra.
  - apply (Rmult_le_reg_r (sum_upto n w)); [exact Hpos|].
    unfold Rdiv. rewrite Rmult_assoc, Rinv_l by lra. lra.
Qed.

(** ** Further properties of the M-step *)

(** X6.  The covariance of the M-step weights each sample by the square
    of its responsibility: [diff] is multiplied by [resp] before the
    product [diff^T diff] is formed, and the sum is divided by the plain
    sum of the responsibilities.  With an unconstrained ("full")
    covariance the (i, j) entry for component k is
    [max(sum_s resp^2 (x_i - mean_i) (x_j - mean_j) / sum_s resp,
    reg_covar)], where [mean] is the mean returned by the same call. *)
Theorem m_step_covariance_weights self X resp B S F K :
  shape X = [B; S; F] -> shape resp = [B; S; K] ->
  dispatch (covariance_type self) = (false, false, false) ->
  let means := fst (fst (_m_step self X resp)) in
  let cov := snd (fst (_m_step self X resp)) in
  shape cov = [B; K; F; F] /\
  forall b k i j, (b < B)%nat -> (k < K)%nat -> (i < F)%nat -> (j < F)%nat ->
    item cov [b; k; i; j]
    = Rmax (sum_upto S (fun s =>
              item resp [b; s; k] * item resp [b; s; k]
              * (item X [b; s; i] - item means [b; k; i])
              * (item X [b; s; j] - item means [b; k; j]))
            / sum_upto S (fun s => item resp [b; s; k]))
           (reg_covar self).
Proof.
  intros HX Hr Hd means cov. subst means cov.
  destruct (m_step_full_spec self X resp B S F K HX Hr)
    as (m & c & p & E & _ & _ & _ & _ & Hc & Hci).
  rewrite E. cbn [fst snd]. rewrite (enforce_full self c Hd).
  split; [exact Hc|]. intros b k i j Hb Hk Hi Hj.
  rewrite Hci by assumption. f_equal. f_equal.
  apply sum_upto_ext. intros s _. ring.
Qed.

(** One sample at 2 with responsibility 3: a single term, of weight
    3 * 3, over the responsibility 3. *)
Lemma m_step_covariance_weights_witness :
  let self := mkGaussianMixture 1 5 "full" 1 1e-4 in
  let X := mkT [1; 1; 1]%nat (fun _ => 2) in
  let resp := mkT [1; 1; 1]%nat (fun _ => 3) in
  let means := fst (fst (_m_step self X resp)) in
  item (snd (fst (_m_step self X resp))) [0; 0; 0; 0]%nat
  = Rmax ((0 + 3 * 3 * (2 - item means [0; 0; 0]%nat)
                   * (2 - item means [0; 0; 0]%nat))
          / (0 + 3)) 1e-4.
Proof.
  intros self X resp means.
  exact (proj2 (m_step_covariance_weights self X resp 1 1 1 1
                  eq_refl eq_refl eq_refl)
               0%nat 0%nat 0%nat 0%nat Nat.lt_0_1 Nat.lt_0_1 Nat.lt_0_1
               Nat.lt_0_1).
Defined.

(** X7.  Every covariance matrix returned by the M-step is symmetric,
    for every [covariance_type] string. *)
Theorem m_step_covariance_symmetric self X resp B S F K :
  shape X = [B; S; F] -> shape resp = [B; S; K] ->
  symmetric B K F (snd (fst (_m_step self X resp))).
Proof.
  intros HX Hr.
  destruct (m_step_full_spec self X resp B S F K HX Hr)
    as (m & c & p & E & _ & _ & _ & _ & Hc & Hci).
  rewrite E. cbn [fst snd].
  destruct (enforce_spec self c B K F Hc) as [_ Ee].
  intros b k i j Hb Hk Hi Hj. rewrite !Ee by assumption.
  apply constrained_symmetric; try assumption.
  intros k0 i0 j0 Hk0 Hi0 Hj0. rewrite !Hci by assumption.
  f_equal. f_equal. apply sum_upto_ext. intros s _. ring.
Qed.

Lemma m_step_covariance_symmetric_witness :
  let self := mkGaussianMixture 1 5 "full" 1 1e-4 in
  let X := mkT [1; 2; 2]%nat (fun idx => INR (nth 1 idx O * nth 2 idx O)) in
  let resp := mkT [1; 2; 1]%nat (fun _ => 1) in
  let cov := snd (fst (_m_step self X resp)) in
  item cov [0; 0; 0; 1]%nat = item cov [0; 0; 1; 0]%nat.
Proof.
  intros self X resp cov.
  apply (m_step_covariance_symmetric self X resp 1 2 2 1 eq_refl eq_refl);
    lia.
Defined.

(** X8.  The means of the M-step are convex combinations of the samples:
    when the responsibilities of a component are non-negative with a
    positive sum, each coordinate of its mean lies between any bounds
    that hold for that coordinate of every sample of the batch
    element. *)
Theorem m_step_means_within_data self X resp B S F K b k f lo hi :
  shape X = [B; S; F] -> shape resp = [B; S; K] ->
  (b < B)%nat -> (k < K)%nat -> (f < F)%nat ->
  (forall s, (s < S)%nat -> 0 <= item resp [b; s; k]) ->
  0 < sum_upto S (fun s => item resp [b; s; k]) ->
  (forall s, (s < S)%nat -> lo <= item X [b; s; f] <= hi) ->
  lo <= item (fst (fst (_m_step self X resp))) [b; k; f] <= hi.
Proof.
  intros HX Hr Hb Hk Hf Hw Hpos Hx.
  destruct (m_step_full_spec self X resp B S F K HX Hr)
    as (m & c & p & E & _ & Hm & _).
  rewrite E. cbn [fst]. rewrite Hm by assumption.
  now apply (weighted_mean_bounds S (fun s => item resp [b; s; k])
               (fun s => item X [b; s; f])).
Qed.

Lemma m_step_means_within_data_witness :
  let self := mkGaussianMixture 1 5 "diag" 1 1e-4 in
  let X := mkT [1; 2; 1]%nat (fun idx => INR (nth 1 idx O)) in
  let resp := mkT [1; 2; 1]%nat (fun _ => 1) in
  0 <= item (fst (fst (_m_step self X resp))) [0; 0; 0]%nat <= 1.
Proof.
  intros self X resp.
  apply (m_step_means_within_data self X resp 1 2 1 1 0 0 0 0 1
           eq_refl eq_refl Nat.lt_0_1 Nat.lt_0_1 Nat.lt_0_1).
  - intros s _. cbn. lra.
  - cbn. lra.
  - intros s Hs. cbn [X item nth].
    assert (Hs' : (s = 0 \/ s = 1)%nat) by lia.
    destruct Hs' as [-> | ->]; cbn; lra.
Defined.

(** A batch element with a single sample: means and variances. *)
Lemma m_step_one_sample self X resp B F K :
  shape X = [B; 1; F]%nat -> shape resp = [B; 1; K]%nat ->
  0 <= reg_covar self ->
  let means := fst (fst (_m_step self X resp)) in
  let cov := snd (fst (_m_step self X resp)) in
  forall b k i, (b < B)%nat -> (k < K)%nat -> (i < F)%nat ->
    (forall k', (k' < K)%nat -> item resp [b; 0; k']%nat <> 0) ->
    item means [b; k; i] = item X [b; 0; i]%nat /\
    item cov [b; k; i; i] = reg_covar self.
Proof.
  intros HX Hr Hreg means cov. subst means cov.
  destruct (m_step_full_spec self X resp B 1 F K HX Hr)
    as (m & c & p & E & _ & Hm & _ & _ & Hc & Hci).
  rewrite E. cbn [fst snd].
  destruct (enforce_spec self c B K F Hc) as [_ Ee].
  intros b k i Hb Hk Hi Hnz.
  assert (Hmean : forall k' f, (k' < K)%nat -> (f < F)%nat ->
                  item m [b; k'; f] = item X [b; 0; f]%nat).
  { intros k' f Hk' Hf. rewrite Hm by assumption. cbn [sum_upto].
    specialize (Hnz k' Hk'). field. lra. }
  split; [now apply Hmean|].
  rewrite Ee by assumption.
  rewrite (constrained_ext _ _ _ K F _ (fun _ _ _ => reg_covar self));
    try assumption.
  - rewrite constrained_const by assumption.
    rewrite Nat.eqb_refl. cbn [negb]. now rewrite andb_false_r.
  - intros k0 i0 j0 Hk0 Hi0 Hj0. rewrite Hci by assumption.
    cbn [sum_upto]. rewrite !Hmean by assumption.
    specialize (Hnz k0 Hk0).
    replace ((0 + (item X [b; 0%nat; i0] - item X [b; 0%nat; i0])
                  * item resp [b; 0%nat; k0]
                  * ((item X [b; 0%nat; j0] - item X [b; 0%nat; j0])
                     * item resp [b; 0%nat; k0]))
             / (0 + item resp [b; 0%nat; k0])) with 0 by (field; lra).
    now apply Rmax_right.
Qed.

(** X9.  A batch element with a single sample, for which no component
    has responsibility zero: every component takes the sample as its
    mean and, when [reg_covar] is non-negative, every variance collapses
    to exactly [reg_covar], for every [covariance_type] string. *)
Theorem m_step_single_sample self X resp B F K :
  shape X = [B; 1; F]%nat -> shape resp = [B; 1; K]%nat ->
  0 <= reg_covar self ->
  let means := fst (fst (_m_step self X resp)) in
  let cov := snd (fst (_m_step self X resp)) in
  forall b k i, (b < B)%nat -> (k < K)%nat -> (i < F)%nat ->
    (forall k', (k' < K)%nat -> item resp [b; 0; k']%nat <> 0) ->
    item means [b; k; i] = item X [b; 0; i]%nat /\
    item cov [b; k; i; i] = reg_covar self.
Proof. exact (m_step_one_sample self X resp B F K). Qed.

Lemma m_step_single_sample_witness :
  let self := mkGaussianMixture 1 5 "diag" 1 1e-4 in
  let X := mkT [1; 1; 1]%nat (fun _ => 7) in
  let resp := mkT [1; 1; 1]%nat (fun _ => 1) in
  item (fst (fst (_m_step self X resp))) [0; 0; 0]%nat = 7 /\
  item (snd (fst (_m_step self X resp))) [0; 0; 0; 0]%nat = 1e-4.
Proof.
  intros self X resp.
  apply (m_step_single_sample self X resp 1 1 1 eq_refl eq_refl); try lia.
  - cbn. lra.
  - intros k' _. cbn. lra.
Defined.

(** X10.  The M-step is equivariant under translation of the data:
    adding a vector (one per batch element) to every sample adds that
    vector to every mean and changes neither the covariance nor the
    prior, for every [covariance_type] string. *)
Theorem m_step_translation self X X' resp B S F K (c : nat -> nat -> R) :
  shape X = [B; S; F] -> shape X' = [B; S; F] -> shape resp = [B; S; K] ->
  (forall b s f, (b < B)%nat -> (s < S)%nat -> (f < F)%nat ->
     item X' [b; s; f] = item X [b; s; f] + c b f) ->
  (forall b k, (b < B)%nat -> (k < K)%nat ->
     sum_upto S (fun s => item resp [b; s; k]) <> 0) ->
  forall b k i j, (b < B)%nat -> (k < K)%nat -> (i < F)%nat -> (j < F)%nat ->
    item (fst (fst (_m_step self X' resp))) [b; k; i]
    = item (fst (fst (_m_step self X resp))) [b; k; i] + c b i /\
    item (snd (fst (_m_step self X' resp))) [b; k; i; j]
    = item (snd (fst (_m_step self X resp))) [b; k; i; j] /\
    item (snd (_m_step self X' resp)) [b; 0; k; 0]%nat
    = item (snd (_m_step self X resp)) [b; 0; k; 0]%nat.
Proof.
  intros HX HX' Hr Hshift Hnz.
  destruct (m_step_full_spec self X resp B S F K HX Hr)
    as (m & cl & p & E & _ & Hm & _ & Hp & Hc & Hci).
  destruct (m_step_full_spec self X' resp B S F K HX' Hr)
    as (m' & cl' & p' & E' & _ & Hm' & _ & Hp' & Hc' & Hci').
  rewrite E, E'. cbn [fst snd].
  assert (Hmean : forall b k f, (b < B)%nat -> (k < K)%nat -> (f < F)%nat ->
                  item m' [b; k; f] = item m [b; k; f] + c b f).
  { intros b k f Hb Hk Hf. rewrite Hm', Hm by assumption.
    rewrite (sum_upto_ext S
               (fun s => item resp [b; s; k] * item X' [b; s; f])
               (fun s => item resp [b; s; k] * item X [b; s; f]
                         + item resp [b; s; k] * c b f))
      by (intros s Hs; rewrite Hshift by assumption; ring).
    rewrite sum_upto_plus, sum_upto_scal_r.
    specialize (Hnz b k Hb Hk). field. exact Hnz. }
  intros b k i j Hb Hk Hi Hj.
  split; [now apply Hmean|]. split.
  - destruct (enforce_spec self cl B K F Hc) as [_ Ee].
    destruct (enforce_spec self cl' B K F Hc') as [_ Ee'].
    rewrite Ee, Ee' by assumption.
    apply constrained_ext; try assumption.
    intros k0 i0 j0 Hk0 Hi0 Hj0. rewrite Hci, Hci' by assumption.
    f_equal. f_equal. apply sum_upto_ext. intros s Hs.
    rewrite !Hshift, !Hmean by assumption. ring.
  - now rewrite Hp, Hp'.
Qed.

Lemma m_step_translation_witness :
  let self := mkGaussianMixture 1 5 "diag" 1 1e-4 in
  let X := mkT [1; 2; 1]%nat (fun idx => INR (nth 1 idx O)) in
  let X' := mkT [1; 2; 1]%nat (fun idx => INR (nth 1 idx O) + 10) in
  let resp := mkT [1; 2; 1]%nat (fun _ => 1) in
  item (fst (fst (_m_step self X' resp))) [0; 0; 0]%nat
  = item (fst (fst (_m_step self X resp))) [0; 0; 0]%nat + 10 /\
  item (snd (fst (_m_step self X' resp))) [0; 0; 0; 0]%nat
  = item (snd (fst (_m_step self X resp))) [0; 0; 0; 0]%nat.
Proof.
  intros self X X' resp.
  destruct (m_step_translation self X X' resp 1 2 1 1 (fun _ _ => 10)
              eq_refl eq_refl eq_refl) with (b := 0%nat) (k := 0%nat)
              (i := 0%nat) (j := 0%nat) as (H1 & H2 & _); try lia.
  - intros b s f _ _ _. reflexivity.
  - intros b k _ _. cbn. lra.
  - split; assumption.
Defined.

(** ** The E-step in full *)

Lemma view_B1KF B K F m b k f :
  (b < B)%nat -> (k < K)%nat -> (f < F)%nat ->
  item (view [Some B; Some 1%nat; Some K; Some F] (mkT [B; K; F] m))
       [b; 0%nat; k; f]
  = m [b; k; f].
Proof. intros. view_tac. Qed.

Lemma view_B1KFF B K F c b k i j :
  (b < B)%nat -> (k < K)%nat -> (i < F)%nat -> (j < F)%nat ->
  item (view [Some B; Some 1%nat; Some K; Some F; Some F] (mkT [B; K; F; F] c))
       [b; 0%nat; k; i; j]
  = c [b; k; i; j].
Proof. intros. view_tac. Qed.

Section EStepFull.
Variable torch_exp : R -> R.
Variable log_density :
  nat -> (nat -> R) -> (nat -> R) -> (nat -> nat -> R) -> R.
Variable mvn_valid : tensor -> tensor -> bool.
Hypothesis torch_exp_nonneg : forall x, 0 <= torch_exp x.

(** Both outputs of the E-step, entry by entry. *)
Lemma e_step_full_spec self X means cov B S F K :
  shape X = [B; S; F] -> shape means = [B; K; F] ->
  shape cov = [B; K; F; F] ->
  exists resp lp,
    _e_step torch_exp log_density mvn_valid self X means cov
    = (if mvn_valid
            (view [Some B; Some 1%nat; Some K; Some F] means)
            (view [Some B; Some 1%nat; Some K; Some F; Some F] cov)
       then Return (resp, lp)
       else Raise ValueError) /\
    shape lp = [B; S; K] /\ shape resp = [B; S; K] /\
    (density_local log_density ->
     forall b s k, (b < B)%nat -> (s < S)%nat -> (k < K)%nat ->
       item lp [b; s; k]
       = log_density F (fun f => item X [b; s; f])
                       (fun f => item means [b; k; f])
                       (fun i j => item cov [b; k; i; j])) /\
    (forall b s k, (b < B)%nat -> (s < S)%nat -> (k < K)%nat ->
       item resp [b; s; k]
       = (torch_exp (item lp [b; s; k]) + prob_eps)
         / sum_upto K (fun j => torch_exp (item lp [b; s; j]) + prob_eps)).
Proof.
  intros HX Hm Hc. unfold _e_step.
  rewrite HX, Hm. cbn [nth]. cbv zeta.
  destruct X as [sx x], means as [sm m], cov as [sc c];
    cbn [shape] in HX, Hm, Hc; subst.
  set (x4 := view [Some B; Some S; Some 1%nat; Some F] (mkT [B; S; F] x)).
  set (m4 := view [Some B; Some 1%nat; Some K; Some F] (mkT [B; K; F] m)).
  set (c5 := view [Some B; Some 1%nat; Some K; Some F; Some F]
                  (mkT [B; K; F; F] c)).
  set (lp := mvn_log_prob log_density m4 c5 x4).
  assert (Hlp : shape lp = [B; S; K] /\
            (density_local log_density ->
             forall b s k, (b < B)%nat -> (s < S)%nat -> (k < K)%nat ->
               item lp [b; s; k]
               = log_density F (fun f => x [b; s; f])
                               (fun f => m [b; k; f])
                               (fun i j => c [b; k; i; j]))).
  { split; [cbn; now bsimpl|].
    intros Hloc b s k Hb Hs Hk. cbn. bsimpl. apply Hloc.
    - intros f Hf. now apply view_BS1F.
    - intros f Hf. now apply view_B1KF.
    - intros i j Hi Hj. now apply view_B1KFF. }
  clearbody lp. destruct lp as [sl lp]. cbn [shape item] in Hlp.
  destruct Hlp as [-> Hlp].
  eexists; eexists. split; [reflexivity|].
  split; [reflexivity|]. split; [apply normalize_L1_shape|].
  split; [exact Hlp|].
  intros b s k Hb Hs Hk.
  change (tmap (fun x0 => x0 + prob_eps)
               (tmap torch_exp (mkT [B; S; K] lp)))
    with (mkT [B; S; K] (fun idx => torch_exp (lp idx) + prob_eps)).
  rewrite (normalize_L1_item B S K) by assumption.
  destruct (normalize_floored_den K
              (fun idx => torch_exp (lp idx) + prob_eps) b s) as [-> _];
    [lia | | reflexivity].
  intros j _. pose proof (torch_exp_nonneg (lp [b; s; j])). lra.
Qed.
End EStepFull.

Lemma sum_upto_ge_term n (f : nat -> R) k :
  (forall i, (i < n)%nat -> 0 <= f i) -> (k < n)%nat -> f k <= sum_upto n f.
Proof.
  induction n as [|n IH]; intros Hf Hk; [lia|]. cbn [sum_upto].
  assert (Hs : 0 <= sum_upto n f).
  { rewrite <- (Rmult_0_r (INR n)). apply sum_upto_ge_const.
    intros i Hi. apply Hf. lia. }
  pose proof (Hf n (Nat.lt_succ_diag_r n)) as Hn.
  destruct (Nat.eq_dec k n) as [->|Hne]; [lra|].
  assert (Hk' : (k < n)%nat) by lia.
  specialize (IH (fun i Hi => Hf i (Nat.lt_lt_succ_r _ _ Hi)) Hk'). lra.
Qed.

(** ** Further properties of the E-step *)

Section EStepMore.
Variable torch_exp : R -> R.
Variable log_density :
  nat -> (nat -> R) -> (nat -> R) -> (nat -> nat -> R) -> R.
Variable mvn_valid : tensor -> tensor -> bool.
Hypothesis torch_exp_nonneg : forall x, 0 <= torch_exp x.

(** X11.  The E-step raises [ValueError] exactly when torch rejects the
    parameters of the distribution, and otherwise returns
    responsibilities that are a function of the returned log
    probabilities: [resp = (exp(log_prob) + 1e-8) / sum_k (exp(log_prob)
    + 1e-8)].  The floor [1e-12] inside [normalize] never takes effect,
    since the L1 norm is at least [1e-8]. *)
Theorem e_step_resp_from_log_prob self X means cov B S F K :
  shape X = [B; S; F] -> shape means = [B; K; F] ->
  shape cov = [B; K; F; F] ->
  let valid :=
    mvn_valid (view [Some B; Some 1%nat; Some K; Some F] means)
              (view [Some B; Some 1%nat; Some K; Some F; Some F] cov) in
  let run := _e_step torch_exp log_density mvn_valid self X means cov in
  (valid = false -> run = Raise ValueError) /\
  (valid = true -> exists resp lp, run = Return (resp, lp)) /\
  (forall resp lp, run = Return (resp, lp) ->
     shape resp = [B; S; K] /\ shape lp = [B; S; K] /\
     forall b s k, (b < B)%nat -> (s < S)%nat -> (k < K)%nat ->
       item resp [b; s; k]
       = (torch_exp (item lp [b; s; k]) + 1e-8)
         / sum_upto K (fun j => torch_exp (item lp [b; s; j]) + 1e-8)).
Proof.
  intros HX Hm Hc valid run. subst valid run.
  destruct (e_step_full_spec torch_exp log_density mvn_valid torch_exp_nonneg
              self X means cov B S F K HX Hm Hc)
    as (resp0 & lp0 & E & Hlp & Hresp & _ & Hit).
  rewrite E. split; [|split].
  - intros ->. reflexivity.
  - intros ->. now exists resp0, lp0.
  - intros resp lp H. destruct (mvn_valid _ _); [|discriminate].
    injection H as <- <-. split; [exact Hresp|]. split; [exact Hlp|].
    exact Hit.
Qed.

(** X12.  When torch accepts the parameters, every responsibility the
    E-step returns is strictly positive and at most 1, even where every
    component density underflows to zero. *)
Theorem e_step_resp_bounds self X means cov B S F K :
  shape X = [B; S; F] -> shape means = [B; K; F] ->
  shape cov = [B; K; F; F] ->
  mvn_valid (view [Some B; Some 1%nat; Some K; Some F] means)
            (view [Some B; Some 1%nat; Some K; Some F; Some F] cov) = true ->
  exists resp lp,
    _e_step torch_exp log_density mvn_valid self X means cov
    = Return (resp, lp) /\
    forall b s k, (b < B)%nat -> (s < S)%nat -> (k < K)%nat ->
      0 < item resp [b; s; k] <= 1.
Proof.
  intros HX Hm Hc Hv.
  destruct (e_step_full_spec torch_exp log_density mvn_valid torch_exp_nonneg
              self X means cov B S F K HX Hm Hc)
    as (resp0 & lp0 & E & _ & _ & _ & Hit).
  rewrite Hv in E. exists resp0, lp0. split; [exact E|].
  intros b s k Hb Hs Hk.
  rewrite Hit by assumption. pose proof prob_eps_pos as He.
  set (p := fun j => torch_exp (item lp0 [b; s; j]) + prob_eps).
  assert (Hp : forall j, (j < K)%nat -> 0 < p j).
  { intros j _. subst p. cbv beta.
    pose proof (torch_exp_nonneg (item lp0 [b; s; j])). lra. }
  assert (Hge : p k <= sum_upto K p).
  { apply sum_upto_ge_term; [|exact Hk]. intros j Hj.
    specialize (Hp j Hj). lra. }
  change (0 < p k / sum_upto K p <= 1).
  specialize (Hp k Hk).
  assert (Hpos : 0 < sum_upto K p) by lra.
  split.
  - now apply Rdiv_lt_0_compat.
  - apply (Rmult_le_reg_r (sum_upto K p)); [exact Hpos|].
    unfold Rdiv. rewrite Rmult_assoc, Rinv_l by lra. lra.
Qed.

(** X13.  Where the densities of all components underflow to zero for a
    sample, the E-step assigns the sample to the components uniformly:
    every responsibility is exactly [1 / n_components]. *)
Theorem e_step_underflow_uniform self X means cov B S F K :
  shape X = [B; S; F] -> shape means = [B; K; F] ->
  shape cov = [B; K; F; F] ->
  mvn_valid (view [Some B; Some 1%nat; Some K; Some F] means)
            (view [Some B; Some 1%nat; Some K; Some F; Some F] cov) = true ->
  exists resp lp,
    _e_step torch_exp log_density mvn_valid self X means cov
    = Return (resp, lp) /\
    forall b s, (b < B)%nat -> (s < S)%nat ->
      (forall j, (j < K)%nat -> torch_exp (item lp [b; s; j]) = 0) ->
      forall k, (k < K)%nat -> item resp [b; s; k] = 1 / INR K.
Proof.
  intros HX Hm Hc Hv.
  destruct (e_step_full_spec torch_exp log_density mvn_valid torch_exp_nonneg
              self X means cov B S F K HX Hm Hc)
    as (resp0 & lp0 & E & _ & _ & _ & Hit).
  rewrite Hv in E. exists resp0, lp0. split; [exact E|].
  intros b s Hb Hs Hz k Hk.
  rewrite Hit by assumption.
  rewrite (sum_upto_ext K _ (fun _ => prob_eps))
    by (intros j Hj; rewrite Hz by assumption; lra).
  rewrite Hz by assumption. rewrite sum_upto_const.
  pose proof prob_eps_pos. pose proof (INR_pos K ltac:(lia)).
  field. lra.
Qed.

(** X14.  The (b, s, k) entry of the log probabilities returned by the
    E-step is the log-density of sample s of batch element b under
    component k of the same batch element: the views and the broadcast
    inside [MultivariateNormal] pair every sample with every component
    and never mix batch elements. *)
Theorem e_step_log_prob_entries self X means cov B S F K :
  density_local log_density ->
  shape X = [B; S; F] -> shape means = [B; K; F] ->
  shape cov = [B; K; F; F] ->
  mvn_valid (view [Some B; Some 1%nat; Some K; Some F] means)
            (view [Some B; Some 1%nat; Some K; Some F; Some F] cov) = true ->
  exists resp lp,
    _e_step torch_exp log_density mvn_valid self X means cov
    = Return (resp, lp) /\
    shape lp = [B; S; K] /\
    forall b s k, (b < B)%nat -> (s < S)%nat -> (k < K)%nat ->
      item lp [b; s; k]
      = log_density F (fun f => item X [b; s; f])
                      (fun f => item means [b; k; f])
                      (fun i j => item cov [b; k; i; j]).
Proof.
  intros Hloc HX Hm Hc Hv.
  destruct (e_step_full_spec torch_exp log_density mvn_valid torch_exp_nonneg
              self X means cov B S F K HX Hm Hc)
    as (resp0 & lp0 & E & Hs & _ & Hlp & _).
  rewrite Hv in E. exists resp0, lp0. split; [exact E|].
  split; [exact Hs|]. now apply Hlp.
Qed.
End EStepMore.

(** The instance used for the E-step statements: one sample, two
    components, one feature. *)
Lemma e_step_resp_from_log_prob_witness :
  exists resp lp,
    _e_step exp (fun _ _ _ _ => 0) (fun _ _ => true)
            (mkGaussianMixture 2 5 "diag" 1 1e-4)
            (mkT [1; 1; 1]%nat (fun _ => 0))
            (mkT [1; 2; 1]%nat (fun _ => 0))
            (mkT [1; 2; 1; 1]%nat (fun _ => 1))
    = Return (resp, lp) /\
    item resp [0; 0; 1]%nat
    = (exp (item lp [0; 0; 1]%nat) + 1e-8)
      / sum_upto 2 (fun j => exp (item lp [0; 0; j]%nat) + 1e-8).
Proof.
  destruct (e_step_resp_from_log_prob exp (fun _ _ _ _ => 0)
              (fun _ _ => true) exp_nonneg
              (mkGaussianMixture 2 5 "diag" 1 1e-4)
              (mkT [1; 1; 1]%nat (fun _ => 0))
              (mkT [1; 2; 1]%nat (fun _ => 0))
              (mkT [1; 2; 1; 1]%nat (fun _ => 1))
              1%nat 1%nat 1%nat 2%nat eq_refl eq_refl eq_refl)
    as (_ & Hret & Hinv).
  destruct (Hret eq_refl) as (resp & lp & E).
  exists resp, lp. split; [exact E|].
  apply (proj2 (proj2 (Hinv resp lp E)) 0%nat 0%nat 1%nat); lia.
Defined.

Lemma e_step_resp_bounds_witness :
  exists resp lp,
    _e_step exp (fun _ _ _ _ => 0) (fun _ _ => true)
            (mkGaussianMixture 2 5 "diag" 1 1e-4)
            (mkT [1; 1; 1]%nat (fun _ => 0))
            (mkT [1; 2; 1]%nat (fun _ => 0))
            (mkT [1; 2; 1; 1]%nat (fun _ => 1))
    = Return (resp, lp) /\
    0 < item resp [0; 0; 1]%nat <= 1.
Proof.
  destruct (e_step_resp_bounds exp (fun _ _ _ _ => 0)
              (fun _ _ => true) exp_nonneg
              (mkGaussianMixture 2 5 "diag" 1 1e-4)
              (mkT [1; 1; 1]%nat (fun _ => 0))
              (mkT [1; 2; 1]%nat (fun _ => 0))
              (mkT [1; 2; 1; 1]%nat (fun _ => 1))
              1%nat 1%nat 1%nat 2%nat eq_refl eq_refl eq_refl eq_refl)
    as (resp & lp & E & H).
  exists resp, lp. split; [exact E|]. apply H; lia.
Defined.

(** An exponential that underflows everywhere: each of two components
    gets one half. *)
Lemma e_step_underflow_uniform_witness :
  exists resp lp,
    _e_step (fun _ => 0) (fun _ _ _ _ => 0) (fun _ _ => true)
            (mkGaussianMixture 2 5 "diag" 1 1e-4)
            (mkT [1; 1; 1]%nat (fun _ => 0))
            (mkT [1; 2; 1]%nat (fun _ => 0))
            (mkT [1; 2; 1; 1]%nat (fun _ => 1))
    = Return (resp, lp) /\
    item resp [0; 0; 1]%nat = 1 / INR 2.
Proof.
  destruct (e_step_underflow_uniform (fun _ => 0) (fun _ _ _ _ => 0)
              (fun _ _ => true) (fun _ => Rle_refl 0)
              (mkGaussianMixture 2 5 "diag" 1 1e-4)
              (mkT [1; 1; 1]%nat (fun _ => 0))
              (mkT [1; 2; 1]%nat (fun _ => 0))
              (mkT [1; 2; 1; 1]%nat (fun _ => 1))
              1%nat 1%nat 1%nat 2%nat eq_refl eq_refl eq_refl eq_refl)
    as (resp & lp & E & H).
  exists resp, lp. split; [exact E|].
  apply (H 0%nat 0%nat); try lia. intros j _. reflexivity.
Defined.

(** A density that reads the value and the mean: the sum of their
    coordinate differences. *)
Lemma e_step_log_prob_entries_witness :
  exists resp lp,
    _e_step exp (fun F v l _ => sum_upto F (fun f => v f - l f))
            (fun _ _ => true)
            (mkGaussianMixture 2 5 "diag" 1 1e-4)
            (mkT [1; 1; 1]%nat (fun _ => 5))
            (mkT [1; 2; 1]%nat (fun idx => INR (nth 1 idx O)))
            (mkT [1; 2; 1; 1]%nat (fun _ => 1))
    = Return (resp, lp) /\
    item lp [0; 0; 1]%nat = 0 + (5 - 1).
Proof.
  destruct (e_step_log_prob_entries exp
              (fun F v l _ => sum_upto F (fun f => v f - l f))
              (fun _ _ => true) exp_nonneg
              (mkGaussianMixture 2 5 "diag" 1 1e-4)
              (mkT [1; 1; 1]%nat (fun _ => 5))
              (mkT [1; 2; 1]%nat (fun idx => INR (nth 1 idx O)))
              (mkT [1; 2; 1; 1]%nat (fun _ => 1))
              1%nat 1%nat 1%nat 2%nat)
    as (resp & lp & E & _ & H); try reflexivity.
  - intros F v v' l l' c c' Hv Hl _. apply sum_upto_ext.
    intros f Hf. now rewrite Hv, Hl.
  - exists resp, lp. split; [exact E|].
    rewrite (H 0%nat 0%nat 1%nat) by lia. reflexivity.
Defined.

(** ** Initial parameters *)

Section InitMore.
Variable rng : list nat -> R.
Variable self : GaussianMixture.

(** The covariance [init_params] hands to [_enforce_covariance_type]:
    the initial variances on the diagonal, zero elsewhere. *)
Lemma init_params_cov_spec X means cov B S K F :
  shape X = [B; S; F] ->
  params_match self B K F means cov ->
  exists masked,
    snd (init_params rng self X means cov)
    = _enforce_covariance_type self masked /\
    shape masked = [B; K; F; F] /\
    forall b k i j, (b < B)%nat -> (k < K)%nat -> (i < F)%nat -> (j < F)%nat ->
      item masked [b; k; i; j]
      = if (i =? j)%nat then initial_variance self cov b k i else 0.
Proof.
  intros HX [_ Hc]. destruct X as [sx x]; cbn [shape] in HX; subst sx.
  unfold init_params. cbv zeta. cbn [fst snd shape nth last].
  eexists. split; [reflexivity|].
  destruct cov as [c|].
  - destruct Hc as [Hc|Hc].
    + unfold initial_variance, rank. rewrite Hc. cbn [length Nat.ltb Nat.leb].
      destruct c as [sc c]; cbn [shape] in Hc; subst sc.
      cbn [shape last].
      abstract_mask F m Hmask. split; [cbn; now bsimpl|].
      intros b k i j Hb Hk Hi Hj. cbn. bsimpl. rewrite Hmask by assumption.
      destruct (Nat.eqb_spec i j) as [->|_]; lra.
    + unfold initial_variance, rank. rewrite Hc. cbn [length Nat.ltb Nat.leb].
      destruct c as [sc c]; cbn [shape] in Hc; subst sc.
      cbn [expand unsqueeze shape rank length norm_dim nat_of_pos
           Nat.sub insert_at firstn skipn app repeat combine map fst snd
           last].
      abstract_mask F m Hmask. split; [cbn; now bsimpl|].
      intros b k i j Hb Hk Hi Hj. cbn. bsimpl. rewrite Hmask by assumption.
      destruct (i =? j)%nat; lra.
  - subst K. unfold initial_variance, rank, new_fill.
    cbn [shape length Nat.ltb Nat.leb].
    cbn [expand unsqueeze shape rank length norm_dim nat_of_pos
         Nat.sub insert_at firstn skipn app repeat combine map fst snd
         last].
    abstract_mask F m Hmask. split; [cbn; now bsimpl|].
    intros b k i j Hb Hk Hi Hj. cbn. bsimpl. rewrite Hmask by assumption.
    destruct (i =? j)%nat; lra.
Qed.

Lemma constrained_scalar_matrix K F (v : nat -> nat -> R) dg k i j :
  (k < K)%nat -> (i < F)%nat -> (j < F)%nat ->
  constrained false dg false K F
              (fun k i j => if (i =? j)%nat then v k i else 0) k i j
  = if (i =? j)%nat then v k i else 0.
Proof.
  intros _ _ _. unfold constrained. cbv zeta.
  destruct dg, (i =? j)%nat; reflexivity.
Qed.

(** X15.  [init_params] always returns diagonal covariance matrices,
    whatever the [covariance_type]: the initial covariance is multiplied
    by the identity mask before the type is enforced, so even with the
    unconstrained "full" type the off-diagonal entries of a covariance
    supplied by the caller are discarded.  With a type string containing
    neither "spherical" nor "tied" the diagonal keeps the caller's
    variances ([covariance_init] when none is supplied). *)
Theorem init_covariance_is_diagonal X means cov B S K F :
  shape X = [B; S; F] ->
  params_match self B K F means cov ->
  let out := snd (init_params rng self X means cov) in
  shape out = [B; K; F; F] /\
  diagonal B K F out /\
  (contains "spherical" (covariance_type self) = false ->
   contains "tied" (covariance_type self) = false ->
   forall b k i, (b < B)%nat -> (k < K)%nat -> (i < F)%nat ->
     item out [b; k; i; i] = initial_variance self cov b k i).
Proof.
  intros HX Hp out. subst out.
  destruct (init_params_cov_spec X means cov B S K F HX Hp)
    as (masked & -> & Hs & Hm).
  destruct (enforce_spec self masked B K F Hs) as [Hs' E].
  split; [exact Hs'|]. split.
  - intros b k i j Hb Hk Hi Hj Hij. rewrite E by assumption.
    rewrite (constrained_ext _ _ _ K F _
               (fun k i j => if (i =? j)%nat
                             then initial_variance self cov b k i else 0));
      try assumption; [|intros; now apply Hm].
    apply Nat.eqb_neq in Hij.
    unfold constrained. cbv zeta. rewrite Hij.
    destruct (contains "spherical" _), (contains "diag" _),
      (contains "tied" _); cbv beta iota; rewrite ?sum_upto_const; lra.
  - intros Hsph Htied b k i Hb Hk Hi. rewrite E by assumption.
    rewrite Hsph, Htied.
    rewrite (constrained_ext _ _ _ K F _
               (fun k i j => if (i =? j)%nat
                             then initial_variance self cov b k i else 0));
      try assumption; [|intros; now apply Hm].
    rewrite (constrained_scalar_matrix K F
               (fun k i => initial_variance self cov b k i)) by assumption.
    now rewrite Nat.eqb_refl.
Qed.

(** X16.  Without an initial covariance from the caller, [init_params]
    returns [covariance_init] times the identity for every type string
    that does not contain "spherical", and [covariance_init / F] times
    the identity for those that do: the spherical block averages the
    already masked matrix over all of its [F * F] entries. *)
Theorem init_default_covariance X means B S F :
  shape X = [B; S; F] ->
  params_match self B (n_components self) F means None ->
  let out := snd (init_params rng self X means None) in
  forall b k i j, (b < B)%nat -> (k < n_components self)%nat ->
    (i < F)%nat -> (j < F)%nat ->
    item out [b; k; i; j]
    = if (i =? j)%nat
      then if contains "spherical" (covariance_type self)
           then covariance_init self / INR F
           else covariance_init self
      else 0.
Proof.
  intros HX Hp out. subst out.
  destruct (init_params_cov_spec X means None B S (n_components self) F HX Hp)
    as (masked & -> & Hs & Hm).
  destruct (enforce_spec self masked B (n_components self) F Hs) as [_ E].
  intros b k i j Hb Hk Hi Hj. rewrite E by assumption.
  assert (HK : (0 < n_components self)%nat) by lia.
  assert (HF : (0 < F)%nat) by lia.
  rewrite (constrained_ext _ _ _ (n_components self) F _
             (fun _ i j => if (i =? j)%nat then covariance_init self else 0));
    try assumption; [|intros; now apply Hm].
  unfold constrained. cbv zeta.
  rewrite (matrix_mean_scalar F (covariance_init self) HF).
  destruct (contains "spherical" _), (contains "diag" _),
    (contains "tied" _), (i =? j)%nat; cbv beta iota;
    try reflexivity; now apply mean_const.
Qed.
End InitMore.

Lemma init_covariance_is_diagonal_witness :
  let self := mkGaussianMixture 1 5 "full" 1 1e-4 in
  let X := mkT [1; 2; 2]%nat (fun _ => 0) in
  let cov := mkT [1; 1; 2; 2]%nat (fun _ => 3) in
  let out := snd (init_params (fun _ => 0) self X None (Some cov)) in
  item out [0; 0; 0; 1]%nat = 0 /\ item out [0; 0; 1; 1]%nat = 3.
Proof.
  intros self X cov out.
  destruct (init_covariance_is_diagonal (fun _ => 0) self X None (Some cov)
              1 2 1 2 eq_refl (conj eq_refl (or_introl eq_refl)))
    as (_ & Hd & Hv).
  split.
  - apply Hd; lia.
  - subst out. rewrite (Hv eq_refl eq_refl 0%nat 0%nat 1%nat) by lia.
    reflexivity.
Defined.

(** Two features, spherical type, the default [covariance_init = 1]:
    the initial variance is 1/2. *)
Lemma init_default_covariance_witness :
  let self := mkGaussianMixture 1 5 "spherical" 1 1e-4 in
  let X := mkT [1; 2; 2]%nat (fun _ => 0) in
  item (snd (init_params (fun _ => 0) self X None None)) [0; 0; 1; 1]%nat
  = 1 / INR 2.
Proof.
  intros self X.
  now rewrite (init_default_covariance (fun _ => 0) self X None 1 2 2
                 eq_refl (conj eq_refl eq_refl) 0%nat 0%nat 1%nat 1%nat)
    by (cbn; lia).
Defined.

Lemma to_index_INR n : to_index (IZR (Int_part (INR n))) = n.
Proof.
  unfold to_index. rewrite Int_part_INR, <- INR_IZR_INZ, Int_part_INR.
  apply Nat2Z.id.
Qed.

Section InitMeans.
Variable rng : list nat -> R.
Variable self : GaussianMixture.

(** X17.  Without initial means from the caller, every initial mean is a
    sample of the same batch element: when [random_(0, n_samples)] draws
    the integer [draw b k] for component [k] of batch element [b], the
    offset [b * n_samples] added to it selects, in the flattened data,
    sample [draw b k] of batch element [b]. *)
Theorem init_means_are_samples X cov B S F (draw : nat -> nat -> nat) :
  shape X = [B; S; F] -> (0 < F)%nat ->
  (forall b k, (b < B)%nat -> (k < n_components self)%nat ->
     rng [b; k] = INR (draw b k) /\ (draw b k < S)%nat) ->
  forall b k f, (b < B)%nat -> (k < n_components self)%nat -> (f < F)%nat ->
    item (fst (init_params rng self X None cov)) [b; k; f]
    = item X [b; draw b k; f].
Proof.
  intros HX HF Hrng b k f Hb Hk Hf.
  destruct X as [sx x]; cbn [shape] in HX; subst sx.
  unfold init_params. cbv zeta. cbn [fst shape nth last].
  set (K := n_components self) in *.
  set (s1 := iadd _ _).
  assert (Hs1 : shape s1 = [B; K] /\
                forall b k, (b < B)%nat -> (k < K)%nat ->
                  item s1 [b; k] = INR (draw b k + b * S)).
  { split; [reflexivity|]. intros b0 k0 Hb0 Hk0.
    destruct (Hrng b0 k0 Hb0 Hk0) as [Hr _].
    cbn. bsimpl. rewrite Hr, plus_INR, mult_INR. reflexivity. }
  clearbody s1. destruct s1 as [ss1 s1]. cbn [shape item] in Hs1.
  destruct Hs1 as [-> Hs1].
  assert (HB : (0 < B)%nat) by lia. assert (HK : (0 < K)%nat) by lia.
  cbn [long tmap shape last].
  set (flat := view [None] _).
  assert (Hflat : shape flat = [(B * K)%nat] /\
                  forall b k, (b < B)%nat -> (k < K)%nat ->
                    item flat [(b * K + k)%nat]
                    = IZR (Int_part (INR (draw b k + b * S)))).
  { split.
    - cbn [flat view shape long tmap infer_sizes map known_numel fold_right].
      unfold numel; cbn [fold_right]. now rewrite Nat.mul_1_r, Nat.div_1_r.
    - intros b0 k0 Hb0 Hk0.
      cbn [flat view shape item long tmap infer_sizes map known_numel fold_right].
      rewrite (unravel_ravel_eq _ _ _ [b0; k0]).
      + now rewrite Hs1.
      + unfold ravel, numel; cbn [fold_right]. ring.
      + cbn [in_range]. auto. }
  clearbody flat. destruct flat as [sf flat]. cbn [shape item] in Hflat.
  destruct Hflat as [-> Hflat].
  set (xf := view [None; Some F] _).
  assert (Hxf : shape xf = [(B * S)%nat; F] /\
                forall b r f, (b < B)%nat -> (r < S)%nat -> (f < F)%nat ->
                  item xf [(r + b * S)%nat; f] = x [b; r; f]).
  { split.
    - cbn [xf view shape infer_sizes map known_numel fold_right].
      unfold numel; cbn [fold_right]. rewrite !Nat.mul_1_r.
      replace (B * (S * F))%nat with (B * S * F)%nat by ring.
      now rewrite Nat.div_mul by lia.
    - intros b0 r0 f0 Hb0 Hr0 Hf0.
      cbn [xf view shape item infer_sizes map known_numel fold_right].
      rewrite (unravel_ravel_eq _ _ _ [b0; r0; f0]); [reflexivity| |].
      + unfold ravel, numel; cbn [fold_right]. ring.
      + cbn [in_range]. auto. }
  clearbody xf. destruct xf as [sxf xf]. cbn [shape item] in Hxf.
  destruct Hxf as [-> Hxf].
  cbn [index_select0 shape nth tl item view infer_sizes map known_numel
       fold_right].
  assert (HF' : (numel [(B * K)%nat; F] / (B * (K * 1)) = F)%nat).
  { unfold numel; cbn [fold_right]. rewrite !Nat.mul_1_r.
    rewrite Nat.mul_comm. apply Nat.div_mul. lia. }
  rewrite HF'.
  rewrite (unravel_ravel_eq _ _ _ [(b * K + k)%nat; f]).
  - rewrite Hflat by assumption. rewrite to_index_INR.
    destruct (Hrng b k Hb Hk) as [_ Hr]. now apply Hxf.
  - unfold ravel, numel; cbn [fold_right]. ring.
  - cbn [in_range]. repeat split; [|exact Hf].
    pose proof (Nat.mul_le_mono_r (Datatypes.S b) B K Hb). lia.
Qed.
End InitMeans.

(** Two batch elements of three samples; component [k] of every batch
    element draws sample [k + 1]. *)
Lemma init_means_are_samples_witness :
  let self := mkGaussianMixture 2 5 "diag" 1 1e-4 in
  let X := mkT [2; 3; 1]%nat (fun idx => INR (10 * nth 0 idx O + nth 1 idx O)) in
  let rng := fun idx => INR (nth 1 idx O + 1) in
  item (fst (init_params rng self X None None)) [1; 1; 0]%nat
  = INR (10 * 1 + 2).
Proof.
  intros self X rng.
  rewrite (init_means_are_samples rng self X None 2 3 1
             (fun _ k => (k + 1)%nat) eq_refl Nat.lt_0_1).
  - reflexivity.
  - intros b k _ Hk. cbn in Hk. split; [reflexivity | lia].
  - lia.
  - cbn. lia.
  - lia.
Defined.

(** ** Restoring the sample axes, row by row *)

Lemma ravel_snoc s : forall p d k,
  length p = length s ->
  ravel (s ++ [d]) (p ++ [k]) = (ravel s p * d + k)%nat.
Proof.
  induction s as [|a s IH]; intros [|i p] d k Hlen; try discriminate Hlen.
  - unfold ravel, numel; cbn. lia.
  - cbn [app]. change (ravel (a :: s ++ [d]) (i :: p ++ [k]))
      with (i * numel (s ++ [d]) + ravel (s ++ [d]) (p ++ [k]))%nat.
    change (ravel (a :: s) (i :: p)) with (i * numel s + ravel s p)%nat.
    rewrite IH by (cbn in Hlen; lia).
    rewrite numel_app, numel_1. ring.
Qed.

Lemma in_range_length idx s : in_range idx s -> length idx = length s.
Proof.
  revert idx; induction s as [|d s IH]; intros [|i idx]; cbn; try tauto.
  intros [_ H]. f_equal. now apply IH.
Qed.

Lemma in_range_snoc p s k d :
  in_range p s -> (k < d)%nat -> in_range (p ++ [k]) (s ++ [d]).
Proof.
  revert p; induction s as [|a s IH]; intros [|i p]; cbn; try tauto.
  intros [Hi H] Hk. split; [exact Hi | now apply IH].
Qed.

(** The entries of the restored tensor along its last axis, at a fixed
    position [p] of the caller's leading axes, are one row of the
    flattened tensor: that of batch element [n / N] and sample
    [n mod N], where [n] is the row-major offset of [p]. *)
Lemma unflatten_rows t B mid K F :
  shape t = [B; numel mid; K] -> (0 < B)%nat -> (0 < numel mid)%nat ->
  let out := view (map Some (removelast (B :: mid ++ [F])) ++ [None]) t in
  forall p, in_range p (B :: mid) ->
    let n := ravel (B :: mid) p in
    (n / numel mid < B)%nat /\ (n mod numel mid < numel mid)%nat /\
    forall k, (k < K)%nat ->
      item out (p ++ [k]) = item t [(n / numel mid)%nat; (n mod numel mid)%nat; k].
Proof.
  intros Ht HB HN out p Hp n.
  destruct (unflatten_spec t B mid K F Ht HB HN) as [Hs _].
  pose proof (ravel_lt _ _ Hp) as Hlt. rewrite numel_cons in Hlt.
  fold n in Hlt.
  split; [apply Nat.Div0.div_lt_upper_bound; lia|].
  split; [apply Nat.mod_upper_bound; lia|].
  intros k Hk. subst out. cbn [view item shape] in Hs |- *. rewrite Hs, Ht.
  f_equal. apply unravel_ravel_eq.
  - change (B :: mid ++ [K]) with ((B :: mid) ++ [K]).
    rewrite ravel_snoc by now apply in_range_length. fold n.
    unfold ravel. rewrite !numel_cons, numel_nil.
    pose proof (Nat.div_mod_eq n (numel mid)) as E.
    rewrite E at 1. ring.
  - cbn [in_range]. repeat split; try assumption.
    + apply Nat.Div0.div_lt_upper_bound; lia.
    + apply Nat.mod_upper_bound; lia.
Qed.

(** Row [(n / N, n mod N)] of the flattened data is the sample at
    position [p] of the caller's data. *)
Lemma flatten_rows data B mid F :
  shape data = B :: mid ++ [F] -> (0 < B)%nat -> (0 < F)%nat ->
  forall p f, in_range p (B :: mid) -> (f < F)%nat ->
    let n := ravel (B :: mid) p in
    item (flatten_samples data) [(n / numel mid)%nat; (n mod numel mid)%nat; f]
    = item data (p ++ [f]).
Proof.
  intros Hd HB HF p f Hp Hf n.
  pose proof (flatten_samples_shape data B mid F Hd HB HF) as HX.
  unfold flatten_samples in *. cbn [view item shape] in HX |- *.
  rewrite HX. f_equal. rewrite Hd.
  change (B :: mid ++ [F]) with ((B :: mid) ++ [F]).
  apply unravel_ravel_eq.
  - rewrite ravel_snoc by now apply in_range_length. fold n.
    unfold ravel. rewrite !numel_cons, numel_nil.
    pose proof (Nat.div_mod_eq n (numel mid)) as E.
    rewrite E at 3. ring.
  - now apply in_range_snoc.
Qed.

Lemma ravel_batch B mid p :
  in_range p (B :: mid) -> (ravel (B :: mid) p / numel mid = hd O p)%nat.
Proof.
  destruct p as [|b p]; cbn [in_range]; [tauto|]. intros [_ Hp].
  pose proof (ravel_lt _ _ Hp) as Hlt.
  change (ravel (B :: mid) (b :: p)) with (b * numel mid + ravel mid p)%nat.
  rewrite Nat.div_add_l by lia. rewrite Nat.div_small by lia.
  cbn [hd]. lia.
Qed.

(** ** Further properties of the result of [forward] *)

Lemma normalize_floored_bounds B S K prob b s k :
  floored B S K prob -> (b < B)%nat -> (s < S)%nat -> (k < K)%nat ->
  0 < item (normalize_L1 prob) [b; s; k] <= 1.
Proof.
  intros [Hsh Hp] Hb Hs Hk. destruct prob as [sh p]; cbn in Hsh, Hp; subst sh.
  rewrite normalize_L1_item by assumption.
  pose proof prob_eps_pos as He.
  rewrite (sum_upto_ext K _ (fun j => p [b; s; j])).
  2:{ intros j Hj. apply Rabs_pos_eq. specialize (Hp b s j Hb Hs Hj). lra. }
  assert (Hge : p [b; s; k] <= sum_upto K (fun j => p [b; s; j])).
  { apply (sum_upto_ge_term K (fun j => p [b; s; j])); [|exact Hk].
    intros j Hj. specialize (Hp b s j Hb Hs Hj). lra. }
  specialize (Hp b s k Hb Hs Hk).
  assert (Hpos : 0 < sum_upto K (fun j => p [b; s; j])) by lra.
  rewrite Rmax_left by (pose proof normalize_eps_lt; lra).
  split.
  - apply Rdiv_lt_0_compat; lra.
  - apply (Rmult_le_reg_r (sum_upto K (fun j => p [b; s; j]))); [exact Hpos|].
    unfold Rdiv. rewrite Rmult_assoc, Rinv_l by lra. lra.
Qed.

Lemma sum_upto_pos n (f : nat -> R) :
  (0 < n)%nat -> (forall i, (i < n)%nat -> 0 < f i) -> 0 < sum_upto n f.
Proof.
  intros Hn Hf. destruct n as [|n]; [lia|]. cbn [sum_upto].
  assert (0 <= sum_upto n f).
  { rewrite <- (Rmult_0_r (INR n)). apply sum_upto_ge_const.
    intros i Hi. specialize (Hf i (Nat.lt_lt_succ_r _ _ Hi)). lra. }
  specialize (Hf n (Nat.lt_succ_diag_r n)). lra.
Qed.

Section ForwardMore.
Variable torch_exp : R -> R.
Variable log_density :
  nat -> (nat -> R) -> (nat -> R) -> (nat -> nat -> R) -> R.
Variable mvn_valid : tensor -> tensor -> bool.
Variable rng : list nat -> R.
Hypothesis torch_exp_nonneg : forall x, 0 <= torch_exp x.

Variable self : GaussianMixture.
Variable data : tensor.
Variables (B : nat) (mid : list nat) (K F : nat).
Variables means0 cov0 : option tensor.
Hypothesis Hdata : shape data = B :: mid ++ [F].
Hypothesis HB : (0 < B)%nat.
Hypothesis HF : (0 < F)%nat.
Hypothesis HK : (0 < K)%nat.
Hypothesis Hparams : params_match self B K F means0 cov0.

Local Abbreviation X := (flatten_samples data).
Local Abbreviation N := (numel mid).
Local Abbreviation run :=
  (forward torch_exp log_density mvn_valid rng self data means0 cov0).
Local Abbreviation returns :=
  ((1 <= n_iter self)%nat -> (forall l c, mvn_valid l c = true) ->
   exists r, run = Return r).

Lemma forward_total : returns.
Proof.
  now apply (forward_returns torch_exp log_density mvn_valid rng
               torch_exp_nonneg self data B mid K F).
Qed.

(** A returned bundle, in terms of the last E-step's outputs. *)
Lemma forward_parts r :
  run = Return r ->
  exists resp_ lp_,
    shape resp_ = [B; N; K] /\ shape lp_ = [B; N; K] /\
    (forall b s, (b < B)%nat -> (s < N)%nat ->
       sum_upto K (fun k => item resp_ [b; s; k]) = 1) /\
    (forall b s k, (b < B)%nat -> (s < N)%nat -> (k < K)%nat ->
       0 < item resp_ [b; s; k] <= 1) /\
    resp r = view (map Some (removelast (B :: mid ++ [F])) ++ [None]) resp_ /\
    log_prob r = view (map Some (removelast (B :: mid ++ [F])) ++ [None]) lp_ /\
    (means r, covariance r, prior r) = _m_step self X resp_.
Proof.
  intros H.
  destruct (forward_inv torch_exp log_density mvn_valid rng torch_exp_nonneg
              self data B mid K F means0 cov0 Hdata HB HF HK Hparams r H)
    as (n & st & resp_ & lp_ & _ & _ & _ & (_ & Hlp & prob & Hfl & ->) & ->).
  exists (normalize_L1 prob), lp_. cbn [resp log_prob means covariance prior].
  rewrite Hdata.
  split; [destruct Hfl as [Hs _]; destruct prob as [sp p]; cbn [shape] in Hs;
          subst sp; apply normalize_L1_shape|].
  split; [exact Hlp|].
  split; [intros b s Hb Hs; now apply (normalize_L1_sums_to_one B N K)|].
  split; [intros b s k Hb Hs Hk; now apply (normalize_floored_bounds B N K)|].
  split; [reflexivity|]. split; [reflexivity|].
  now destruct (_m_step self X (normalize_L1 prob)) as [[m c] p].
Qed.

(** X18.  The shapes of the five tensors [forward] returns: [resp] and
    [log_prob] carry the caller's leading axes followed by the component
    axis; [means] is (batch, components, features), [covariance] (batch,
    components, features, features) and [prior] (batch, 1, components,
    1), whatever the number of sample axes of the data. *)
Theorem forward_output_shapes :
  (0 < N)%nat ->
  returns /\
  forall r,
    forward torch_exp log_density mvn_valid rng self data means0 cov0
    = Return r ->
    shape (resp r) = B :: mid ++ [K] /\
    shape (log_prob r) = B :: mid ++ [K] /\
    shape (means r) = [B; K; F] /\
    shape (covariance r) = [B; K; F; F] /\
    shape (prior r) = [B; 1; K; 1]%nat.
Proof.
  intros HN. split; [exact forward_total|]. intros r H.
  pose proof (flatten_samples_shape data B mid F Hdata HB HF) as HX.
  destruct (forward_parts r H)
    as (resp_ & lp_ & Hs & Hl & _ & _ & Hr & Hlp & Em).
  destruct (m_step_full_spec self X resp_ B N F K HX Hs)
    as (m & c & p & E & Hm & _ & Hp & _ & Hc & _).
  rewrite E in Em. injection Em as -> -> ->.
  rewrite Hr, Hlp.
  split; [exact (proj1 (unflatten_spec resp_ B mid K F Hs HB HN))|].
  split; [exact (proj1 (unflatten_spec lp_ B mid K F Hl HB HN))|].
  split; [exact Hm|]. split; [now apply enforce_shape | exact Hp].
Qed.

(** X19.  The responsibilities [forward] returns are, at every position
    of the caller's leading axes, a probability distribution over the
    components: strictly positive, at most 1, and summing to exactly
    1. *)
Theorem forward_resp_is_distribution :
  (0 < N)%nat ->
  returns /\
  forall r,
    forward torch_exp log_density mvn_valid rng self data means0 cov0
    = Return r ->
    forall p, in_range p (B :: mid) ->
      sum_upto K (fun k => item (resp r) (p ++ [k])) = 1 /\
      forall k, (k < K)%nat -> 0 < item (resp r) (p ++ [k]) <= 1.
Proof.
  intros HN. split; [exact forward_total|]. intros r H p Hp.
  destruct (forward_parts r H)
    as (resp_ & lp_ & Hs & _ & Hsum & Hpos & Hr & _ & _).
  destruct (unflatten_rows resp_ B mid K F Hs HB HN p Hp)
    as (Hb & Hs' & Hrow).
  rewrite Hr. split.
  - rewrite (sum_upto_ext K _ _ Hrow). now apply Hsum.
  - intros k Hk. rewrite Hrow by assumption. now apply Hpos.
Qed.

(** X20.  The covariance [forward] returns satisfies, for every
    [covariance_type] string: every matrix is symmetric; every variance
    is at least [reg_covar]; the matrices are diagonal when the string
    contains "spherical" or "diag", have equal diagonal entries when it
    contains "spherical", and are the same for all components of a batch
    element when it contains "tied". *)
Theorem forward_covariance_constraints :
  returns /\
  forall r,
    forward torch_exp log_density mvn_valid rng self data means0 cov0
    = Return r ->
    let ct := covariance_type self in
    symmetric B K F (covariance r) /\
    (forall b k i, (b < B)%nat -> (k < K)%nat -> (i < F)%nat ->
       reg_covar self <= item (covariance r) [b; k; i; i]) /\
    (contains "spherical" ct = true \/ contains "diag" ct = true ->
       diagonal B K F (covariance r)) /\
    (contains "spherical" ct = true -> isotropic B K F (covariance r)) /\
    (contains "tied" ct = true -> tied_across B K F (covariance r)).
Proof.
  split; [exact forward_total|]. intros r H ct. subst ct.
  pose proof (flatten_samples_shape data B mid F Hdata HB HF) as HX.
  destruct (forward_parts r H) as (resp_ & lp_ & Hs & _ & _ & _ & _ & _ & Em).
  destruct (m_step_full_spec self X resp_ B N F K HX Hs)
    as (m & c & p & E & _ & _ & _ & _ & Hc & Hci).
  rewrite E in Em. injection Em as _ -> _.
  destruct (enforce_spec self c B K F Hc) as [_ Ee].
  split; [|split; [|split; [|split]]].
  - intros b k i j Hb Hk Hi Hj. rewrite !Ee by assumption.
    apply constrained_symmetric; try assumption.
    intros k0 i0 j0 Hk0 Hi0 Hj0. rewrite !Hci by assumption.
    f_equal. f_equal. apply sum_upto_ext. intros s _. ring.
  - intros b k i Hb Hk Hi. rewrite Ee by assumption.
    apply constrained_diag_ge; try assumption.
    intros k0 i0 j0 Hk0 Hi0 Hj0. rewrite Hci by assumption. apply Rmax_r.
  - intros Hd b k i j Hb Hk Hi Hj Hij. rewrite Ee by assumption.
    apply constrained_offdiag; [|exact Hij].
    destruct Hd as [-> | ->]; [reflexivity | apply orb_true_r].
  - intros Hd b k i i' Hb Hk Hi Hi'. rewrite !Ee by assumption.
    rewrite Hd. apply constrained_isotropic.
  - intros Hd b k k' i j Hb Hk Hk' Hi Hj. rewrite !Ee by assumption.
    rewrite Hd. apply constrained_tied.
Qed.

(** X21.  The prior [forward] returns is strictly positive and at most
    the number of flattened samples, so the quotients of the M-step
    inside [forward] never have a zero denominator. *)
Theorem forward_prior_positive :
  (0 < N)%nat ->
  returns /\
  forall r,
    forward torch_exp log_density mvn_valid rng self data means0 cov0
    = Return r ->
    forall b k, (b < B)%nat -> (k < K)%nat ->
      0 < item (prior r) [b; 0; k; 0]%nat <= INR N.
Proof.
  intros HN. split; [exact forward_total|]. intros r H b k Hb Hk.
  pose proof (flatten_samples_shape data B mid F Hdata HB HF) as HX.
  destruct (forward_parts r H)
    as (resp_ & lp_ & Hs & _ & _ & Hpos & _ & _ & Em).
  destruct (m_step_full_spec self X resp_ B N F K HX Hs)
    as (m & c & p & E & _ & _ & _ & Hpi & _).
  rewrite E in Em. injection Em as _ _ ->.
  rewrite Hpi by assumption. split.
  - apply sum_upto_pos; [exact HN|]. intros s Hs'.
    now apply Hpos.
  - rewrite <- (Rmult_1_r (INR N)), <- sum_upto_const.
    apply sum_upto_le. intros s Hs'. now apply Hpos.
Qed.

(** X22.  Every coordinate of every mean [forward] returns lies between
    any bounds that hold for that coordinate of all samples of the batch
    element: the fitted means never leave the bounding box of the
    data. *)
Theorem forward_means_within_data :
  (0 < N)%nat ->
  returns /\
  forall r,
    forward torch_exp log_density mvn_valid rng self data means0 cov0
    = Return r ->
    forall b f lo hi, (b < B)%nat -> (f < F)%nat ->
      (forall s, (s < N)%nat -> lo <= item X [b; s; f] <= hi) ->
      forall k, (k < K)%nat -> lo <= item (means r) [b; k; f] <= hi.
Proof.
  intros HN. split; [exact forward_total|].
  intros r H b f lo hi Hb Hf Hx k Hk.
  pose proof (flatten_samples_shape data B mid F Hdata HB HF) as HX.
  destruct (forward_parts r H)
    as (resp_ & lp_ & Hs & _ & _ & Hpos & _ & _ & Em).
  destruct (m_step_full_spec self X resp_ B N F K HX Hs)
    as (m & c & p & E & _ & Hm & _).
  rewrite E in Em. injection Em as -> _ _.
  rewrite Hm by assumption.
  apply (weighted_mean_bounds N (fun s => item resp_ [b; s; k])
           (fun s => item X [b; s; f])).
  - intros s Hs'. left. now apply Hpos.
  - apply sum_upto_pos; [exact HN|]. intros s Hs'. now apply Hpos.
  - exact Hx.
Qed.
(** X23.  The log probabilities [forward] returns line up with the
    caller's data: the entry at position [p] of the leading axes and
    component [k] is the log-density of the sample [data[p]] under
    component [k] of batch element [p[0]], with the means and covariance
    the loop held before its last iteration.  Flattening the sample axes
    on entry and restoring them on exit is a round trip. *)
Theorem forward_log_prob_entries :
  density_local log_density -> (0 < N)%nat ->
  returns /\
  forall r,
    forward torch_exp log_density mvn_valid rng self data means0 cov0
    = Return r ->
    exists n st,
      n_iter self = Datatypes.S n /\
      for_each torch_exp log_density mvn_valid self X (range n)
        (mkLocals (fst (init_params rng self X means0 cov0))
                  (snd (init_params rng self X means0 cov0)) None)
      = Return st /\
      forall p k, in_range p (B :: mid) -> (k < K)%nat ->
        item (log_prob r) (p ++ [k])
        = log_density F
            (fun f => item data (p ++ [f]))
            (fun f => item (l_means st) [hd O p; k; f])
            (fun i j => item (l_covariance st) [hd O p; k; i; j]).
Proof.
  intros Hloc HN. split; [exact forward_total|]. intros r H.
  pose proof (flatten_samples_shape data B mid F Hdata HB HF) as HX.
  destruct (forward_inv torch_exp log_density mvn_valid rng torch_exp_nonneg
              self data B mid K F means0 cov0 Hdata HB HF HK Hparams r H)
    as (n & st & resp_ & lp_ & En & El & [Hm Hc] & (Ee & Hlp & _) & ->).
  exists n, st. split; [exact En|]. split; [exact El|].
  intros p k Hp Hk. cbn [log_prob]. rewrite Hdata.
  destruct (e_step_full_spec torch_exp log_density mvn_valid torch_exp_nonneg
              self X (l_means st) (l_covariance st) B N F K HX Hm Hc)
    as (resp0 & lp0 & E & _ & _ & Hit & _).
  rewrite E in Ee. destruct (mvn_valid _ _); [|discriminate].
  injection Ee as _ <-.
  destruct (unflatten_rows lp0 B mid K F Hlp HB HN p Hp) as (Hb & Hs & Hrow).
  rewrite Hrow by assumption. rewrite (Hit Hloc) by assumption.
  rewrite (ravel_batch B mid p Hp).
  apply Hloc; try reflexivity.
  intros f Hf. rewrite <- (ravel_batch B mid p Hp).
  now apply (flatten_rows data B mid F Hdata HB HF).
Qed.
End ForwardMore.

(** *** Exceptions of [forward] *)




(** X25.  Data with no sample axis, of shape (batch, features), is
    fitted as one sample per batch element: [forward] returns
    responsibilities of shape (batch, components), every component mean
    equal to the data row of its batch element and, when [reg_covar] is
    non-negative, every variance equal to [reg_covar]. *)
Theorem forward_2d_data
    (torch_exp : R -> R)
    (log_density : nat -> (nat -> R) -> (nat -> R) -> (nat -> nat -> R) -> R)
    (mvn_valid : tensor -> tensor -> bool) (rng : list nat -> R)
    (self : GaussianMixture) (data : tensor) (B K F : nat)
    (means0 cov0 : option tensor) :
  let run :=
    forward torch_exp log_density mvn_valid rng self data means0 cov0 in
  (forall x, 0 <= torch_exp x) ->
  shape data = [B; F] ->
  (0 < B)%nat -> (0 < F)%nat -> (0 < K)%nat ->
  params_match self B K F means0 cov0 ->
  0 <= reg_covar self ->
  ((1 <= n_iter self)%nat -> (forall l c, mvn_valid l c = true) ->
   exists r, run = Return r) /\
  forall r,
    forward torch_exp log_density mvn_valid rng self data means0 cov0
    = Return r ->
    shape (resp r) = [B; K] /\
    forall b k f, (b < B)%nat -> (k < K)%nat -> (f < F)%nat ->
      item (means r) [b; k; f] = item data [b; f] /\
      item (covariance r) [b; k; f; f] = reg_covar self.
Proof.
  intros run Hexp Hdata HB HF HK Hparams Hreg. subst run.
  assert (Hd : shape data = B :: [] ++ [F]) by exact Hdata.
  pose proof (flatten_samples_shape data B [] F Hd HB HF) as HX.
  rewrite numel_nil in HX.
  split.
  { exact (forward_returns torch_exp log_density mvn_valid rng Hexp self data
             B [] K F means0 cov0 Hd HB HF HK Hparams). }
  intros r H.
  destruct (forward_parts torch_exp log_density mvn_valid rng Hexp self data
              B [] K F means0 cov0 Hd HB HF HK Hparams r H)
    as (resp_ & lp_ & Hs & _ & _ & Hpos & Hr & _ & Em).
  rewrite numel_nil in Hs, Hpos.
  split.
  { rewrite Hr.
    exact (proj1 (unflatten_spec resp_ B [] K F Hs HB Nat.lt_0_1)). }
  intros b k f Hb Hk Hf.
  assert (E : means r = fst (fst (_m_step self (flatten_samples data) resp_)) /\
              covariance r = snd (fst (_m_step self (flatten_samples data) resp_)))
    by (rewrite <- Em; split; reflexivity).
  destruct E as [-> ->].
  destruct (m_step_one_sample self (flatten_samples data) resp_ B F K HX Hs
              Hreg b k f Hb Hk Hf) as [Hmean Hcov].
  { intros k' Hk'. specialize (Hpos b 0%nat k' Hb Nat.lt_0_1 Hk'). lra. }
  split; [|exact Hcov]. rewrite Hmean.
  unfold flatten_samples in *. cbn [view item shape] in HX |- *.
  rewrite HX, Hdata. f_equal. apply unravel_ravel_eq.
  - unfold ravel, numel; cbn [fold_right]. ring.
  - cbn [in_range]. auto.
Qed.

(** *** Instances *)

Lemma example_iterations : (1 <= n_iter example_model)%nat.
Proof. cbn. lia. Qed.

Lemma forward_output_shapes_witness :
  exists r,
    example_forward = Return r /\
    shape (resp r) = [1; 2; 1]%nat /\ shape (prior r) = [1; 1; 1; 1]%nat.
Proof.
  destruct (forward_output_shapes exp (fun _ _ _ _ => 0)
              (fun _ _ => true) (fun _ => 0) exp_nonneg example_model
              example_data 1 [2%nat] 1 1 None None eq_refl Nat.lt_0_1
              Nat.lt_0_1 Nat.lt_0_1 example_params Nat.lt_0_2)
    as [Hret Hinv].
  destruct (Hret example_iterations (fun _ _ => eq_refl)) as [r Hr].
  exists r. split; [exact Hr|].
  destruct (Hinv r Hr) as (H1 & _ & _ & _ & H2). split; assumption.
Defined.

Lemma forward_resp_is_distribution_witness :
  exists r,
    example_forward = Return r /\
    sum_upto 1 (fun k => item (resp r) ([0; 1] ++ [k])%nat) = 1.
Proof.
  destruct (forward_resp_is_distribution exp (fun _ _ _ _ => 0)
              (fun _ _ => true) (fun _ => 0) exp_nonneg example_model
              example_data 1 [2%nat] 1 1 None None eq_refl Nat.lt_0_1
              Nat.lt_0_1 Nat.lt_0_1 example_params Nat.lt_0_2)
    as [Hret Hinv].
  destruct (Hret example_iterations (fun _ _ => eq_refl)) as [r Hr].
  exists r. split; [exact Hr|].
  apply (Hinv r Hr [0; 1]%nat). cbn. lia.
Defined.

Lemma forward_covariance_constraints_witness :
  exists r,
    example_forward = Return r /\
    1e-4 <= item (covariance r) [0; 0; 0; 0]%nat.
Proof.
  destruct (forward_covariance_constraints exp (fun _ _ _ _ => 0)
              (fun _ _ => true) (fun _ => 0) exp_nonneg example_model
              example_data 1 [2%nat] 1 1 None None eq_refl Nat.lt_0_1
              Nat.lt_0_1 Nat.lt_0_1 example_params)
    as [Hret Hinv].
  destruct (Hret example_iterations (fun _ _ => eq_refl)) as [r Hr].
  exists r. split; [exact Hr|].
  destruct (Hinv r Hr) as (_ & Hfl & _).
  apply (Hfl 0%nat 0%nat 0%nat); lia.
Defined.

Lemma forward_prior_positive_witness :
  exists r,
    example_forward = Return r /\
    0 < item (prior r) [0; 0; 0; 0]%nat <= INR 2.
Proof.
  destruct (forward_prior_positive exp (fun _ _ _ _ => 0)
              (fun _ _ => true) (fun _ => 0) exp_nonneg example_model
              example_data 1 [2%nat] 1 1 None None eq_refl Nat.lt_0_1
              Nat.lt_0_1 Nat.lt_0_1 example_params Nat.lt_0_2)
    as [Hret Hinv].
  destruct (Hret example_iterations (fun _ _ => eq_refl)) as [r Hr].
  exists r. split; [exact Hr|].
  apply (Hinv r Hr 0%nat 0%nat); lia.
Defined.

(** The two samples of the example are 0 and 1: the fitted mean lies
    between them. *)
Lemma forward_means_within_data_witness :
  exists r,
    example_forward = Return r /\
    0 <= item (means r) [0; 0; 0]%nat <= 1.
Proof.
  destruct (forward_means_within_data exp (fun _ _ _ _ => 0)
              (fun _ _ => true) (fun _ => 0) exp_nonneg example_model
              example_data 1 [2%nat] 1 1 None None eq_refl Nat.lt_0_1
              Nat.lt_0_1 Nat.lt_0_1 example_params Nat.lt_0_2)
    as [Hret Hinv].
  destruct (Hret example_iterations (fun _ _ => eq_refl)) as [r Hr].
  exists r. split; [exact Hr|].
  apply (Hinv r Hr 0%nat 0%nat 0 1); try lia.
  intros s Hs. unfold numel in Hs. cbn in Hs.
  assert (Hs' : (s = 0 \/ s = 1)%nat) by lia.
  destruct Hs' as [-> | ->];
    unfold flatten_samples, example_data; cbn [view item];
    match goal with
    | |- context [unravel ?a ?b] =>
      let v := eval vm_compute in (unravel a b) in
      change (unravel a b) with v
    end; cbn; lra.
Defined.

Lemma forward_log_prob_entries_witness :
  exists r st,
    forward exp (fun F v l _ => sum_upto F (fun f => v f - l f))
            (fun _ _ => true) (fun _ => 0) example_model example_data
            None None = Return r /\
    item (log_prob r) ([0; 1] ++ [0])%nat
    = 0 + (item example_data ([0; 1] ++ [0])%nat
           - item (l_means st) [0; 0; 0]%nat).
Proof.
  destruct (forward_log_prob_entries exp
              (fun F v l _ => sum_upto F (fun f => v f - l f))
              (fun _ _ => true) (fun _ => 0) exp_nonneg example_model
              example_data 1 [2%nat] 1 1 None None eq_refl Nat.lt_0_1
              Nat.lt_0_1 Nat.lt_0_1 example_params)
    as [Hret Hinv].
  - intros F v v' l l' c c' Hv Hl _. apply sum_upto_ext.
    intros f Hf. now rewrite Hv, Hl.
  - exact Nat.lt_0_2.
  - destruct (Hret example_iterations (fun _ _ => eq_refl)) as [r Hr].
    destruct (Hinv r Hr) as (n & st & _ & _ & Hit).
    exists r, st. split; [exact Hr|].
    rewrite (Hit [0; 1]%nat 0%nat) by (cbn; lia). reflexivity.
Defined.

(** Two batch elements holding one row each. *)
Lemma forward_2d_data_witness :
  exists r,
    forward exp (fun _ _ _ _ => 0) (fun _ _ => true) (fun _ => 0)
            example_model (mkT [2; 1]%nat (fun idx => INR (nth 0 idx O)))
            None None = Return r /\
    item (means r) [1; 0; 0]%nat = INR 1 /\
    item (covariance r) [1; 0; 0; 0]%nat = 1e-4.
Proof.
  destruct (forward_2d_data exp (fun _ _ _ _ => 0) (fun _ _ => true)
              (fun _ => 0) example_model
              (mkT [2; 1]%nat (fun idx => INR (nth 0 idx O))) 2 1 1 None None
              exp_nonneg eq_refl Nat.lt_0_2 Nat.lt_0_1 Nat.lt_0_1
              (conj eq_refl eq_refl))
    as [Hret Hinv].
  - cbn. lra.
  - destruct (Hret example_iterations (fun _ _ => eq_refl)) as [r Hr].
    exists r. split; [exact Hr|].
    apply (proj2 (Hinv r Hr) 1%nat 0%nat 0%nat); lia.
Defined.


(** ** Further properties of the store model *)

Section FrameMore.
Variable torch_exp : R -> R.
Variable log_density :
  nat -> (nat -> R) -> (nat -> R) -> (nat -> nat -> R) -> R.
Variable mvn_valid : tensor -> tensor -> bool.
Variable rng : list nat -> R.
Variable self : GaussianMixture.
Variable n : nat.

Lemma m_step_st_fresh X resp :
  frame_safe n (_m_step_st self X resp)
             (fun mcp => fresh_from n (fst (fst mcp)) /\
                         fresh_from n (snd (fst mcp)) /\
                         fresh_from n (snd mcp)).
Proof.
  unfold _m_step_st. repeat safe_step.
  eapply safe_bind; [apply enforce_st_safe; assumption|].
  intros c Hc. apply safe_ret. cbn [fst snd]. repeat split; auto with frame.
Qed.

Lemma e_step_st_fresh X means cov :
  frame_safe n (_e_step_st torch_exp log_density mvn_valid self X means cov)
             (fun rl => fresh_from n (fst rl) /\ fresh_from n (snd rl)).
Proof.
  unfold _e_step_st. repeat safe_step.
  destruct (mvn_valid _ _); [|apply safe_raise].
  repeat safe_step. apply safe_ret. cbn [fst snd]. split; assumption.
Qed.

Lemma em_body_st_fresh data st :
  frame_safe n (em_body_st torch_exp log_density mvn_valid self data st)
             (fresh_locals n).
Proof.
  unfold em_body_st.
  eapply safe_bind; [apply e_step_st_fresh|]. intros rl [Hr Hl].
  eapply safe_bind; [apply m_step_st_fresh|]. intros mcp (Hm & Hc & Hp).
  apply safe_ret. unfold fresh_locals. cbn [lr_means lr_covariance lr_body].
  tauto.
Qed.

Lemma for_each_st_fresh data iters : forall st,
  frame_safe n (for_each_st torch_exp log_density mvn_valid self data iters st)
             (fun st' => st' = st \/ fresh_locals n st').
Proof.
  induction iters as [|i iters IH]; intros st; cbn [for_each_st].
  - apply safe_ret. now left.
  - eapply safe_bind; [apply em_body_st_fresh|]. intros st' Hst'.
    eapply safe_weaken; [|apply IH].
    intros st'' [-> | H]; right; assumption.
Qed.

Lemma forward_st_fresh data means cov :
  frame_safe n (forward_st torch_exp log_density mvn_valid rng self
                           data means cov)
             (fresh_bundle n).
Proof.
  unfold forward_st. safe_step.
  eapply safe_bind; [apply init_params_st_safe|]. intros mc _.
  eapply safe_bind; [apply for_each_st_fresh|]. intros st Hst.
  destruct Hst as [-> | (Hm & Hc & Hb)].
  - cbn [lr_body]. apply safe_raise.
  - destruct (lr_body st) as [[[r l] p]|]; [|apply safe_raise].
    apply safe_ret. unfold fresh_bundle.
    cbn [resp_ref log_prob_ref means_ref covariance_ref prior_ref].
    destruct Hb as (Hr & Hl & Hp). repeat split; auto with frame.
Qed.
End FrameMore.

Section ValidMore.
Variable torch_exp : R -> R.
Variable log_density :
  nat -> (nat -> R) -> (nat -> R) -> (nat -> nat -> R) -> R.
Variable mvn_valid : tensor -> tensor -> bool.
Variable rng : list nat -> R.
Variable self : GaussianMixture.

(** The tensor objects of a returned dictionary read live cells. *)
Lemma forward_st_valid data means cov sigma r sigma' :
  valid sigma data -> valid_opt sigma means -> valid_opt sigma cov ->
  forward_st torch_exp log_density mvn_valid rng self data means cov sigma
  = Return (r, sigma') ->
  valid sigma' (resp_ref r) /\ valid sigma' (log_prob_ref r) /\
  valid sigma' (means_ref r) /\ valid sigma' (covariance_ref r) /\
  valid sigma' (prior_ref r).
Proof.
  intros Hd Hm Hc. unfold forward_st.
  rewrite bind_load.
  set (sizes := [Some (hd O (shape (deref data sigma))); None;
                 Some (last (shape (deref data sigma)) O)]).
  set (X := view_ref sizes data).
  assert (HX : valid sigma X) by exact Hd.
  destruct (init_params_st_refines rng self X means cov sigma HX Hm Hc)
    as (hm & hc & s1 & E & Ha1 & Hvm & Hvc & _).
  rewrite (bind_eq _ _ _ _ _ E). cbn [fst snd].
  pose proof (for_each_st_refines torch_exp log_density mvn_valid self X
                (range (n_iter self)) (mkLocalsRef hm hc None) s1
                (valid_agrees _ _ _ _ Ha1 HX)
                (conj Hvm (conj Hvc I))) as Hl.
  unfold st_bind.
  destruct (for_each_st _ _ _ _ _ _ _ s1) as [[st s2]|e]; [|discriminate].
  destruct Hl as (_ & (Hv1 & Hv2 & Hv3) & _).
  destruct (lr_body st) as [[[r0 l0] p0]|]; [|discriminate].
  intros H. injection H as <- <-.
  cbn [resp_ref log_prob_ref means_ref covariance_ref prior_ref].
  destruct Hv3 as (Hr & Hl & Hp). repeat split; assumption.
Qed.
End ValidMore.

(** X26.  The five tensors [forward] returns live in storage allocated
    during the call: each reads a cell that did not exist before, so no
    returned tensor shares storage with the caller's data or with means
    or a covariance the caller supplied, and writing into a result
    afterwards cannot change them. *)
Theorem forward_outputs_are_fresh
    (torch_exp : R -> R)
    (log_density : nat -> (nat -> R) -> (nat -> R) -> (nat -> nat -> R) -> R)
    (mvn_valid : tensor -> tensor -> bool) (rng : list nat -> R)
    (self : GaussianMixture) (data : tref) (means cov : option tref)
    (sigma : store) :
  valid sigma data -> valid_opt sigma means -> valid_opt sigma cov ->
  ((1 <= n_iter self)%nat -> (forall l c, mvn_valid l c = true) ->
   exists r sigma',
     forward_st torch_exp log_density mvn_valid rng self data means cov sigma
     = Return (r, sigma')) /\
  forall r sigma',
    forward_st torch_exp log_density mvn_valid rng self data means cov sigma
    = Return (r, sigma') ->
    forall h,
      In h [resp_ref r; log_prob_ref r; means_ref r; covariance_ref r;
            prior_ref r] ->
      (length sigma <= loc h < length sigma')%nat.
Proof.
  intros Hd Hm Hc. split.
  { intros Hn Hv.
    destruct (forward_st_returns torch_exp log_density mvn_valid rng self Hv
                data means cov Hn sigma) as (r & sigma' & E & _).
    now exists r, sigma'. }
  intros r sigma' E.
  pose proof (forward_st_fresh torch_exp log_density mvn_valid rng self
                (length sigma) data means cov sigma (le_n _)) as H.
  rewrite E in H. destruct H as [_ (F1 & F2 & F3 & F4 & F5)].
  destruct (forward_st_valid torch_exp log_density mvn_valid rng self
              data means cov sigma r sigma' Hd Hm Hc E)
    as (V1 & V2 & V3 & V4 & V5).
  unfold fresh_from, valid in *.
  intros h [<-|[<-|[<-|[<-|[<-|[]]]]]]; split; assumption.
Qed.

Lemma forward_outputs_are_fresh_witness :
  exists r sigma',
    example_forward_st = Return (r, sigma') /\
    (2 <= loc (covariance_ref r) < length sigma')%nat.
Proof.
  destruct (forward_outputs_are_fresh exp (fun _ _ _ _ => 0) (fun _ _ => true)
              (fun _ => 0) example_model (base_ref 0) None (Some (base_ref 1))
              example_store Nat.lt_0_2 I Nat.lt_1_2) as [Hret Hinv].
  destruct (Hret (le_S _ _ (le_S _ _ (le_S _ _ (le_S _ _ (le_n 1)))))
                 (fun _ _ => eq_refl)) as (r & sigma' & E).
  exists r, sigma'. split; [exact E|].
  apply (Hinv r sigma' E). cbn. tauto.
Defined.

(** X27.  What [_enforce_covariance_type] does to the tensor it is given.
    With "spherical" in the type the argument itself is overwritten, each
    entry with the mean of its matrix, and the masked result is a new
    tensor.  With "tied" alone the argument is overwritten with the mean
    over the components and is itself returned.  With "diag" and no
    "spherical" the argument is left as it was and the result is a new
    tensor.  With none of the three ("full") the argument is returned
    untouched. *)
Theorem enforce_writes_argument self l sigma :
  (l < length sigma)%nat ->
  let c := cell sigma l in
  let ct := covariance_type self in
  exists h' sigma',
    _enforce_covariance_type_st self (base_ref l) sigma = Return (h', sigma') /\
    (contains "spherical" ct = true ->
       cell sigma' l
       = setitem_all c (mean_keepdims (-1) (mean_keepdims (-2) c)) /\
       loc h' <> l) /\
    (dispatch ct = (false, false, true) ->
       cell sigma' l = setitem_all c (mean_keepdims 1 c) /\
       h' = base_ref l) /\
    (contains "spherical" ct = false -> contains "diag" ct = true ->
       cell sigma' l = c /\ loc h' <> l) /\
    (dispatch ct = (false, false, false) ->
       cell sigma' l = c /\ h' = base_ref l).
Proof.
  intros Hl c ct. subst ct.
  enough (H : forall s0, s0 = sigma ++ [] ->
            exists h' sigma',
              _enforce_covariance_type_st self (base_ref l) s0
              = Return (h', sigma') /\
              (contains "spherical" (covariance_type self) = true ->
                 cell sigma' l
                 = setitem_all c (mean_keepdims (-1) (mean_keepdims (-2) c)) /\
                 loc h' <> l) /\
              (dispatch (covariance_type self) = (false, false, true) ->
                 cell sigma' l = setitem_all c (mean_keepdims 1 c) /\
                 h' = base_ref l) /\
              (contains "spherical" (covariance_type self) = false ->
               contains "diag" (covariance_type self) = true ->
                 cell sigma' l = c /\ loc h' <> l) /\
              (dispatch (covariance_type self) = (false, false, false) ->
                 cell sigma' l = c /\ h' = base_ref l))
    by (apply H; now rewrite app_nil_r).
  intros s0 ->. unfold _enforce_covariance_type_st, dispatch.
  assert (Hold : forall tau, deref (base_ref l) (sigma ++ tau) = c)
    by (intros tau; now rewrite deref_old).
  assert (Hcell : forall tau, cell (sigma ++ tau) l = c)
    by (intros tau; apply (Hold tau)).
  assert (Hupd : forall x tau, cell (upd l x sigma ++ tau) l = x)
    by (intros x tau; now apply (deref_base_upd sigma tau l x)).
  destruct (contains "spherical" (covariance_type self)),
    (contains "diag" (covariance_type self)),
    (contains "tied" (covariance_type self));
    repeat (run1; rewrite ?Hold, ?Hcell, ?upd_old, ?deref_base_upd by exact Hl;
            norm_store);
    (do 2 eexists; split; [reflexivity|];
     repeat split; try discriminate; intros;
     rewrite ?Hupd, ?Hcell; try reflexivity;
     cbn [loc base_ref]; lia).
Qed.

(** Two components holding the 1 by 1 matrices (0) and (1), tied: the
    caller's tensor holds their mean afterwards. *)
Lemma enforce_writes_argument_witness :
  let self := mkGaussianMixture 2 5 "tied" 1 1e-4 in
  let cov := mkT [1; 2; 1; 1]%nat (fun idx => INR (nth 1 idx O)) in
  exists h' sigma',
    _enforce_covariance_type_st self (base_ref 0) [cov] = Return (h', sigma') /\
    cell sigma' 0 = setitem_all cov (mean_keepdims 1 cov) /\
    h' = base_ref 0.
Proof.
  intros self cov.
  destruct (enforce_writes_argument self 0 [cov] Nat.lt_0_1)
    as (h' & sigma' & E & _ & Ht & _).
  exists h', sigma'. split; [exact E|]. exact (Ht eq_refl).
Defined.

(** * Properties of the Wiener filter masks *)

Lemma cabs_nonneg z : 0 <= cabs z.
Proof. apply sqrt_pos. Qed.

(** The ratio [e / max(e, d)] for a magnitude [e] and a positive [d]. *)
Lemma ratio_capped e d :
  0 <= e -> 0 < d -> e / Rmax e d = Rmin 1 (e / d) /\ 0 <= e / Rmax e d <= 1.
Proof.
  intros He Hd. destruct (Rle_dec d e) as [Hle|Hgt].
  - rewrite Rmax_left by exact Hle.
    assert (Hpos : 0 < e) by lra.
    rewrite Rdiv_diag by lra.
    assert (H1 : 1 <= e / d).
    { apply (Rmult_le_reg_r d); [exact Hd|].
      unfold Rdiv. rewrite Rmult_assoc, Rinv_l by lra. lra. }
    rewrite Rmin_left by exact H1. split; [reflexivity | lra].
  - assert (Hlt : e < d) by lra.
    rewrite Rmax_right by lra.
    assert (H0 : 0 <= e / d).
    { apply Rmult_le_pos; [exact He|]. left. now apply Rinv_0_lt_compat. }
    assert (H1 : e / d <= 1).
    { apply (Rmult_le_reg_r d); [exact Hd|].
      unfold Rdiv. rewrite Rmult_assoc, Rinv_l by lra. lra. }
    rewrite Rmin_right by exact H1. split; [reflexivity | lra].
Qed.

Lemma rmax_upto_ge m f : forall j, (j <= m)%nat -> f j <= rmax_upto m f.
Proof.
  induction m as [|m IH]; intros j Hj; cbn [rmax_upto].
  - replace j with 0%nat by lia. lra.
  - destruct (Nat.eq_dec j (S m)) as [->|Hne].
    + apply Rmax_r.
    + eapply Rle_trans; [apply IH; lia | apply Rmax_l].
Qed.

Lemma rmax_upto_attained m f : exists i, (i <= m)%nat /\ f i = rmax_upto m f.
Proof.
  induction m as [|m [i [Hi E]]]; cbn [rmax_upto].
  - exists 0%nat. split; [lia | reflexivity].
  - destruct (Rle_dec (rmax_upto m f) (f (S m))) as [Hle|Hgt].
    + exists (S m). split; [lia|]. now rewrite Rmax_right.
    + exists i. split; [lia|]. rewrite Rmax_left by lra. exact E.
Qed.

Lemma rmax_upto_eq_iff m f i :
  (i <= m)%nat ->
  (f i = rmax_upto m f <-> forall j, (j <= m)%nat -> f j <= f i).
Proof.
  intros Hi. split.
  - intros E j Hj. rewrite E. now apply rmax_upto_ge.
  - intros H. apply Rle_antisym; [now apply rmax_upto_ge|].
    destruct (rmax_upto_attained m f) as (k & Hk & <-). now apply H.
Qed.

Section WienerProps.
Variable AudioSignal : Type.
Variable stft : AudioSignal -> ctensor.
Variable wiener : tensor -> ctensor -> nat -> ctensor.
Variable mask_class : Type.
Variable class_eqb : mask_class -> mask_class -> bool.
Variable Mask : Type.
Variable new_mask : mask_class -> ndarray -> Mask.

Local Abbreviation self_t := (WienerFilter.WienerFilter AudioSignal mask_class).
Local Abbreviation run := (WienerFilter.run stft wiener class_eqb new_mask).
Local Abbreviation for_masks := (WienerFilter.for_masks class_eqb new_mask).

(** The loop of [run] appends one mask per index, in order. *)
Lemma for_masks_map (self : self_t) _masks : forall iters acc,
  for_masks self _masks iters acc
  = acc ++ map (fun i =>
      new_mask (WienerFilter.mask_type (WienerFilter.base self))
        (if class_eqb (WienerFilter.mask_type (WienerFilter.base self))
                      (WienerFilter.MASKS (WienerFilter.base self) "binary")
         then Bools (np_equal (select_last i _masks) (np_max_last _masks))
         else Floats (select_last i _masks))) iters.
Proof.
  induction iters as [|k iters IH]; intros acc; cbn [WienerFilter.for_masks map].
  - now rewrite app_nil_r.
  - rewrite IH, <- app_assoc. reflexivity.
Qed.

Lemma for_masks_nth (self : self_t) _masks n i :
  (i < n)%nat ->
  nth_error (for_masks self _masks (range n) []) i
  = Some (new_mask (WienerFilter.mask_type (WienerFilter.base self))
            (if class_eqb (WienerFilter.mask_type (WienerFilter.base self))
                          (WienerFilter.MASKS (WienerFilter.base self) "binary")
             then Bools (np_equal (select_last i _masks) (np_max_last _masks))
             else Floats (select_last i _masks))).
Proof.
  intros Hi. rewrite for_masks_map. cbn [app].
  rewrite nth_error_map. unfold range.
  rewrite (nth_error_nth' _ O) by (rewrite length_seq; exact Hi).
  rewrite seq_nth by exact Hi. reflexivity.
Qed.

Lemma for_masks_length (self : self_t) _masks n :
  length (for_masks self _masks (range n) []) = n.
Proof.
  rewrite for_masks_map. cbn [app]. unfold range.
  now rewrite length_map, length_seq.
Qed.

Variable self : self_t.
Variables F T C : nat.
Hypothesis Hwiener : wiener_keeps_shape wiener.
Hypothesis Hest :
  forall e, In e (WienerFilter.estimates self) -> cshape (stft e) = [F; T; C].
Hypothesis Hmix : cshape (mix_stft stft self) = [F; T; C].
Hypothesis Hnonempty : WienerFilter.estimates self <> [].

Local Abbreviation N := (length (WienerFilter.estimates self)).

(** [run] returns, and the array [_masks] its loop reads holds the soft
    mask values, indexed (bin, frame, channel, source). *)
Lemma run_spec :
  exists _masks,
    run self = WienerFilter.Return (for_masks self _masks (range N) []) /\
    shape _masks = [F; T; C; N] /\
    forall f t c i, (f < F)%nat -> (t < T)%nat -> (c < C)%nat -> (i < N)%nat ->
      item _masks [f; t; c; i] = soft_value stft wiener self f t c i /\
      0 <= item _masks [f; t; c; i] <= 1.
Proof.
  unfold WienerFilter.run, soft_value, enhanced_of.
  destruct (WienerFilter.estimates self) as [|e es] eqn:Ees; [congruence|].
  assert (He : cshape (stft e) = [F; T; C]) by (apply Hest; now left).
  cbn [map WienerFilter.np_stack]. cbv zeta.
  set (N := length (np_abs (stft e) :: map (fun e0 => np_abs (stft e0)) es)).
  assert (HN : N = length (e :: es)).
  { subst N. cbn [length]. now rewrite length_map. }
  set (stacked := mkT (_ ++ [N]) _).
  set (sm := np_transpose [1; 0; 2; 3]%nat stacked).
  assert (Hsm : last (shape sm) O = N).
  { subst sm stacked. cbn [np_transpose permute shape np_abs map nth].
    rewrite He. reflexivity. }
  set (x := c_transpose [1; 0; 2]%nat _).
  assert (Hx : cshape x = [T; F; C] /\
               forall f t c, citem x [t; f; c] = citem (mix_stft stft self) [f; t; c]).
  { subst x. unfold mix_stft in *. cbn [c_transpose cshape citem map nth].
    rewrite Hmix. split; reflexivity. }
  set (W := wiener sm x (WienerFilter.iterations self)).
  assert (HW : cshape W = [T; F; C; N]).
  { subst W. rewrite Hwiener, Hsm. now rewrite (proj1 Hx). }
  clearbody W sm. destruct x as [sx x]. cbn [cshape citem] in Hx.
  destruct Hx as [-> Hx]. destruct W as [sw w]. cbn [cshape] in HW. subst sw.
  eexists. split; [|split].
  - f_equal. f_equal. rewrite <- HN.
    cbn [np_transpose permute shape tdiv tmap2 np_maximum np_abs tmap
         c_newaxis cshape app map nth broadcast_shape rev bshape_rev last].
    autorewrite with bcast. reflexivity.
  - rewrite <- HN.
    cbn [np_transpose permute shape tdiv tmap2 np_maximum np_abs tmap
         c_newaxis cshape app map nth broadcast_shape rev bshape_rev].
    autorewrite with bcast. reflexivity.
  - intros f t c i Hf Ht Hc Hi. rewrite <- HN in Hi.
    cbn. bsimpl. rewrite Hx.
    apply ratio_capped; [apply cabs_nonneg|].
    pose proof (cabs_nonneg (citem (mix_stft stft self) [f; t; c])). lra.
Qed.

(** X28.  With a mask type other than binary, [run] returns one mask per
    estimate, the mask at position [i] built from source [i] of the
    filter's output: a (bins, frames, channels) array whose every entry
    lies between 0 and 1, namely the magnitude the Wiener filter gives
    the source divided by the magnitude of the mixture plus [1e-7],
    capped at 1.  The denominator of the division in [run] is at least [1e-7], so
    it never divides by zero, and the two transpositions cancel: the
    mask is indexed like the mixture's spectrogram. *)
Theorem wiener_soft_masks :
  class_eqb (WienerFilter.mask_type (WienerFilter.base self))
            (WienerFilter.MASKS (WienerFilter.base self) "binary") = false ->
  exists masks,
    WienerFilter.run stft wiener class_eqb new_mask self
    = WienerFilter.Return masks /\
    length masks = length (WienerFilter.estimates self) /\
    forall i, (i < length (WienerFilter.estimates self))%nat ->
      exists m,
        nth_error masks i
        = Some (new_mask (WienerFilter.mask_type (WienerFilter.base self))
                         (Floats m)) /\
        shape m = [F; T; C] /\
        forall f t c, (f < F)%nat -> (t < T)%nat -> (c < C)%nat ->
          item m [f; t; c] = soft_value stft wiener self f t c i /\
          0 <= item m [f; t; c] <= 1.
Proof.
  intros Hsoft. destruct run_spec as (M & E & HM & Hit).
  eexists. split; [exact E|]. split; [apply for_masks_length|].
  intros i Hi. rewrite for_masks_nth by exact Hi. rewrite Hsoft.
  eexists. split; [reflexivity|].
  destruct M as [sM M]. cbn [shape item] in HM, Hit. subst sM.
  split; [reflexivity|].
  intros f t c Hf Ht Hc. cbn [select_last item app]. now apply Hit.
Qed.

(** X29.  With the binary mask type, [run] returns one boolean mask per
    estimate: the mask of source [i] is true at a (bin, frame, channel)
    position exactly when no source has a larger soft mask value there.
    Every position is therefore claimed by at least one source, and by
    several when they tie. *)
Theorem wiener_binary_masks :
  class_eqb (WienerFilter.mask_type (WienerFilter.base self))
            (WienerFilter.MASKS (WienerFilter.base self) "binary") = true ->
  exists masks,
    WienerFilter.run stft wiener class_eqb new_mask self
    = WienerFilter.Return masks /\
    length masks = length (WienerFilter.estimates self) /\
    (forall i, (i < length (WienerFilter.estimates self))%nat ->
       exists b,
         nth_error masks i
         = Some (new_mask (WienerFilter.mask_type (WienerFilter.base self))
                          (Bools b)) /\
         bshape b = [F; T; C] /\
         forall f t c, (f < F)%nat -> (t < T)%nat -> (c < C)%nat ->
           (bitem b [f; t; c] = true <->
            forall j, (j < length (WienerFilter.estimates self))%nat ->
              soft_value stft wiener self f t c j
              <= soft_value stft wiener self f t c i)) /\
    (forall f t c, (f < F)%nat -> (t < T)%nat -> (c < C)%nat ->
       exists i b,
         (i < length (WienerFilter.estimates self))%nat /\
         nth_error masks i
         = Some (new_mask (WienerFilter.mask_type (WienerFilter.base self))
                          (Bools b)) /\
         bitem b [f; t; c] = true).
Proof.
  intros Hbin. destruct run_spec as (M & E & HM & Hit).
  assert (HN : (0 < N)%nat).
  { destruct (WienerFilter.estimates self); [congruence | cbn; lia]. }
  destruct M as [sM M]. cbn [shape item] in HM, Hit. subst sM.
  assert (Hb : forall i f t c, (i < N)%nat ->
             (f < F)%nat -> (t < T)%nat -> (c < C)%nat ->
             bitem (np_equal (select_last i (mkT [F; T; C; N] M))
                             (np_max_last (mkT [F; T; C; N] M))) [f; t; c]
             = true
             <-> M [f; t; c; i]
                 = rmax_upto (N - 1) (fun j => M [f; t; c; j])).
  { intros i f t c Hi Hf Ht Hc. cbn. bsimpl.
    destruct (Req_dec_T _ _) as [Heq|Hne]; split; intros H;
      try assumption; try reflexivity; try discriminate.
    contradiction. }
  eexists. split; [exact E|]. split; [apply for_masks_length|]. split.
  - intros i Hi. rewrite for_masks_nth by exact Hi. rewrite Hbin.
    eexists. split; [reflexivity|]. split; [cbn; now bsimpl|].
    intros f t c Hf Ht Hc. rewrite Hb by assumption.
    rewrite (rmax_upto_eq_iff (N - 1) (fun j => M [f; t; c; j]) i) by lia.
    split; intros H j Hj.
    + rewrite <- (proj1 (Hit f t c j Hf Ht Hc Hj)).
      rewrite <- (proj1 (Hit f t c i Hf Ht Hc Hi)). apply H. lia.
    + assert (Hj' : (j < N)%nat) by lia.
      rewrite (proj1 (Hit f t c j Hf Ht Hc Hj')).
      rewrite (proj1 (Hit f t c i Hf Ht Hc Hi)). now apply H.
  - intros f t c Hf Ht Hc.
    destruct (rmax_upto_attained (N - 1) (fun j => M [f; t; c; j]))
      as (i & Hi & Hmax).
    assert (Hi' : (i < N)%nat) by lia.
    exists i. eexists. split; [exact Hi'|].
    rewrite for_masks_nth by exact Hi'. rewrite Hbin.
    split; [reflexivity|]. now apply Hb.
Qed.
End WienerProps.


(** An instance: one estimate equal to the mixture, a single bin, frame
    and channel, and a filter that returns zeros. *)
Lemma wiener_soft_masks_witness :
  let sig := mkC [1; 1; 1]%nat (fun _ => (1, 0)) in
  let wiener := fun v x (_ : nat) =>
    mkC (cshape x ++ [last (shape v) O]) (fun _ => (0, 0)) in
  let self :=
    WienerFilter.mkWienerFilter ctensor bool [sig] 1
      (WienerFilter.mkBase ctensor bool sig false (fun _ => true)) in
  exists masks,
    WienerFilter.run (fun s => s) wiener Bool.eqb (fun _ d => d) self
    = WienerFilter.Return masks /\
    length masks = 1%nat.
Proof.
  intros sig wiener self.
  destruct (wiener_soft_masks ctensor (fun s => s) wiener bool Bool.eqb
              ndarray (fun _ d => d) self 1 1 1)
    as (masks & E & Hlen & _).
  - intros v x n. reflexivity.
  - intros e [<-|[]]. reflexivity.
  - reflexivity.
  - discriminate.
  - reflexivity.
  - exists masks. split; assumption.
Defined.

Lemma wiener_binary_masks_witness :
  let sig := mkC [1; 1; 1]%nat (fun _ => (1, 0)) in
  let wiener := fun v x (_ : nat) =>
    mkC (cshape x ++ [last (shape v) O]) (fun _ => (0, 0)) in
  let self :=
    WienerFilter.mkWienerFilter ctensor bool [sig; sig] 1
      (WienerFilter.mkBase ctensor bool sig true (fun _ => true)) in
  exists masks i b,
    WienerFilter.run (fun s => s) wiener Bool.eqb (fun _ d => d) self
    = WienerFilter.Return masks /\
    nth_error masks i = Some (Bools b) /\
    bitem b [0; 0; 0]%nat = true.
Proof.
  intros sig wiener self.
  destruct (wiener_binary_masks ctensor (fun s => s) wiener bool Bool.eqb
              ndarray (fun _ d => d) self 1 1 1)
    as (masks & E & _ & _ & Hcover).
  - intros v x n. reflexivity.
  - intros e [<-|[<-|[]]]; reflexivity.
  - reflexivity.
  - discriminate.
  - reflexivity.
  - destruct (Hcover 0%nat 0%nat 0%nat Nat.lt_0_1 Nat.lt_0_1 Nat.lt_0_1)
      as (i & b & _ & Hn & Hb).
    exists masks, i, b. split; [exact E|]. split; assumption.
Defined.
